(** * CryptoBot indicator library: a shallow embedding and its properties

    The development follows [analysis/technical.py], [src/peer.py],
    [src/quantitative.py], [src/fundamental.py] and the peer analysis of
    [main.py].  A pandas column of float64 is a list of
    extended values: a finite number, the two infinities, or NaN.  Finite
    numbers are rationals ([Q]), and every IEEE-754 rule that the
    indicators rely on (division by zero, NaN propagation, comparisons
    with NaN being false) is written out.  Python exceptions are an
    explicit error result.

    Rounding comes in two layers.  The functions are first given with
    exact arithmetic; the properties proved of them rest on comparisons,
    NaN and index rules, which rounding does not change.  Where a property
    depends on the value of an arithmetic result, the function is given
    again with every result rounded by a parameter [rnd] (suffix [_r]),
    and the property is proved for every rounding whose relative error is
    at most [2^-53]; [b64] is the binary64 rounding, to nearest with ties
    to even.  The exponent range of binary64 (overflow, gradual underflow)
    and the sign of zero are left out. *)

From Stdlib Require Import QArith Qabs Qpower ZArith List Bool Lia Lqa Setoid Morphisms.
From Stdlib Require String.
Import ListNotations.
Import String.StringSyntax.
Delimit Scope string_scope with string.

Open Scope Q_scope.

(* ================================================================== *)
(** ** float64 values *)

Inductive fval : Type :=
| Fin (q : Q)
| PInf
| NInf
| NaN.

Definition isna (x : fval) : bool :=
  match x with NaN => true | _ => false end.

Definition fneg (x : fval) : fval :=
  match x with
  | Fin q => Fin (- q)
  | PInf => NInf
  | NInf => PInf
  | NaN => NaN
  end.

Definition fadd (x y : fval) : fval :=
  match x, y with
  | NaN, _ | _, NaN => NaN
  | Fin a, Fin b => Fin (a + b)
  | PInf, NInf | NInf, PInf => NaN
  | PInf, _ | _, PInf => PInf
  | NInf, _ | _, NInf => NInf
  end.

Definition fsub (x y : fval) : fval := fadd x (fneg y).

(** [signed_inf q pos]: the product of the finite [q] with the infinity
    whose sign is [pos]; [0 * inf] is NaN. *)
Definition signed_inf (q : Q) (pos : bool) : fval :=
  match q ?= 0 with
  | Gt => if pos then PInf else NInf
  | Lt => if pos then NInf else PInf
  | Eq => NaN
  end.

Definition fmul (x y : fval) : fval :=
  match x, y with
  | NaN, _ | _, NaN => NaN
  | Fin a, Fin b => Fin (a * b)
  | Fin a, PInf | PInf, Fin a => signed_inf a true
  | Fin a, NInf | NInf, Fin a => signed_inf a false
  | PInf, PInf | NInf, NInf => PInf
  | PInf, NInf | NInf, PInf => NInf
  end.

(** numpy division: a finite value over zero is an infinity of the sign of
    the numerator, [0/0] is NaN, nothing raises. *)
Definition fdiv (x y : fval) : fval :=
  match x, y with
  | NaN, _ | _, NaN => NaN
  | Fin a, Fin b =>
      if Qeq_bool b 0 then signed_inf a true else Fin (a / b)
  | Fin _, PInf | Fin _, NInf => Fin 0
  | PInf, Fin b => if Qle_bool 0 b then PInf else NInf
  | NInf, Fin b => if Qle_bool 0 b then NInf else PInf
  | PInf, _ | NInf, _ => NaN
  end.

(** [x > y], [x < y], [x != y] as Python evaluates them on floats: every
    ordered comparison with NaN is false, [!=] with NaN is true. *)
Definition fgtb (x y : fval) : bool :=
  match x, y with
  | NaN, _ | _, NaN => false
  | Fin a, Fin b => negb (Qle_bool a b)
  | PInf, PInf => false
  | PInf, _ => true
  | _, NInf => match x with NInf => false | _ => true end
  | _, _ => false
  end.

Definition fltb (x y : fval) : bool := fgtb y x.

Definition fneb (x y : fval) : bool :=
  match x, y with
  | Fin a, Fin b => negb (Qeq_bool a b)
  | PInf, PInf | NInf, NInf => false
  | _, _ => true
  end.

Definition fmax (x y : fval) : fval :=
  match x, y with
  | NaN, _ | _, NaN => NaN
  | _, _ => if fgtb y x then y else x
  end.

Definition fmin (x y : fval) : fval :=
  match x, y with
  | NaN, _ | _, NaN => NaN
  | _, _ => if fltb y x then y else x
  end.

Definition of_nat (n : nat) : fval := Fin (inject_Z (Z.of_nat n)).

(* ================================================================== *)
(** ** Results of calls that may raise *)

Inductive exn : Type := IndexError.

Inductive res (A : Type) : Type :=
| Ok (a : A)
| Raise (e : exn).

Arguments Ok {A} a.
Arguments Raise {A} e.

Definition bind {A B : Type} (m : res A) (k : A -> res B) : res B :=
  match m with
  | Ok a => k a
  | Raise e => Raise e
  end.

Notation "x <- m ;; k" := (bind m (fun x => k))
  (at level 61, m at next level, right associativity).

(* ================================================================== *)
(** ** The data frame *)

Record Bar : Type := mkBar {
  open : Q;
  high : Q;
  low : Q;
  close : Q;
  volume : Q;
  taker_buy_quote : Q
}.

Definition DataFrame : Type := list Bar.
Definition Series : Type := list fval.

Definition column (f : Bar -> Q) (df : DataFrame) : Series :=
  map (fun b => Fin (f b)) df.

(* ================================================================== *)
(** ** pandas and numpy primitives *)

(** [s.iloc[k]]: a negative position counts from the end; out of range
    raises IndexError. *)
Definition iloc {A : Type} (s : list A) (k : Z) : res A :=
  let n := Z.of_nat (length s) in
  let i := (if k <? 0 then n + k else k)%Z in
  if ((i <? 0) || (n <=? i))%Z then Raise IndexError
  else match nth_error s (Z.to_nat i) with
       | Some x => Ok x
       | None => Raise IndexError
       end.

Fixpoint zip_with (f : fval -> fval -> fval) (s t : Series) : Series :=
  match s, t with
  | x :: s', y :: t' => f x y :: zip_with f s' t'
  | _, _ => []
  end.

(** [s.diff()]: NaN at the first index, then [s_t - s_(t-1)]. *)
Fixpoint diff_from (prev : fval) (s : Series) : Series :=
  match s with
  | [] => []
  | x :: r => fsub x prev :: diff_from x r
  end.

Definition diff (s : Series) : Series := diff_from NaN s.

(** [s.pct_change()]: NaN at the first index, then [s_t / s_(t-1) - 1]. *)
Fixpoint pct_change_from (prev : fval) (s : Series) : Series :=
  match s with
  | [] => []
  | x :: r => fsub (fdiv x prev) (Fin 1) :: pct_change_from x r
  end.

Definition pct_change (s : Series) : Series := pct_change_from NaN s.

Definition dropna (s : Series) : Series :=
  filter (fun x => negb (isna x)) s.

(** [s.where(cond, other)] keeps the entries on which [cond] holds. *)
Definition where_ (cond : fval -> bool) (other : fval) (s : Series) : Series :=
  map (fun x => if cond x then x else other) s.

(** Left-to-right sum, as Python [sum] and a pandas reduction do it. *)
Definition fsum (s : Series) : fval := fold_left fadd s (Fin 0).

(** [s.sum()], [s.mean()]: NaN entries are skipped; the mean of nothing is
    NaN, the sum of nothing is 0. *)
Definition Series_sum (s : Series) : fval := fsum (dropna s).

Definition mean (s : Series) : fval :=
  let v := dropna s in fdiv (fsum v) (of_nat (length v)).

(** [s.cumsum()]: a NaN entry stays NaN and does not enter the running sum. *)
Fixpoint cumsum_from (acc : fval) (s : Series) : Series :=
  match s with
  | [] => []
  | x :: r =>
      if isna x then NaN :: cumsum_from acc r
      else let a := fadd acc x in a :: cumsum_from a r
  end.

Definition cumsum (s : Series) : Series := cumsum_from (Fin 0) s.

(** The trailing window of [w] entries that ends at index [i]. *)
Definition window (w i : nat) (s : Series) : Series :=
  firstn w (skipn (i + 1 - w) s).

(** [s.rolling(window=w).agg()]: [min_periods] defaults to [w], so the
    first [w-1] entries are NaN, and so is every window holding a NaN (the
    aggregates below propagate it). *)
Definition rolling (w : nat) (agg : Series -> fval) (s : Series) : Series :=
  map (fun i => if (i + 1 <? w)%nat then NaN else agg (window w i s))
      (seq 0 (length s)).

Definition win_mean (v : Series) : fval := fdiv (fsum v) (of_nat (length v)).

Definition win_max (v : Series) : fval :=
  match v with
  | [] => NaN
  | x :: r => fold_left fmax r x
  end.

Definition win_min (v : Series) : fval :=
  match v with
  | [] => NaN
  | x :: r => fold_left fmin r x
  end.

(** [s.ewm(span, adjust=False).mean()]: [y_0 = x_0],
    [y_t = (1 - alpha) y_(t-1) + alpha x_t], [alpha = 2 / (span + 1)]. *)
Fixpoint ewm_from (alpha : Q) (prev : fval) (s : Series) : Series :=
  match s with
  | [] => []
  | x :: r =>
      let y := fadd (fmul (Fin (1 - alpha)) prev) (fmul (Fin alpha) x) in
      y :: ewm_from alpha y r
  end.

Definition ewm_mean (span : Q) (s : Series) : Series :=
  match s with
  | [] => []
  | x :: r => x :: ewm_from (2 / (span + 1)) x r
  end.

(** [np.where(cond, 1, -1)] *)
Definition np_where (cond : fval -> bool) (a b : fval) (s : Series) : Series :=
  map (fun x => if cond x then a else b) s.

Section SquareRoot.

(** [np.sqrt] on finite non-negative floats is a parameter of the
    development. *)
Variable sqrtQ : Q -> Q.

Definition np_sqrt (x : fval) : fval :=
  match x with
  | Fin q => if Qle_bool 0 q then Fin (sqrtQ q) else NaN
  | PInf => PInf
  | _ => NaN
  end.

(** [s.std()]: sample standard deviation (ddof = 1), NaN skipped; NaN
    when fewer than two observations remain. *)
Definition var (s : Series) : fval :=
  let v := dropna s in
  if (length v <=? 1)%nat then NaN
  else
    let m := mean v in
    fdiv (fsum (map (fun x => fmul (fsub x m) (fsub x m)) v))
         (of_nat (length v - 1)).

Definition std (s : Series) : fval := np_sqrt (var s).

(* ---------------------------------------------------------------- *)
(** *** src/peer.py *)

Definition calculate_sharpe_ratio (df : DataFrame) : fval :=
  let returns := dropna (pct_change (column close df)) in
  let staking_apy := Fin ((5 # 100) / 365) in
  let total_returns := map (fun r => fadd r staking_apy) returns in
  let risk_free_rate := Fin ((25 # 1000) / 365) in
  let excess_returns := map (fun r => fsub r risk_free_rate) total_returns in
  if fneb (std excess_returns) (Fin 0)
  then fmul (fdiv (mean excess_returns) (std excess_returns))
            (np_sqrt (Fin 365))
  else PInf.

End SquareRoot.

Definition calculate_nvt_ratio (df : DataFrame) (supply : Q) : fval :=
  let market_caps := map (fun x => fmul x (Fin supply)) (column close df) in
  let volumes := zip_with fmul (column volume df) (column close df) in
  mean (zip_with fdiv market_caps volumes).

Definition calculate_mayer_multiple (df : DataFrame) : res fval :=
  ma_200 <- iloc (rolling 200 win_mean (column close df)) (-1) ;;
  current_price <- iloc (column close df) (-1) ;;
  Ok (if fneb ma_200 (Fin 0) then fdiv current_price ma_200 else PInf).

(* ------------------------------------------------------------------ *)
(** *** analysis/technical.py *)

Definition calculate_sma_50 (df : DataFrame) : res fval :=
  iloc (rolling 50 win_mean (column close df)) (-1).

Definition calculate_ema_20 (df : DataFrame) : res fval :=
  iloc (ewm_mean 20 (column close df)) (-1).

Definition rsi_series (df : DataFrame) (period : nat) : Series :=
  let delta := diff (column close df) in
  let gain :=
    rolling period win_mean (where_ (fun d => fgtb d (Fin 0)) (Fin 0) delta) in
  let loss :=
    rolling period win_mean
      (map fneg (where_ (fun d => fltb d (Fin 0)) (Fin 0) delta)) in
  let rs := zip_with fdiv gain loss in
  map (fun r => fsub (Fin 100) (fdiv (Fin 100) (fadd (Fin 1) r))) rs.

Definition calculate_rsi (df : DataFrame) (period : nat) : res fval :=
  let rsi := rsi_series df period in
  if negb (forallb isna rsi) then iloc rsi (-1) else Ok NaN.

Definition calculate_obv (df : DataFrame) : res fval :=
  let direction :=
    np_where (fun d => fgtb d (Fin 0)) (Fin 1) (fneg (Fin 1))
             (diff (column close df)) in
  let obv := cumsum (zip_with fmul direction (column volume df)) in
  iloc obv (-1).

Definition calculate_vwap (df : DataFrame) : res fval :=
  let typical_price :=
    map (fun x => fdiv x (Fin 3))
        (zip_with fadd (zip_with fadd (column high df) (column low df))
                  (column close df)) in
  let vwap :=
    zip_with fdiv (cumsum (zip_with fmul typical_price (column volume df)))
             (cumsum (column volume df)) in
  iloc vwap (-1).

Definition calculate_roc (df : DataFrame) (period : Z) : res fval :=
  last_close <- iloc (column close df) (-1) ;;
  past_close <- iloc (column close df) (- period) ;;
  Ok (fmul (fdiv (fsub last_close past_close) past_close) (Fin 100)).

Definition calculate_stochastic_k (df : DataFrame) (period : nat) : res fval :=
  let lowest_low := rolling period win_min (column low df) in
  let highest_high := rolling period win_max (column high df) in
  let k :=
    zip_with fdiv
      (map (fun x => fmul (Fin 100) x)
           (zip_with fsub (column close df) lowest_low))
      (zip_with fsub highest_high lowest_low) in
  iloc k (-1).

Definition calculate_williams_r (df : DataFrame) (period : nat) : res fval :=
  let highest_high := rolling period win_max (column high df) in
  let lowest_low := rolling period win_min (column low df) in
  let r :=
    zip_with fdiv
      (map (fun x => fmul (Fin (-100)) x)
           (zip_with fsub highest_high (column close df)))
      (zip_with fsub highest_high lowest_low) in
  iloc r (-1).

Definition calculate_channel_breakout (df : DataFrame) : res Z :=
  high_20 <- iloc (rolling 20 win_max (column high df)) (-1) ;;
  low_20 <- iloc (rolling 20 win_min (column low df)) (-1) ;;
  current_price <- iloc (column close df) (-1) ;;
  Ok (if fgtb current_price high_20 then 1%Z
      else if fltb current_price low_20 then (-1)%Z else 0%Z).

(* ------------------------------------------------------------------ *)
(** *** src/quantitative.py *)

Record volume_composition : Type := mkComposition {
  buy_volume : fval;
  sell_volume : fval
}.

Definition calculate_volume_composition (df : DataFrame) : volume_composition :=
  let buy := Series_sum (column taker_buy_quote df) in
  let total_volume := Series_sum (zip_with fmul (column volume df) (column close df)) in
  let sell := fsub total_volume buy in
  if fneb total_volume (Fin 0)
  then mkComposition (fdiv buy total_volume) (fdiv sell total_volume)
  else mkComposition (Fin 0) (Fin 0).

Record price_dcf : Type := mkDcf {
  intrinsic_value : fval;
  valuation_ratio : fval
}.

Definition calculate_price_dcf (df : DataFrame)
    (discount_rate growth_rate : Q) (years : nat) : res price_dcf :=
  current_price <- iloc (column close df) (-1) ;;
  let future_prices :=
    map (fun t => fmul current_price (Fin ((1 + growth_rate) ^ Z.of_nat t)))
        (seq 1 years) in
  let discounted_price :=
    fsum (map (fun tp =>
                 fdiv (snd tp) (Fin ((1 + discount_rate) ^ Z.of_nat (fst tp))))
              (combine (seq 1 (length future_prices)) future_prices)) in
  let ratio :=
    if fneb current_price (Fin 0) then fdiv discounted_price current_price
    else PInf in
  Ok (mkDcf discounted_price ratio).


(* ================================================================== *)
(** ** Further pandas and Python primitives *)

(** [s.rolling(window=w).sum()] aggregates a window by its plain sum. *)
Definition win_sum (v : Series) : fval := fsum v.

(** [x.abs()] *)
Definition fabs (x : fval) : fval :=
  match x with
  | Fin q => Fin (Qabs q)
  | PInf | NInf => PInf
  | NaN => NaN
  end.

(** [s.shift()]: every entry moves one index down, NaN enters at index 0. *)
Definition shift (s : Series) : Series :=
  match s with
  | [] => []
  | _ :: _ => NaN :: removelast s
  end.

(** One step of [frame.max(axis=1)]: NaN entries of a row are skipped, a
    row of NaN only gives NaN. *)
Definition fmax_skipna (x y : fval) : fval :=
  match x, y with
  | NaN, _ => y
  | _, NaN => x
  | _, _ => fmax x y
  end.

(** Python [max(0, x)]: the second argument wins only if it compares
    greater, so NaN loses against 0. *)
Definition py_max0 (x : fval) : fval :=
  if fgtb x (Fin 0) then x else Fin 0.

(** Sample variance of a rolling window (ddof = 1). *)
Definition win_var (v : Series) : fval :=
  let m := win_mean v in
  fdiv (fsum (map (fun x => fmul (fsub x m) (fsub x m)) v))
       (of_nat (length v - 1)).

(* ------------------------------------------------------------------ *)
(** *** analysis/technical.py, continued *)

Definition calculate_macd (df : DataFrame) : res fval :=
  let ema_12 := ewm_mean 12 (column close df) in
  let ema_26 := ewm_mean 26 (column close df) in
  let macd := zip_with fsub ema_12 ema_26 in
  let signal := ewm_mean 9 macd in
  m <- iloc macd (-1) ;;
  s <- iloc signal (-1) ;;
  Ok (fsub m s).

Definition true_range (df : DataFrame) : Series :=
  let hl := zip_with fsub (column high df) (column low df) in
  let hc := map fabs (zip_with fsub (column high df) (shift (column close df))) in
  let lc := map fabs (zip_with fsub (column low df) (shift (column close df))) in
  zip_with fmax_skipna (zip_with fmax_skipna hl hc) lc.

Definition calculate_atr (df : DataFrame) (period : nat) : res fval :=
  iloc (rolling period win_mean (true_range df)) (-1).

Definition calculate_momentum (df : DataFrame) (period : Z) : res fval :=
  last_close <- iloc (column close df) (-1) ;;
  past_close <- iloc (column close df) (- period) ;;
  Ok (fsub last_close past_close).

Definition calculate_volume_oscillator (df : DataFrame) : res fval :=
  let short_ma := rolling 5 win_mean (column volume df) in
  let long_ma := rolling 20 win_mean (column volume df) in
  s <- iloc short_ma (-1) ;;
  l <- iloc long_ma (-1) ;;
  Ok (fmul (fdiv (fsub s l) l) (Fin 100)).

Definition cmo_series (df : DataFrame) (period : nat) : Series :=
  let delta := diff (column close df) in
  let up_sum :=
    rolling period win_sum (where_ (fun d => fgtb d (Fin 0)) (Fin 0) delta) in
  let down_sum :=
    rolling period win_sum
      (map fneg (where_ (fun d => fltb d (Fin 0)) (Fin 0) delta)) in
  zip_with fdiv
    (map (fun x => fmul (Fin 100) x) (zip_with fsub up_sum down_sum))
    (zip_with fadd up_sum down_sum).

Definition calculate_cmo (df : DataFrame) (period : nat) : res fval :=
  let cmo := cmo_series df period in
  if negb (forallb isna cmo) then iloc cmo (-1) else Ok NaN.

(* ------------------------------------------------------------------ *)
(** *** src/peer.py, continued *)

Definition calculate_price_volume_ratio (df : DataFrame) : res fval :=
  current_price <- iloc (column close df) (-1) ;;
  let avg_volume := mean (zip_with fmul (column volume df) (column close df)) in
  Ok (if fneb avg_volume (Fin 0) then fdiv current_price avg_volume else PInf).

Definition calculate_speculative_signal (nvt mayer : fval) : Z :=
  if fgtb nvt (Fin 50) || fgtb mayer (Fin (24 # 10)) then 1%Z else 0%Z.

(* ------------------------------------------------------------------ *)
(** *** src/quantitative.py and src/fundamental.py, continued *)

Definition circulating_supply : Q := 16000000.

Definition calculate_cuv (df : DataFrame) : res fval :=
  current_price <- iloc (column close df) (-1) ;;
  let market_cap := fmul current_price (Fin circulating_supply) in
  let avg_volume := mean (zip_with fmul (column volume df) (column close df)) in
  Ok (if fneb avg_volume (Fin 0) then fdiv market_cap avg_volume else PInf).

Definition calculate_deuv (df : DataFrame)
    (discount_rate growth_rate : Q) (years : nat) : res fval :=
  current_price <- iloc (column close df) (-1) ;;
  let market_cap := fmul current_price (Fin circulating_supply) in
  let current_volume :=
    mean (zip_with fmul (column volume df) (column close df)) in
  let future_volumes :=
    map (fun t => fmul current_volume (Fin ((1 + growth_rate) ^ Z.of_nat t)))
        (seq 1 years) in
  let discounted_volume :=
    fsum (map (fun tv =>
                 fdiv (snd tv) (Fin ((1 + discount_rate) ^ Z.of_nat (fst tv))))
              (combine (seq 1 (length future_volumes)) future_volumes)) in
  Ok (if fneb discounted_volume (Fin 0)
      then fdiv market_cap discounted_volume else PInf).

(** [years = 1], so the exponent [1 / years] is [1.0] and the power
    returns its base. *)
Definition calculate_volume_cagr (df : DataFrame) : res fval :=
  let quote := zip_with fmul (column volume df) (column close df) in
  start_volume <- iloc quote 0 ;;
  end_volume <- iloc quote (-1) ;;
  Ok (if fneb start_volume (Fin 0)
      then fsub (fdiv end_volume start_volume) (Fin 1) else PInf).

Definition calculate_market_cap_growth (df : DataFrame) : res fval :=
  first_close <- iloc (column close df) 0 ;;
  let start_market_cap := fmul first_close (Fin circulating_supply) in
  last_close <- iloc (column close df) (-1) ;;
  let end_market_cap := fmul last_close (Fin circulating_supply) in
  Ok (if fneb start_market_cap (Fin 0)
      then fsub (fdiv end_market_cap start_market_cap) (Fin 1) else PInf).

Definition calculate_price_momentum (df : DataFrame) : res fval :=
  last_close <- iloc (column close df) (-1) ;;
  first_close <- iloc (column close df) 0 ;;
  Ok (fdiv (fsub last_close first_close) first_close).

Section Volatility.

Variable sqrtQ : Q -> Q.

Definition win_std (v : Series) : fval := np_sqrt sqrtQ (win_var v).

Definition calculate_bollinger_width (df : DataFrame) : res fval :=
  let sma_20 := rolling 20 win_mean (column close df) in
  let std_20 := rolling 20 win_std (column close df) in
  let upper := zip_with fadd sma_20 (map (fun x => fmul (Fin 2) x) std_20) in
  let lower := zip_with fsub sma_20 (map (fun x => fmul (Fin 2) x) std_20) in
  u <- iloc upper (-1) ;;
  l <- iloc lower (-1) ;;
  m <- iloc sma_20 (-1) ;;
  Ok (fdiv (fsub u l) m).

Definition calculate_price_stability_ratio (df : DataFrame) : fval :=
  let returns := dropna (pct_change (column close df)) in
  let volatility := fmul (std sqrtQ returns) (np_sqrt sqrtQ (Fin 365)) in
  let avg_price := mean (column close df) in
  if fneb volatility (Fin 0) then fdiv avg_price volatility else PInf.

Definition calculate_sharpe_ratio_staking (df : DataFrame) : fval :=
  let returns := dropna (pct_change (column close df)) in
  let staking_apy := 6 # 100 in
  let daily_staking_yield := Fin (staking_apy / 365) in
  let total_returns := map (fun r => fadd r daily_staking_yield) returns in
  let risk_free_rate := Fin ((25 # 1000) / 365) in
  let excess_returns := map (fun r => fsub r risk_free_rate) total_returns in
  if fneb (std sqrtQ excess_returns) (Fin 0)
  then fmul (fdiv (mean excess_returns) (std sqrtQ excess_returns))
            (np_sqrt sqrtQ (Fin 365))
  else PInf.

Definition calculate_volatility_reduction (df : DataFrame) : fval :=
  let returns := dropna (pct_change (column close df)) in
  let half := (length returns / 2)%nat in
  let early_vol :=
    fmul (std sqrtQ (firstn half returns)) (np_sqrt sqrtQ (Fin 365)) in
  let late_vol :=
    fmul (std sqrtQ (skipn half returns)) (np_sqrt sqrtQ (Fin 365)) in
  let reduction :=
    if fneb early_vol (Fin 0)
    then fdiv (fsub early_vol late_vol) early_vol else Fin 0 in
  py_max0 reduction.

End Volatility.

(* ------------------------------------------------------------------ *)
(** *** main.py: the peer analysis *)

(** [COIN_CONFIG], in declaration order (a Python dict keeps it): coin,
    trading symbol, circulating supply. *)
Definition COIN_CONFIG : list (String.string * (String.string * Q)) :=
  [ ("BTC"%string, ("BTCUSDT"%string, 19700000));
    ("ETH"%string, ("ETHUSDT"%string, 120000000));
    ("AAVE"%string, ("AAVEUSDT"%string, 16000000));
    ("SOL"%string, ("SOLUSDT"%string, 500000000));
    ("BNB"%string, ("BNBUSDT"%string, 150000000));
    ("UNI"%string, ("UNIUSDT"%string, 600000000));
    ("LINK"%string, ("LINKUSDT"%string, 500000000)) ].

Inductive run_error : Type :=
| KeyError
| ValueError
| Indicator (e : exn).

Inductive outcome (A : Type) : Type :=
| Done (a : A)
| Failed (e : run_error).

Arguments Done {A} a.
Arguments Failed {A} e.

(** [COIN_CONFIG[coin]] *)
Definition config_get (coin : String.string) : option (String.string * Q) :=
  option_map snd (find (fun e => String.eqb (fst e) coin) COIN_CONFIG).

(** [l.index(s)] *)
Fixpoint index_of (s : String.string) (l : list String.string) : option nat :=
  match l with
  | [] => None
  | x :: r => if String.eqb x s then Some O else option_map S (index_of s r)
  end.

(** The symbols of the other coins in configuration order, then the
    symbol of the analysed coin. *)
Definition peer_symbols (coin symbol : String.string) : list String.string :=
  map (fun e => fst (snd e))
      (filter (fun e => negb (String.eqb (fst e) coin)) COIN_CONFIG)
  ++ [symbol].

(** [COIN_CONFIG[list(COIN_CONFIG.keys())[peer_symbols.index(s)]]["supply"]] *)
Definition supply_used (symbols : list String.string) (s : String.string)
  : outcome Q :=
  match index_of s symbols with
  | None => Failed ValueError
  | Some i =>
      match nth_error (map fst COIN_CONFIG) i with
      | None => Failed (Indicator IndexError)
      | Some key =>
          match config_get key with
          | None => Failed KeyError
          | Some (_, supply) => Done supply
          end
      end
  end.

Record peer_metrics : Type := mkPeerMetrics {
  nvt_ratio : fval;
  sharpe_ratio : fval;
  price_volume_ratio : fval;
  mayer_multiple : fval;
  speculative_signal : Z;
  price_stability_ratio : fval;
  rsi : fval;
  macd_histogram : fval
}.

Fixpoint collect {A B : Type} (f : A -> outcome B) (l : list A)
  : outcome (list B) :=
  match l with
  | [] => Done []
  | x :: r =>
      match f x with
      | Failed e => Failed e
      | Done y =>
          match collect f r with
          | Failed e => Failed e
          | Done ys => Done (y :: ys)
          end
      end
  end.

Section PeerAnalysis.

(** Market-data retrieval and [np.sqrt] are parameters. *)
Variable fetch_binance_data : String.string -> DataFrame.
Variable sqrtQ : Q -> Q.

Definition peer_row (df : DataFrame) (supply : Q) : res peer_metrics :=
  let nvt := calculate_nvt_ratio df supply in
  mayer <- calculate_mayer_multiple df ;;
  let sharpe := calculate_sharpe_ratio sqrtQ df in
  pv <- calculate_price_volume_ratio df ;;
  let signal := calculate_speculative_signal nvt mayer in
  let stability := calculate_price_stability_ratio sqrtQ df in
  r <- calculate_rsi df 14 ;;
  m <- calculate_macd df ;;
  Ok (mkPeerMetrics nvt sharpe pv mayer signal stability r m).

(** [run_peer_analysis], up to the table [results] that it writes out:
    one row of metrics per symbol, in the order of [peer_symbols]. *)
Definition run_peer_analysis (coin : String.string)
  : outcome (list (String.string * peer_metrics)) :=
  match config_get coin with
  | None => Failed KeyError
  | Some (symbol, _) =>
      let symbols := peer_symbols coin symbol in
      collect
        (fun s =>
           let df := fetch_binance_data s in
           match supply_used symbols s with
           | Failed e => Failed e
           | Done supply =>
               match peer_row df supply with
               | Raise e => Failed (Indicator e)
               | Ok row => Done (s, row)
               end
           end)
        symbols
  end.

End PeerAnalysis.

(** The supply that [COIN_CONFIG] records for a trading symbol. *)
Definition supply_configured (s : String.string) : option Q :=
  option_map (fun e => snd (snd e))
             (find (fun e => String.eqb (fst (snd e)) s) COIN_CONFIG).

(* ================================================================== *)
(** ** Rounded arithmetic *)

(** Nearest integer to [n / d], ties to the even one. *)
Definition round_half_even (n d : Z) : Z :=
  let k := (n / d)%Z in
  let r := (n mod d)%Z in
  if (2 * r <? d)%Z then k
  else if (d <? 2 * r)%Z then (k + 1)%Z
  else if Z.even k then k else (k + 1)%Z.

(** binary64 rounding of the positive rational [a / b]: 53 significant
    bits, round to nearest, ties to even.  The exponent range is not
    bounded: overflow and gradual underflow are left out. *)
Definition b64_pos (a b : Z) : Q :=
  let e0 := (Z.log2 a - Z.log2 b)%Z in
  let below :=
    if (0 <=? e0)%Z then (a <? b * 2 ^ e0)%Z else (a * 2 ^ (- e0) <? b)%Z in
  let e := if below then (e0 - 1)%Z else e0 in
  let s := (e - 52)%Z in
  if (s <? 0)%Z
  then inject_Z (round_half_even (a * 2 ^ (- s)) b) / inject_Z (2 ^ (- s))
  else inject_Z (round_half_even a (b * 2 ^ s)) * inject_Z (2 ^ s).

Definition b64 (q : Q) : Q :=
  match Qnum q with
  | Z0 => 0
  | Zpos a => b64_pos (Zpos a) (Zpos (Qden q))
  | Zneg a => - b64_pos (Zpos a) (Zpos (Qden q))
  end.

(** The unit roundoff [2^-53] of binary64. *)
Definition u64 : Q := 1 # 9007199254740992.

(** A float power with an integer exponent, correctly rounded. *)
Definition pow64 (x : Q) (t : nat) : Q := b64 (x ^ Z.of_nat t).

Section Rounded.

(** [rnd] rounds the exact result of an operation to the float format,
    [pow_r] is the float power [x ** t].  Every function below is the
    function of the same name above with the result of each arithmetic
    operation rounded; without rounding ([rnd := fun q => q]) it is that
    function, and [rnd := b64], [pow_r := pow64] is its binary64
    evaluation.  Reductions add from left to right. *)
Variable rnd : Q -> Q.
Variable pow_r : Q -> nat -> Q.

Definition round (x : fval) : fval :=
  match x with
  | Fin q => Fin (rnd q)
  | _ => x
  end.

Definition fadd_r (x y : fval) : fval := round (fadd x y).
Definition fsub_r (x y : fval) : fval := round (fsub x y).
Definition fmul_r (x y : fval) : fval := round (fmul x y).
Definition fdiv_r (x y : fval) : fval := round (fdiv x y).

Fixpoint diff_from_r (prev : fval) (s : Series) : Series :=
  match s with
  | [] => []
  | x :: r => fsub_r x prev :: diff_from_r x r
  end.

Definition diff_r (s : Series) : Series := diff_from_r NaN s.

Definition fsum_r (s : Series) : fval := fold_left fadd_r s (Fin 0).

Definition mean_r (s : Series) : fval :=
  let v := dropna s in fdiv_r (fsum_r v) (of_nat (length v)).

Fixpoint cumsum_from_r (acc : fval) (s : Series) : Series :=
  match s with
  | [] => []
  | x :: r =>
      if isna x then NaN :: cumsum_from_r acc r
      else let a := fadd_r acc x in a :: cumsum_from_r a r
  end.

Definition cumsum_r (s : Series) : Series := cumsum_from_r (Fin 0) s.

Definition win_mean_r (v : Series) : fval :=
  fdiv_r (fsum_r v) (of_nat (length v)).

Definition win_sum_r (v : Series) : fval := fsum_r v.

(* ------------------------------------------------------------------ *)
(** *** analysis/technical.py, rounded *)

Definition calculate_sma_50_r (df : DataFrame) : res fval :=
  iloc (rolling 50 win_mean_r (column close df)) (-1).

Definition calculate_vwap_r (df : DataFrame) : res fval :=
  let typical_price :=
    map (fun x => fdiv_r x (Fin 3))
        (zip_with fadd_r (zip_with fadd_r (column high df) (column low df))
                  (column close df)) in
  let vwap :=
    zip_with fdiv_r
      (cumsum_r (zip_with fmul_r typical_price (column volume df)))
      (cumsum_r (column volume df)) in
  iloc vwap (-1).

Definition calculate_stochastic_k_r (df : DataFrame) (period : nat)
    : res fval :=
  let lowest_low := rolling period win_min (column low df) in
  let highest_high := rolling period win_max (column high df) in
  let k :=
    zip_with fdiv_r
      (map (fun x => fmul_r (Fin 100) x)
           (zip_with fsub_r (column close df) lowest_low))
      (zip_with fsub_r highest_high lowest_low) in
  iloc k (-1).

Definition calculate_williams_r_r (df : DataFrame) (period : nat)
    : res fval :=
  let highest_high := rolling period win_max (column high df) in
  let lowest_low := rolling period win_min (column low df) in
  let r :=
    zip_with fdiv_r
      (map (fun x => fmul_r (Fin (-100)) x)
           (zip_with fsub_r highest_high (column close df)))
      (zip_with fsub_r highest_high lowest_low) in
  iloc r (-1).

Definition cmo_series_r (df : DataFrame) (period : nat) : Series :=
  let delta := diff_r (column close df) in
  let up_sum :=
    rolling period win_sum_r
            (where_ (fun d => fgtb d (Fin 0)) (Fin 0) delta) in
  let down_sum :=
    rolling period win_sum_r
      (map fneg (where_ (fun d => fltb d (Fin 0)) (Fin 0) delta)) in
  zip_with fdiv_r
    (map (fun x => fmul_r (Fin 100) x) (zip_with fsub_r up_sum down_sum))
    (zip_with fadd_r up_sum down_sum).

Definition calculate_cmo_r (df : DataFrame) (period : nat) : res fval :=
  let cmo := cmo_series_r df period in
  if negb (forallb isna cmo) then iloc cmo (-1) else Ok NaN.

(* ------------------------------------------------------------------ *)
(** *** src/quantitative.py and src/fundamental.py, rounded *)

Definition calculate_price_dcf_r (df : DataFrame)
    (discount_rate growth_rate : Q) (years : nat) : res price_dcf :=
  current_price <- iloc (column close df) (-1) ;;
  let future_prices :=
    map (fun t =>
           fmul_r current_price (Fin (pow_r (rnd (1 + growth_rate)) t)))
        (seq 1 years) in
  let discounted_price :=
    fsum_r
      (map (fun tp =>
              fdiv_r (snd tp) (Fin (pow_r (rnd (1 + discount_rate)) (fst tp))))
           (combine (seq 1 (length future_prices)) future_prices)) in
  let ratio :=
    if fneb current_price (Fin 0) then fdiv_r discounted_price current_price
    else PInf in
  Ok (mkDcf discounted_price ratio).

Definition calculate_cuv_r (df : DataFrame) : res fval :=
  current_price <- iloc (column close df) (-1) ;;
  let market_cap := fmul_r current_price (Fin circulating_supply) in
  let avg_volume :=
    mean_r (zip_with fmul_r (column volume df) (column close df)) in
  Ok (if fneb avg_volume (Fin 0) then fdiv_r market_cap avg_volume else PInf).

Definition calculate_deuv_r (df : DataFrame)
    (discount_rate growth_rate : Q) (years : nat) : res fval :=
  current_price <- iloc (column close df) (-1) ;;
  let market_cap := fmul_r current_price (Fin circulating_supply) in
  let current_volume :=
    mean_r (zip_with fmul_r (column volume df) (column close df)) in
  let future_volumes :=
    map (fun t =>
           fmul_r current_volume (Fin (pow_r (rnd (1 + growth_rate)) t)))
        (seq 1 years) in
  let discounted_volume :=
    fsum_r
      (map (fun tv =>
              fdiv_r (snd tv) (Fin (pow_r (rnd (1 + discount_rate)) (fst tv))))
           (combine (seq 1 (length future_volumes)) future_volumes)) in
  Ok (if fneb discounted_volume (Fin 0)
      then fdiv_r market_cap discounted_volume else PInf).

Definition calculate_market_cap_growth_r (df : DataFrame) : res fval :=
  first_close <- iloc (column close df) 0 ;;
  let start_market_cap := fmul_r first_close (Fin circulating_supply) in
  last_close <- iloc (column close df) (-1) ;;
  let end_market_cap := fmul_r last_close (Fin circulating_supply) in
  Ok (if fneb start_market_cap (Fin 0)
      then fsub_r (fdiv_r end_market_cap start_market_cap) (Fin 1) else PInf).

Definition calculate_price_momentum_r (df : DataFrame) : res fval :=
  last_close <- iloc (column close df) (-1) ;;
  first_close <- iloc (column close df) 0 ;;
  Ok (fdiv_r (fsub_r last_close first_close) first_close).

End Rounded.

(* ================================================================== *)
(** ** Vocabulary of the statements *)

(** [x =~ q]: the float [x] is finite and its value is the rational [q]. *)
Definition is_fin (x : fval) (q : Q) : Prop :=
  match x with
  | Fin a => a == q
  | _ => False
  end.

Notation "x =~ q" := (is_fin x q) (at level 70, no associativity).

(** The last [w] rows of a frame. *)
Definition lastn {A : Type} (w : nat) (l : list A) : list A :=
  skipn (length l - w) l.


Definition constant_close (c : Q) (df : DataFrame) : Prop :=
  Forall (fun b => close b == c) df.

Definition constant_price (c : Q) (df : DataFrame) : Prop :=
  Forall (fun b => high b == c /\ low b == c /\ close b == c) df.

Definition total_of (f : Bar -> Q) (df : DataFrame) : Q :=
  fold_right (fun b acc => f b + acc) 0 df.

(** On-balance volume as the specification words it: the signed volumes
    of the bars from index 1 on, the sign being [+1] on a rise of the close
    and [-1] otherwise. *)
Fixpoint signed_volume_from (prev : Q) (bars : list Bar) : Q :=
  match bars with
  | [] => 0
  | b :: r =>
      (if Qlt_le_dec prev (close b) then volume b else - volume b)
      + signed_volume_from (close b) r
  end.

Definition obv_from_index_1 (df : DataFrame) : Q :=
  match df with
  | [] => 0
  | b0 :: r => signed_volume_from (close b0) r
  end.

(** The price-free constant of the discounted cash flow:
    the sum over [t = 1..years] of [((1 + g) / (1 + d)) ^ t]. *)
Definition dcf_constant (d g : Q) (years : nat) : Q :=
  fold_right (fun t acc => ((1 + g) / (1 + d)) ^ Z.of_nat t + acc) 0
             (seq 1 years).

(** A rational approximation of the square root, good to six decimals;
    it instantiates [np.sqrt] where a concrete function is wanted. *)
Definition sqrt_approx (q : Q) : Q :=
  Z.sqrt (Qnum q * Zpos (Qden q) * 1000000000000)
  # (Qden q * 1000000).

Definition bar_of_close (c : Q) : Bar := mkBar c c c c 1 0.

Definition ramp_10_23 : DataFrame :=
  map (fun z => bar_of_close (inject_Z z))
      [10; 11; 12; 13; 14; 15; 16; 17; 18; 19; 20; 21; 22; 23]%Z.

(** The signed volumes that [calculate_obv] accumulates, given the close
    that precedes the first bar. *)
Definition obv_terms (prev : fval) (bars : list Bar) : Series :=
  zip_with fmul
    (np_where (fun d => fgtb d (Fin 0)) (Fin 1) (fneg (Fin 1))
              (diff_from prev (column close bars)))
    (column volume bars).

Definition typical (b : Bar) : Q := (high b + low b + close b) / 3.

Definition all_fin (e : Q) (s : Series) : Prop := Forall (fun x => x =~ e) s.

(** The gains and losses that [calculate_rsi] averages, given the close
    that precedes the first bar. *)
Definition gains_from (prev : fval) (bars : list Bar) : Series :=
  where_ (fun d => fgtb d (Fin 0)) (Fin 0) (diff_from prev (column close bars)).

Definition losses_from (prev : fval) (bars : list Bar) : Series :=
  map fneg
      (where_ (fun d => fltb d (Fin 0)) (Fin 0)
              (diff_from prev (column close bars))).

Definition nonneg (x : fval) : Prop := exists q, x = Fin q /\ 0 <= q.

Definition rsi_of (rs : fval) : fval :=
  fsub (Fin 100) (fdiv (Fin 100) (fadd (Fin 1) rs)).

(** The quote volume [volume * close] of a bar. *)
Definition quote_volume (b : Bar) : Q := volume b * close b.

Definition finite (x : fval) : Prop := exists q, x = Fin q.

(** One row of the true range, given the previous close. *)
Definition tr_row (prev : fval) (b : Bar) : fval :=
  fmax_skipna
    (fmax_skipna (fsub (Fin (high b)) (Fin (low b)))
                 (fabs (fsub (Fin (high b)) prev)))
    (fabs (fsub (Fin (low b)) prev)).

Fixpoint tr_from (prev : fval) (bars : list Bar) : Series :=
  match bars with
  | [] => []
  | b :: r => tr_row prev b :: tr_from (Fin (close b)) r
  end.

(** The last entry of the CMO series, from the two window sums. *)
Definition cmo_of (up down : fval) : fval :=
  fdiv (fmul (Fin 100) (fsub up down)) (fadd up down).

(** [near k x y]: the non-negative numbers [x] and [y] agree up to [k]
    roundings: [y (1-u)^k <= x] and [x (1-u)^k <= y], [u] the unit
    roundoff. *)
Definition near (k : nat) (x y : Q) : Prop :=
  0 <= x /\ 0 <= y /\
  y * (1 - u64) ^ Z.of_nat k <= x /\ x * (1 - u64) ^ Z.of_nat k <= y.

(** [sg neg x]: [x] with its sign turned when [neg] holds. *)
Definition sg (neg : bool) (x : Q) : Q := if neg then - x else x.

Definition fnear (neg : bool) (k : nat) (x : fval) (y : Q) : Prop :=
  exists q, x = Fin q /\ near k (sg neg q) y.

(** A rounding is faithful when its relative error is at most the unit
    roundoff; a power is faithful when its relative error is at most
    twice that (one unit in the last place). *)
Definition faithful (rnd : Q -> Q) : Prop :=
  forall x, Qabs (rnd x - x) <= u64 * Qabs x.

Definition faithful_pow (pow_r : Q -> nat -> Q) : Prop :=
  forall x t, 0 < x ->
    Qabs (pow_r x t - x ^ Z.of_nat t) <= 2 * u64 * x ^ Z.of_nat t.

(** The rounded gains and losses that [calculate_cmo] sums, given the
    close that precedes the first bar, and the oscillator of two sums. *)
Definition gains_from_r (rnd : Q -> Q) (prev : fval) (bars : list Bar)
    : Series :=
  where_ (fun d => fgtb d (Fin 0)) (Fin 0)
         (diff_from_r rnd prev (column close bars)).

Definition losses_from_r (rnd : Q -> Q) (prev : fval) (bars : list Bar)
    : Series :=
  map fneg
      (where_ (fun d => fltb d (Fin 0)) (Fin 0)
              (diff_from_r rnd prev (column close bars))).

Definition cmo_of_r (rnd : Q -> Q) (up down : fval) : fval :=
  fdiv_r rnd (fmul_r rnd (Fin 100) (fsub_r rnd up down))
         (fadd_r rnd up down).

(* ================================================================== *)
(** ** Arithmetic of finite floats *)

Lemma is_fin_inv x q : x =~ q -> exists a, x = Fin a /\ a == q.
Proof. destruct x; simpl; try tauto. intros H; eauto. Qed.

Lemma is_fin_refl q : Fin q =~ q.
Proof. simpl; reflexivity. Qed.

Lemma is_fin_eq x p q : x =~ p -> p == q -> x =~ q.
Proof. destruct x; simpl; try tauto. intros H1 H2; rewrite H1; exact H2. Qed.

Lemma fadd_fin x y p q : x =~ p -> y =~ q -> fadd x y =~ p + q.
Proof.
  destruct x, y; simpl; try tauto. intros H1 H2; rewrite H1, H2; reflexivity.
Qed.

Lemma fneg_fin x p : x =~ p -> fneg x =~ - p.
Proof. destruct x; simpl; try tauto. intros H; rewrite H; reflexivity. Qed.

Lemma fsub_fin x y p q : x =~ p -> y =~ q -> fsub x y =~ p - q.
Proof. intros H1 H2; unfold fsub; apply fadd_fin; [|apply fneg_fin]; assumption. Qed.

Lemma fmul_fin x y p q : x =~ p -> y =~ q -> fmul x y =~ p * q.
Proof.
  destruct x, y; simpl; try tauto. intros H1 H2; rewrite H1, H2; reflexivity.
Qed.

Lemma Qeq_bool_false a b : ~ a == b -> Qeq_bool a b = false.
Proof.
  intros H; destruct (Qeq_bool a b) eqn:E; [|reflexivity].
  apply Qeq_bool_iff in E; contradiction.
Qed.

Lemma Qeq_bool_true a b : a == b -> Qeq_bool a b = true.
Proof. apply Qeq_bool_iff. Qed.

Lemma fdiv_fin x y p q : x =~ p -> y =~ q -> ~ q == 0 -> fdiv x y =~ p / q.
Proof.
  destruct x as [a| | |], y as [b| | |]; simpl; try tauto. intros H1 H2 Hq.
  rewrite Qeq_bool_false by (rewrite H2; exact Hq).
  simpl; rewrite H1, H2; reflexivity.
Qed.

Lemma fneb_zero x : x =~ 0 -> fneb x (Fin 0) = false.
Proof.
  destruct x; simpl; try tauto. intros H; rewrite Qeq_bool_true by exact H.
  reflexivity.
Qed.

Lemma fneb_nonzero x q : x =~ q -> ~ q == 0 -> fneb x (Fin 0) = true.
Proof.
  destruct x; simpl; try tauto. intros H Hq.
  rewrite Qeq_bool_false by (rewrite H; exact Hq). reflexivity.
Qed.

Lemma fgtb_fin a b : fgtb (Fin a) (Fin b) = true <-> b < a.
Proof.
  simpl. destruct (Qle_bool a b) eqn:E; simpl.
  - apply Qle_bool_iff in E. split; [discriminate | intros H; lra].
  - split; [intros _ | reflexivity].
    destruct (Qlt_le_dec b a) as [H|H]; [exact H|].
    apply Qle_bool_iff in H; congruence.
Qed.

Lemma fgtb_fin_false a b : fgtb (Fin a) (Fin b) = false <-> a <= b.
Proof.
  simpl. destruct (Qle_bool a b) eqn:E; simpl.
  - apply Qle_bool_iff in E. tauto.
  - split; [discriminate|]. intros H. apply Qle_bool_iff in H; congruence.
Qed.

(* ================================================================== *)
(** ** Positions in a series *)

Lemma iloc_neg_in {A : Type} (s : list A) (p : Z) (x : A) :
  (1 <= p <= Z.of_nat (length s))%Z ->
  nth_error s (length s - Z.to_nat p) = Some x ->
  iloc s (- p) = Ok x.
Proof.
  intros Hp Hn. unfold iloc.
  assert (E1 : (- p <? 0)%Z = true) by (apply Z.ltb_lt; lia).
  rewrite E1.
  assert (E2 : (Z.of_nat (length s) + - p <? 0)%Z = false)
    by (apply Z.ltb_ge; lia).
  assert (E3 : (Z.of_nat (length s) <=? Z.of_nat (length s) + - p)%Z = false)
    by (apply Z.leb_gt; lia).
  rewrite E2, E3. simpl.
  replace (Z.to_nat (Z.of_nat (length s) + - p))
    with (length s - Z.to_nat p)%nat by lia.
  rewrite Hn. reflexivity.
Qed.

Lemma iloc_neg_out {A : Type} (s : list A) (p : Z) :
  (Z.of_nat (length s) < p)%Z -> iloc s (- p) = Raise IndexError.
Proof.
  intros Hp. unfold iloc.
  assert (E1 : (- p <? 0)%Z = true) by (apply Z.ltb_lt; lia).
  rewrite E1.
  assert (E2 : (Z.of_nat (length s) + - p <? 0)%Z = true)
    by (apply Z.ltb_lt; lia).
  rewrite E2. reflexivity.
Qed.

Lemma iloc_last_nth {A : Type} (s : list A) (x : A) :
  nth_error s (length s - 1) = Some x -> iloc s (-1) = Ok x.
Proof.
  intros Hn. apply (iloc_neg_in s 1 x); [|exact Hn].
  destruct s; [discriminate | simpl length; lia].
Qed.

Lemma iloc_last_nil {A : Type} : iloc (@nil A) (-1) = Raise IndexError.
Proof. reflexivity. Qed.

Lemma nth_error_column f df i :
  nth_error (column f df) i = option_map (fun b => Fin (f b)) (nth_error df i).
Proof. unfold column. apply nth_error_map. Qed.

Lemma length_column f df : length (column f df) = length df.
Proof. apply length_map. Qed.

Lemma length_zip_with f s t :
  length (zip_with f s t) = Nat.min (length s) (length t).
Proof.
  revert t; induction s as [|x s IH]; intros [|y t]; simpl; auto.
Qed.

Lemma nth_error_zip_with f s t i x y :
  nth_error s i = Some x -> nth_error t i = Some y ->
  nth_error (zip_with f s t) i = Some (f x y).
Proof.
  revert t i; induction s as [|a s IH]; intros [|b t] [|i]; simpl;
    try discriminate.
  - intros [= ->] [= ->]; reflexivity.
  - apply IH.
Qed.

Lemma length_rolling w agg s : length (rolling w agg s) = length s.
Proof. unfold rolling. rewrite length_map, length_seq. reflexivity. Qed.

Lemma nth_error_rolling w agg s i :
  (i < length s)%nat ->
  nth_error (rolling w agg s) i =
  Some (if (i + 1 <? w)%nat then NaN else agg (window w i s)).
Proof.
  intros Hi. unfold rolling.
  rewrite nth_error_map, nth_error_seq.
  destruct (Nat.ltb_spec i (length s)); [reflexivity | lia].
Qed.

Lemma window_last w s :
  (w <= length s)%nat -> window w (length s - 1) s = lastn w s.
Proof.
  intros Hw. unfold window, lastn.
  destruct (Nat.eq_dec (length s) 0) as [E|E].
  - assert (w = 0%nat) by lia. subst w.
    destruct s; [reflexivity | discriminate].
  - replace (length s - 1 + 1 - w)%nat with (length s - w)%nat by lia.
    apply firstn_all2. rewrite length_skipn. lia.
Qed.

Lemma lastn_column {f} w df : lastn w (column f df) = column f (lastn w df).
Proof.
  unfold lastn, column. rewrite length_map. apply skipn_map.
Qed.

Lemma length_lastn {A : Type} w (l : list A) :
  (w <= length l)%nat -> length (lastn w l) = w.
Proof. intros H. unfold lastn. rewrite length_skipn. lia. Qed.

Lemma rolling_last w agg s :
  s <> [] ->
  iloc (rolling w agg s) (-1) =
  Ok (if (length s <? w)%nat then NaN else agg (lastn w s)).
Proof.
  intros Hs. apply iloc_last_nth.
  rewrite length_rolling, nth_error_rolling
    by (destruct s; [congruence | simpl; lia]).
  assert (Hl : (length s <> 0)%nat) by (destruct s; [congruence | discriminate]).
  replace (length s - 1 + 1)%nat with (length s) by lia.
  destruct (Nat.ltb_spec (length s) w); [reflexivity|].
  rewrite window_last by assumption. reflexivity.
Qed.

Lemma rolling_last_nil w agg : iloc (rolling w agg []) (-1) = Raise IndexError.
Proof. reflexivity. Qed.

Lemma column_last f df b : iloc (column f (df ++ [b])) (-1) = Ok (Fin (f b)).
Proof.
  apply iloc_last_nth. rewrite nth_error_column, length_column.
  rewrite length_app; simpl.
  replace (length df + 1 - 1)%nat with (length df) by lia.
  rewrite nth_error_app2, Nat.sub_diag by lia. reflexivity.
Qed.

(* ================================================================== *)
(** ** Rolling extremes of a finite column *)

Lemma fmax_fin a b :
  exists m, fmax (Fin a) (Fin b) = Fin m /\ (m = a \/ m = b) /\ a <= m /\ b <= m.
Proof.
  unfold fmax. destruct (fgtb (Fin b) (Fin a)) eqn:E.
  - apply fgtb_fin in E. exists b. repeat split; auto; lra.
  - apply fgtb_fin_false in E. exists a. repeat split; auto; lra.
Qed.

Lemma fmin_fin a b :
  exists m, fmin (Fin a) (Fin b) = Fin m /\ (m = a \/ m = b) /\ m <= a /\ m <= b.
Proof.
  unfold fmin, fltb. destruct (fgtb (Fin a) (Fin b)) eqn:E.
  - apply fgtb_fin in E. exists b. repeat split; auto; lra.
  - apply fgtb_fin_false in E. exists a. repeat split; auto; lra.
Qed.

Lemma fold_fmax_column f l : forall a,
  exists m, fold_left fmax (column f l) (Fin a) = Fin m /\
            (m = a \/ exists b, In b l /\ m = f b) /\
            a <= m /\ Forall (fun b => f b <= m) l.
Proof.
  induction l as [|b r IH]; intros a.
  - exists a. simpl. repeat split; auto; lra.
  - destruct (fmax_fin a (f b)) as (m0 & E0 & Hm0 & Ha & Hb).
    change (fold_left fmax (column f (b :: r)) (Fin a))
      with (fold_left fmax (column f r) (fmax (Fin a) (Fin (f b)))).
    rewrite E0. destruct (IH m0) as (m & E & Hin & Hle & Hall).
    exists m. split; [exact E|]. split; [|split].
    + destruct Hin as [->|(b' & Hb' & ->)].
      * destruct Hm0 as [->| ->]; [left; reflexivity|].
        right; exists b; split; [left|]; reflexivity.
      * right; exists b'; split; [right|]; auto.
    + lra.
    + constructor; [lra | exact Hall].
Qed.

Lemma fold_fmin_column f l : forall a,
  exists m, fold_left fmin (column f l) (Fin a) = Fin m /\
            (m = a \/ exists b, In b l /\ m = f b) /\
            m <= a /\ Forall (fun b => m <= f b) l.
Proof.
  induction l as [|b r IH]; intros a.
  - exists a. simpl. repeat split; auto; lra.
  - destruct (fmin_fin a (f b)) as (m0 & E0 & Hm0 & Ha & Hb).
    change (fold_left fmin (column f (b :: r)) (Fin a))
      with (fold_left fmin (column f r) (fmin (Fin a) (Fin (f b)))).
    rewrite E0. destruct (IH m0) as (m & E & Hin & Hle & Hall).
    exists m. split; [exact E|]. split; [|split].
    + destruct Hin as [->|(b' & Hb' & ->)].
      * destruct Hm0 as [->| ->]; [left; reflexivity|].
        right; exists b; split; [left|]; reflexivity.
      * right; exists b'; split; [right|]; auto.
    + lra.
    + constructor; [lra | exact Hall].
Qed.

Lemma win_max_column f l :
  l <> [] ->
  exists m, win_max (column f l) = Fin m /\
            (exists b, In b l /\ m = f b) /\ Forall (fun b => f b <= m) l.
Proof.
  destruct l as [|b r]; [congruence|]. intros _.
  change (win_max (column f (b :: r)))
    with (fold_left fmax (column f r) (Fin (f b))).
  destruct (fold_fmax_column f r (f b)) as (m & E & Hin & Hle & Hall).
  exists m. split; [exact E|]. split.
  - destruct Hin as [->|(b' & Hb' & ->)].
    + exists b; split; [left|]; reflexivity.
    + exists b'; split; [right|]; auto.
  - constructor; assumption.
Qed.

Lemma win_min_column f l :
  l <> [] ->
  exists m, win_min (column f l) = Fin m /\
            (exists b, In b l /\ m = f b) /\ Forall (fun b => m <= f b) l.
Proof.
  destruct l as [|b r]; [congruence|]. intros _.
  change (win_min (column f (b :: r)))
    with (fold_left fmin (column f r) (Fin (f b))).
  destruct (fold_fmin_column f r (f b)) as (m & E & Hin & Hle & Hall).
  exists m. split; [exact E|]. split.
  - destruct Hin as [->|(b' & Hb' & ->)].
    + exists b; split; [left|]; reflexivity.
    + exists b'; split; [right|]; auto.
  - constructor; assumption.
Qed.

Lemma lastn_nonempty {A : Type} w (l : list A) :
  (1 <= w <= length l)%nat -> lastn w l <> [].
Proof.
  intros H E. apply (f_equal (@length A)) in E.
  rewrite length_lastn in E by lia. simpl in E. lia.
Qed.

Lemma lastn_last_in {A : Type} w (l : list A) (b : A) :
  (1 <= w)%nat -> In b (lastn w (l ++ [b])).
Proof.
  intros Hw. unfold lastn. rewrite length_app; simpl.
  rewrite skipn_app.
  apply in_or_app. right.
  replace (length l + 1 - w - length l)%nat with 0%nat by lia.
  left; reflexivity.
Qed.

(** The trailing high and low of the last [w] bars, as the rolling
    aggregates deliver them at the last index. *)
Lemma rolling_max_last f w df :
  (1 <= w <= length df)%nat ->
  exists m, iloc (rolling w win_max (column f df)) (-1) = Ok (Fin m) /\
            (exists b, In b (lastn w df) /\ m = f b) /\
            Forall (fun b => f b <= m) (lastn w df).
Proof.
  intros Hw.
  assert (Hne : column f df <> []) by (destruct df; simpl in *; [lia|discriminate]).
  rewrite rolling_last by exact Hne. rewrite length_column.
  destruct (Nat.ltb_spec (length df) w); [lia|].
  rewrite lastn_column.
  destruct (win_max_column f (lastn w df)) as (m & E & H1 & H2).
  { apply lastn_nonempty; lia. }
  exists m. rewrite E. auto.
Qed.

Lemma rolling_min_last f w df :
  (1 <= w <= length df)%nat ->
  exists m, iloc (rolling w win_min (column f df)) (-1) = Ok (Fin m) /\
            (exists b, In b (lastn w df) /\ m = f b) /\
            Forall (fun b => m <= f b) (lastn w df).
Proof.
  intros Hw.
  assert (Hne : column f df <> []) by (destruct df; simpl in *; [lia|discriminate]).
  rewrite rolling_last by exact Hne. rewrite length_column.
  destruct (Nat.ltb_spec (length df) w); [lia|].
  rewrite lastn_column.
  destruct (win_min_column f (lastn w df)) as (m & E & H1 & H2).
  { apply lastn_nonempty; lia. }
  exists m. rewrite E. auto.
Qed.

Lemma rolling_short_last w agg f df :
  df <> [] -> (length df < w)%nat ->
  iloc (rolling w agg (column f df)) (-1) = Ok NaN.
Proof.
  intros Hne Hw.
  rewrite rolling_last by (destruct df; [congruence | discriminate]).
  rewrite length_column.
  destruct (Nat.ltb_spec (length df) w); [reflexivity | lia].
Qed.

(* ================================================================== *)
(** ** Price channel breakout *)

Lemma exceeds_all_iff (f : Bar -> Q) (l : list Bar) (m c : Q) :
  (exists b, In b l /\ m = f b) -> Forall (fun b => f b <= m) l ->
  (m < c <-> Forall (fun b => f b < c) l).
Proof.
  intros (b & Hb & ->) Hall. split.
  - intros Hc. eapply Forall_impl; [|exact Hall]. simpl. intros; lra.
  - intros Hc. rewrite Forall_forall in Hc. apply Hc, Hb.
Qed.

Lemma below_all_iff (f : Bar -> Q) (l : list Bar) (m c : Q) :
  (exists b, In b l /\ m = f b) -> Forall (fun b => m <= f b) l ->
  (c < m <-> Forall (fun b => c < f b) l).
Proof.
  intros (b & Hb & ->) Hall. split.
  - intros Hc. eapply Forall_impl; [|exact Hall]. simpl. intros; lra.
  - intros Hc. rewrite Forall_forall in Hc. apply Hc, Hb.
Qed.

(** C2 (as amended).  On a non-empty series the channel breakout is one of
    1, 0, -1.  With at least 20 bars it is 1 when the last close exceeds
    every high of the last 20 bars, otherwise -1 when the last close is
    below every low of the last 20 bars, otherwise 0.  With fewer than 20
    bars both rolling extremes are NaN, both comparisons are false and
    the result is the ordinary number 0. *)
Theorem channel_breakout_cases (df : DataFrame) (b : Bar) :
  exists r : Z,
    calculate_channel_breakout (df ++ [b]) = Ok r /\
    (r = 1 \/ r = 0 \/ r = -1)%Z /\
    ((length (df ++ [b]) < 20)%nat -> r = 0%Z) /\
    ((20 <= length (df ++ [b]))%nat ->
     (r = 1%Z <->
      Forall (fun x => high x < close b) (lastn 20 (df ++ [b]))) /\
     (r = (-1)%Z <->
      ~ Forall (fun x => high x < close b) (lastn 20 (df ++ [b])) /\
      Forall (fun x => close b < low x) (lastn 20 (df ++ [b])))).
Proof.
  unfold calculate_channel_breakout.
  assert (Hne : df ++ [b] <> []) by (destruct df; discriminate).
  destruct (Nat.lt_ge_cases (length (df ++ [b])) 20) as [Hs|Hl].
  - rewrite !rolling_short_last by assumption.
    rewrite column_last. simpl.
    exists 0%Z. repeat split; auto; lia.
  - destruct (rolling_max_last high 20 (df ++ [b])) as (mh & Eh & Hh1 & Hh2);
      [lia|].
    destruct (rolling_min_last low 20 (df ++ [b])) as (ml & El & Hl1 & Hl2);
      [lia|].
    rewrite Eh, El, column_last. cbn [bind].
    pose proof (exceeds_all_iff high _ mh (close b) Hh1 Hh2) as Hup.
    pose proof (below_all_iff low _ ml (close b) Hl1 Hl2) as Hdn.
    unfold fltb.
    destruct (fgtb (Fin (close b)) (Fin mh)) eqn:E1.
    + exists 1%Z. apply fgtb_fin in E1.
      split; [reflexivity|]. split; [auto|]. split; [lia|]. intros _.
      split; split.
      * intros _. apply Hup, E1.
      * reflexivity.
      * discriminate.
      * intros [Hn _]. exfalso. apply Hn, Hup, E1.
    + apply fgtb_fin_false in E1.
      assert (Hnot : ~ Forall (fun x => high x < close b) (lastn 20 (df ++ [b])))
        by (intros H; apply Hup in H; lra).
      destruct (fgtb (Fin ml) (Fin (close b))) eqn:E2.
      * exists (-1)%Z. apply fgtb_fin in E2.
        split; [reflexivity|]. split; [auto|]. split; [lia|]. intros _.
        split; split.
        -- discriminate.
        -- intros H; contradiction.
        -- intros _. split; [exact Hnot | apply Hdn, E2].
        -- reflexivity.
      * exists 0%Z. apply fgtb_fin_false in E2.
        split; [reflexivity|]. split; [auto|]. split; [reflexivity|]. intros _.
        split; split.
        -- discriminate.
        -- intros H; contradiction.
        -- discriminate.
        -- intros [_ H]. apply Hdn in H. lra.
Qed.

(** C2, witness: a rising 20-bar series breaks out of its channel only if
    the bars are ill-formed; here the last close tops every high. *)
Lemma channel_breakout_cases_witness :
  exists r : Z,
    calculate_channel_breakout
      (repeat (mkBar 1 1 1 1 1 0) 19 ++ [mkBar 2 1 1 2 1 0]) = Ok r /\
    r = 1%Z.
Proof.
  destruct (channel_breakout_cases (repeat (mkBar 1 1 1 1 1 0) 19)
                                   (mkBar 2 1 1 2 1 0))
    as (r & E & _ & _ & H).
  exists r. split; [exact E|].
  apply H; [simpl; lia|].
  vm_compute. repeat constructor.
Defined.

(** C2, counterexample: a one-bar series has fewer than 20 bars, yet the
    result is the ordinary signal 0 and no sentinel. *)
Lemma channel_breakout_short_is_zero :
  (length [bar_of_close 1] < 20)%nat /\
  calculate_channel_breakout [bar_of_close 1] = Ok 0%Z.
Proof. split; [simpl; lia | reflexivity]. Qed.

(* ================================================================== *)
(** ** Rate of change *)

(** C7 (as amended).  For a period [p >= 1], [calculate_roc] returns
    [(close_last - close_(N-p)) / close_(N-p) * 100] on every series of
    length [N >= p] (a finite number when [close_(N-p)] is not zero), and
    raises IndexError exactly when [N < p]. *)
Theorem calculate_roc_defined_iff (df : DataFrame) (p : Z) :
  (1 <= p)%Z ->
  ((p <= Z.of_nat (length df))%Z ->
   exists a x : Bar,
     nth_error df (length df - 1) = Some a /\
     nth_error df (length df - Z.to_nat p) = Some x /\
     calculate_roc df p =
     Ok (fmul (fdiv (fsub (Fin (close a)) (Fin (close x))) (Fin (close x)))
              (Fin 100)) /\
     (~ close x == 0 ->
      exists q, calculate_roc df p = Ok (Fin q) /\
                q == (close a - close x) / close x * 100)) /\
  ((Z.of_nat (length df) < p)%Z -> calculate_roc df p = Raise IndexError).
Proof.
  intros Hp. split.
  - intros Hle.
    destruct (nth_error df (length df - 1)) as [a|] eqn:Ea.
    2:{ apply nth_error_None in Ea. lia. }
    destruct (nth_error df (length df - Z.to_nat p)) as [x|] eqn:Ex.
    2:{ apply nth_error_None in Ex. lia. }
    exists a, x. split; [reflexivity|]. split; [reflexivity|].
    assert (E : calculate_roc df p =
                Ok (fmul (fdiv (fsub (Fin (close a)) (Fin (close x)))
                               (Fin (close x))) (Fin 100))).
    { unfold calculate_roc.
      rewrite (iloc_last_nth (column close df) (Fin (close a)))
        by (rewrite length_column, nth_error_column, Ea; reflexivity).
      cbn [bind].
      rewrite (iloc_neg_in (column close df) p (Fin (close x))).
      + reflexivity.
      + rewrite length_column; lia.
      + rewrite length_column, nth_error_column, Ex; reflexivity. }
    split; [exact E|]. intros Hx. rewrite E.
    pose proof (fmul_fin _ _ _ _
                  (fdiv_fin _ _ _ _
                     (fsub_fin _ _ _ _ (is_fin_refl (close a)) (is_fin_refl (close x)))
                     (is_fin_refl (close x)) Hx)
                  (is_fin_refl 100)) as H.
    apply is_fin_inv in H. destruct H as (q & -> & Hq).
    exists q. split; [reflexivity | exact Hq].
  - intros Hlt. unfold calculate_roc.
    destruct (iloc (column close df) (-1)); [|destruct e; reflexivity].
    cbn [bind].
    rewrite iloc_neg_out by (rewrite length_column; exact Hlt).
    reflexivity.
Qed.

(** C7, witness: the default period on the 14-bar ramp 10..23. *)
Lemma calculate_roc_defined_iff_witness :
  exists q, calculate_roc ramp_10_23 14 = Ok (Fin q) /\ q == 130.
Proof.
  destruct (calculate_roc_defined_iff ramp_10_23 14) as [H _]; [lia|].
  destruct H as (a & x & Ea & Ex & _ & H); [simpl; lia|].
  vm_compute in Ea, Ex. injection Ea as <-. injection Ex as <-.
  destruct H as (q & E & Hq); [vm_compute; discriminate|].
  exists q. split; [exact E|]. rewrite Hq. vm_compute. reflexivity.
Defined.

(** C7, counterexample: with [N = p = 14] the length precondition [N > p]
    is violated, yet no error is raised. *)
Lemma calculate_roc_at_length_equal_period :
  (Z.of_nat (length ramp_10_23) <= 14)%Z /\
  calculate_roc ramp_10_23 14 <> Raise IndexError.
Proof. split; [simpl; lia | vm_compute; discriminate]. Qed.

(* ================================================================== *)
(** ** Relative strength index on the ramp *)

Lemma rsi_series_closes (df : DataFrame) (period : nat) :
  rsi_series df period =
  rsi_series (map bar_of_close (map close df)) period.
Proof.
  unfold rsi_series, column. rewrite !map_map. reflexivity.
Qed.

(** C5.  On the 14-bar series with closes 10, 11, ..., 23 the RSI of
    period 14 is 100 within 1e-6 (here: exactly 100). *)
Theorem calculate_rsi_ramp (df : DataFrame) :
  map close df =
  map inject_Z [10; 11; 12; 13; 14; 15; 16; 17; 18; 19; 20; 21; 22; 23]%Z ->
  exists q, calculate_rsi df 14 = Ok (Fin q) /\
            Qabs (q - 100) <= 1 # 1000000.
Proof.
  intros H. unfold calculate_rsi. rewrite rsi_series_closes, H.
  exists 100. split; vm_compute; [reflexivity | discriminate].
Qed.

Lemma calculate_rsi_ramp_witness :
  exists q, calculate_rsi ramp_10_23 14 = Ok (Fin q) /\
            Qabs (q - 100) <= 1 # 1000000.
Proof. apply (calculate_rsi_ramp ramp_10_23). reflexivity. Defined.

(* ================================================================== *)
(** ** On-balance volume *)

Lemma iloc_last_cons {A : Type} (x : A) (l : list A) :
  l <> [] -> iloc (x :: l) (-1) = iloc l (-1).
Proof.
  intros Hl.
  destruct (nth_error l (length l - 1)) as [y|] eqn:E.
  - rewrite (iloc_last_nth l y E). apply iloc_last_nth.
    destruct l; [congruence|]. simpl in *.
    rewrite Nat.sub_0_r in *. exact E.
  - apply nth_error_None in E. destruct l; [congruence | simpl in E; lia].
Qed.

Lemma iloc_last_single {A : Type} (x : A) : iloc [x] (-1) = Ok x.
Proof. reflexivity. Qed.

Lemma cumsum_from_nonempty acc s : s <> [] -> cumsum_from acc s <> [].
Proof.
  destruct s as [|x r]; [congruence|]. intros _. simpl.
  destruct (isna x); discriminate.
Qed.

Lemma obv_terms_cons prev b r :
  obv_terms prev (b :: r) =
  fmul (if fgtb (fsub (Fin (close b)) prev) (Fin 0) then Fin 1 else Fin (-1))
       (Fin (volume b))
  :: obv_terms (Fin (close b)) r.
Proof. reflexivity. Qed.

Lemma obv_term_fin p b :
  fmul (if fgtb (fsub (Fin (close b)) (Fin p)) (Fin 0) then Fin 1 else Fin (-1))
       (Fin (volume b))
  =~ (if Qlt_le_dec p (close b) then volume b else - volume b).
Proof.
  change (fsub (Fin (close b)) (Fin p)) with (Fin (close b + - p)).
  destruct (fgtb (Fin (close b + - p)) (Fin 0)) eqn:E.
  - apply fgtb_fin in E. destruct (Qlt_le_dec p (close b)); [|lra].
    simpl. ring.
  - apply fgtb_fin_false in E. destruct (Qlt_le_dec p (close b)); [lra|].
    simpl. ring.
Qed.

Lemma obv_cumsum_last bars : forall p acc,
  bars <> [] ->
  exists q, iloc (cumsum_from (Fin acc) (obv_terms (Fin p) bars)) (-1) = Ok (Fin q) /\
            q == acc + signed_volume_from p bars.
Proof.
  induction bars as [|b r IH]; intros p acc Hne; [congruence|].
  rewrite obv_terms_cons.
  destruct (is_fin_inv _ _ (obv_term_fin p b)) as (t & Et & Ht).
  rewrite Et. cbn [cumsum_from isna fadd].
  destruct r as [|b' r'].
  - exists (acc + t). split; [reflexivity|].
    simpl. rewrite Ht. ring.
  - destruct (IH (close b) (acc + t)) as (q & Eq & Hq); [discriminate|].
    exists q. split.
    + rewrite iloc_last_cons; [exact Eq|].
      apply cumsum_from_nonempty. rewrite obv_terms_cons. discriminate.
    + rewrite Hq, Ht. cbn [signed_volume_from]. ring.
Qed.

(** C3 (as amended).  [calculate_obv] is the cumulative sum over every
    index, index 0 included: the first difference is NaN, [NaN > 0] is
    false, so bar 0 enters with sign -1; from index 1 on the sign is +1 on
    a rise of the close and -1 otherwise (a zero change counts as -1). *)
Theorem calculate_obv_counts_first_bar (b0 : Bar) (rest : list Bar) :
  exists q, calculate_obv (b0 :: rest) = Ok (Fin q) /\
            q == - volume b0 + obv_from_index_1 (b0 :: rest).
Proof.
  unfold calculate_obv, diff, cumsum.
  change (zip_with fmul
            (np_where (fun d => fgtb d (Fin 0)) (Fin 1) (fneg (Fin 1))
                      (diff_from NaN (column close (b0 :: rest))))
            (column volume (b0 :: rest)))
    with (Fin (-1 * volume b0) :: obv_terms (Fin (close b0)) rest).
  cbn [cumsum_from isna fadd obv_from_index_1].
  destruct rest as [|b r].
  - exists (0 + -1 * volume b0). split; [reflexivity | simpl; ring].
  - destruct (obv_cumsum_last (b :: r) (close b0) (0 + -1 * volume b0))
      as (q & Eq & Hq); [discriminate|].
    exists q. split.
    + rewrite iloc_last_cons; [exact Eq|].
      apply cumsum_from_nonempty. rewrite obv_terms_cons. discriminate.
    + rewrite Hq. ring.
Qed.

(** C3, counterexample: closes 1, 2 with volumes 5, 3.  The sum from
    index 1 is 3; the code returns -5 + 3 = -2. *)
Lemma calculate_obv_differs_from_index_1_sum :
  let df := [mkBar 1 1 1 1 5 0; mkBar 2 2 2 2 3 0] in
  obv_from_index_1 df == 3 /\
  calculate_obv df = Ok (Fin (-2)).
Proof. split; reflexivity. Qed.

(* ================================================================== *)
(** ** Sums over finite columns *)

Lemma dropna_column f df : dropna (column f df) = column f df.
Proof.
  unfold dropna, column. induction df as [|b r IH]; simpl; [reflexivity|].
  rewrite IH. reflexivity.
Qed.

Lemma zip_with_columns op (opq : Q -> Q -> Q) f g df :
  (forall a b, op (Fin a) (Fin b) = Fin (opq a b)) ->
  zip_with op (column f df) (column g df) =
  column (fun b => opq (f b) (g b)) df.
Proof.
  intros Hop. unfold column. induction df as [|b r IH]; simpl; [reflexivity|].
  rewrite IH, Hop. reflexivity.
Qed.

Lemma fold_fadd_column f df : forall a,
  exists q, fold_left fadd (column f df) (Fin a) = Fin q /\
            q == a + total_of f df.
Proof.
  induction df as [|b r IH]; intros a.
  - exists a. split; [reflexivity | simpl; ring].
  - destruct (IH (a + f b)) as (q & E & Hq).
    exists q. split; [exact E|]. rewrite Hq. simpl. ring.
Qed.

Lemma fsum_column f df : fsum (column f df) =~ total_of f df.
Proof.
  unfold fsum. destruct (fold_fadd_column f df 0) as (q & E & Hq).
  rewrite E. simpl. rewrite Hq. ring.
Qed.

Lemma Series_sum_column f df : Series_sum (column f df) =~ total_of f df.
Proof. unfold Series_sum. rewrite dropna_column. apply fsum_column. Qed.

(* ================================================================== *)
(** ** Volume composition *)

(** C4 (as amended).  When the total quote volume [sum (volume * close)]
    is zero, [calculate_volume_composition] takes its explicit guard and
    returns the ordinary number 0 for both fractions; otherwise it returns
    the finite fractions [buy / total] and [(total - buy) / total]. *)
Theorem volume_composition_zero_guard (df : DataFrame) :
  let total := total_of (fun b => volume b * close b) df in
  let buy := total_of taker_buy_quote df in
  (total == 0 ->
   calculate_volume_composition df = mkComposition (Fin 0) (Fin 0)) /\
  (~ total == 0 ->
   buy_volume (calculate_volume_composition df) =~ buy / total /\
   sell_volume (calculate_volume_composition df) =~ (total - buy) / total).
Proof.
  intros total buy. unfold calculate_volume_composition.
  rewrite (zip_with_columns fmul Qmult) by reflexivity.
  pose proof (Series_sum_column (fun b => volume b * close b) df) as Ht.
  pose proof (Series_sum_column taker_buy_quote df) as Hb.
  fold total in Ht. fold buy in Hb. split.
  - intros H0. rewrite fneb_zero by (eapply is_fin_eq; eauto). reflexivity.
  - intros Hn. rewrite (fneb_nonzero _ total) by assumption. simpl. split.
    + apply fdiv_fin; assumption.
    + apply fdiv_fin; [apply fsub_fin| |]; assumption.
Qed.

(** C4, witness: one bar without volume, one bar traded half by takers. *)
Lemma volume_composition_zero_guard_witness :
  calculate_volume_composition [mkBar 1 1 1 1 0 0] =
  mkComposition (Fin 0) (Fin 0) /\
  buy_volume (calculate_volume_composition [mkBar 2 2 2 2 3 3]) =~ 3 / 6.
Proof.
  split.
  - apply (volume_composition_zero_guard [mkBar 1 1 1 1 0 0]). reflexivity.
  - eapply is_fin_eq.
    + apply (volume_composition_zero_guard [mkBar 2 2 2 2 3 3]).
      vm_compute. discriminate.
    + vm_compute. reflexivity.
Defined.

(** C4, counterexample: the total quote volume of this series is zero and
    the result is the ordinary number 0, not the infinity sentinel. *)
Lemma volume_composition_zero_is_not_inf :
  let df := [mkBar 1 1 1 1 0 0] in
  total_of (fun b => volume b * close b) df == 0 /\
  buy_volume (calculate_volume_composition df) = Fin 0 /\
  sell_volume (calculate_volume_composition df) = Fin 0 /\
  buy_volume (calculate_volume_composition df) <> PInf.
Proof. repeat split; vm_compute; discriminate. Qed.

(* ================================================================== *)
(** ** Price-based discounted cash flow *)

Section Dcf.

Variable c d g : Q.
Hypothesis discount_ok : ~ 1 + d == 0.

Let future (t : nat) : fval := fmul (Fin c) (Fin ((1 + g) ^ Z.of_nat t)).
Let discount (tp : nat * fval) : fval :=
  fdiv (snd tp) (Fin ((1 + d) ^ Z.of_nat (fst tp))).
Let term (t : nat) (acc : Q) : Q := ((1 + g) / (1 + d)) ^ Z.of_nat t + acc.

Lemma dcf_term_fin t :
  discount (t, future t) =~ c * ((1 + g) / (1 + d)) ^ Z.of_nat t.
Proof.
  unfold discount, future. cbn [fst snd fmul].
  eapply is_fin_eq.
  - apply fdiv_fin; [apply is_fin_refl | apply is_fin_refl |].
    apply Qpower_not_0, discount_ok.
  - rewrite Qdiv_power. field. apply Qpower_not_0, discount_ok.
Qed.

Lemma dcf_fold n : forall start acc,
  fold_left fadd
    (map discount (combine (seq start n) (map future (seq start n))))
    (Fin acc)
  =~ acc + c * fold_right term 0 (seq start n).
Proof.
  induction n as [|n IH]; intros start acc.
  - simpl. ring.
  - cbn [seq map combine fold_left fold_right].
    destruct (is_fin_inv _ _ (dcf_term_fin start)) as (t & Et & Ht).
    rewrite Et. cbn [fadd].
    eapply is_fin_eq; [apply IH|].
    rewrite Ht. unfold term. ring.
Qed.

Lemma dcf_discounted years :
  fsum (map discount (combine (seq 1 (length (map future (seq 1 years))))
                              (map future (seq 1 years))))
  =~ c * dcf_constant d g years.
Proof.
  rewrite length_map, length_seq. unfold fsum.
  eapply is_fin_eq; [apply dcf_fold|].
  unfold dcf_constant, term. ring.
Qed.

End Dcf.

(** Without rounding, the valuation ratio with the default parameters and
    a non-zero last close is the constant [sum_(t=1..5) (1.10/1.15)^t]
    itself. *)
Lemma price_dcf_ratio_unrounded (df : DataFrame) (b : Bar) :
  ~ close b == 0 ->
  exists r : price_dcf,
    calculate_price_dcf (df ++ [b]) (15 # 100) (10 # 100) 5 = Ok r /\
    valuation_ratio r =~ dcf_constant (15 # 100) (10 # 100) 5 /\
    dcf_constant (15 # 100) (10 # 100) 5 ==
    (110 # 115) + (110 # 115) ^ 2 + (110 # 115) ^ 3
    + (110 # 115) ^ 4 + (110 # 115) ^ 5.
Proof.
  intros Hc. unfold calculate_price_dcf. rewrite column_last. cbn [bind].
  eexists. split; [reflexivity|]. cbn [valuation_ratio]. split.
  - rewrite (fneb_nonzero (Fin (close b)) (close b))
      by (assumption || apply is_fin_refl).
    eapply is_fin_eq.
    + apply fdiv_fin; [|apply is_fin_refl | exact Hc].
      apply (dcf_discounted (close b) (15 # 100) (10 # 100)).
      vm_compute. discriminate.
    + field. exact Hc.
  - vm_compute. reflexivity.
Qed.

(* ================================================================== *)
(** ** Exponential moving average *)

Lemma iloc_last_Forall {A : Type} (P : A -> Prop) (s : list A) :
  Forall P s -> s <> [] -> exists x, iloc s (-1) = Ok x /\ P x.
Proof.
  intros HP Hne.
  destruct (nth_error s (length s - 1)) as [x|] eqn:E.
  - exists x. split; [apply iloc_last_nth, E|].
    rewrite Forall_forall in HP. eapply HP, nth_error_In, E.
  - apply nth_error_None in E. destruct s; [congruence | simpl in E; lia].
Qed.

Lemma length_ewm_from alpha s : forall prev,
  length (ewm_from alpha prev s) = length s.
Proof. induction s as [|x r IH]; intros prev; simpl; auto. Qed.

Lemma length_ewm_mean span s : length (ewm_mean span s) = length s.
Proof. destruct s; simpl; [|rewrite length_ewm_from]; reflexivity. Qed.

Lemma ewm_from_constant alpha c bars : forall prev,
  prev =~ c -> constant_close c bars ->
  Forall (fun y => y =~ c) (ewm_from alpha prev (column close bars)).
Proof.
  induction bars as [|b r IH]; intros prev Hp Hc; [constructor|].
  inversion Hc as [|? ? Hb Hr]; subst.
  assert (Hy : fadd (fmul (Fin (1 - alpha)) prev) (fmul (Fin alpha) (Fin (close b)))
               =~ c).
  { eapply is_fin_eq.
    - apply fadd_fin; apply fmul_fin;
        [apply is_fin_refl | exact Hp | apply is_fin_refl | exact Hb].
    - ring. }
  change (column close (b :: r)) with (Fin (close b) :: column close r).
  cbn [ewm_from]. constructor; [exact Hy|]. apply IH; assumption.
Qed.

Lemma ewm_mean_constant span c df :
  constant_close c df ->
  Forall (fun y => y =~ c) (ewm_mean span (column close df)).
Proof.
  intros Hc. destruct df as [|b r]; [constructor|].
  inversion Hc as [|? ? Hb Hr]; subst.
  change (column close (b :: r)) with (Fin (close b) :: column close r).
  cbn [ewm_mean]. constructor; [exact Hb|].
  apply ewm_from_constant; assumption.
Qed.

(** C9.  On a series whose closes all equal [c], the EMA of span 20 has a
    value at every index, each value is [c], and so [calculate_ema_20]
    returns [c] on every non-empty such series. *)
Theorem calculate_ema_20_constant (df : DataFrame) (c : Q) :
  constant_close c df ->
  length (ewm_mean 20 (column close df)) = length df /\
  Forall (fun y => y =~ c) (ewm_mean 20 (column close df)) /\
  (df <> [] -> exists q, calculate_ema_20 df = Ok (Fin q) /\ q == c).
Proof.
  intros Hc. split; [|split].
  - rewrite length_ewm_mean. apply length_column.
  - apply ewm_mean_constant, Hc.
  - intros Hne.
    destruct (iloc_last_Forall (fun y => y =~ c)
                (ewm_mean 20 (column close df))) as (x & E & Hx).
    + apply ewm_mean_constant, Hc.
    + intros H. apply (f_equal (@length fval)) in H.
      rewrite length_ewm_mean, length_column in H.
      destruct df; [congruence | discriminate].
    + apply is_fin_inv in Hx. destruct Hx as (q & -> & Hq).
      exists q. split; assumption.
Qed.

(** C9, witness: thirty bars closing at 7/2. *)
Lemma calculate_ema_20_constant_witness :
  exists q, calculate_ema_20 (repeat (bar_of_close (7 # 2)) 30) = Ok (Fin q) /\
            q == 7 # 2.
Proof.
  apply (calculate_ema_20_constant (repeat (bar_of_close (7 # 2)) 30) (7 # 2)).
  - unfold constant_close. apply Forall_forall. intros b Hb.
    apply repeat_spec in Hb. subst b. reflexivity.
  - discriminate.
Defined.

(* ================================================================== *)
(** ** Aggregates of a constant column *)

Lemma Forall_skipn {A : Type} (P : A -> Prop) n : forall l,
  Forall P l -> Forall P (skipn n l).
Proof.
  induction n as [|n IH]; intros l H; [exact H|].
  destruct l; [constructor|]. simpl. apply IH. inversion H; assumption.
Qed.

Lemma Forall_lastn {A : Type} (P : A -> Prop) w l :
  Forall P l -> Forall P (lastn w l).
Proof. apply Forall_skipn. Qed.

Lemma inject_nat_succ n :
  inject_Z (Z.of_nat (S n)) == inject_Z (Z.of_nat n) + 1.
Proof. rewrite Nat2Z.inj_succ. unfold Z.succ. rewrite inject_Z_plus. reflexivity. Qed.

Lemma inject_nat_pos n : (1 <= n)%nat -> 0 < inject_Z (Z.of_nat n).
Proof.
  intros H. change 0 with (inject_Z 0). rewrite <- Zlt_Qlt. lia.
Qed.

Lemma total_of_constant f c l :
  Forall (fun b => f b == c) l ->
  total_of f l == inject_Z (Z.of_nat (length l)) * c.
Proof.
  induction 1 as [|b r Hb Hr IH].
  - simpl. ring.
  - cbn [total_of fold_right length]. fold (total_of f r).
    rewrite inject_nat_succ, IH, Hb. ring.
Qed.

Lemma total_of_scaled f g c l :
  Forall (fun b => f b == c) l ->
  total_of (fun b => f b * g b) l == c * total_of g l.
Proof.
  induction 1 as [|b r Hb Hr IH].
  - simpl. ring.
  - cbn [total_of fold_right]. fold (total_of (fun b => f b * g b) r).
    fold (total_of g r). rewrite IH, Hb. ring.
Qed.

Lemma win_mean_constant f c l :
  l <> [] -> Forall (fun b => f b == c) l -> win_mean (column f l) =~ c.
Proof.
  intros Hne Hc. unfold win_mean, of_nat. rewrite length_column.
  assert (Hn : 0 < inject_Z (Z.of_nat (length l))).
  { apply inject_nat_pos. destruct l; [congruence | simpl; lia]. }
  eapply is_fin_eq.
  - apply fdiv_fin; [apply fsum_column | apply is_fin_refl | lra].
  - rewrite (total_of_constant f c l Hc). field. lra.
Qed.

Lemma rolling_mean_constant_last f c w df :
  (1 <= w <= length df)%nat -> Forall (fun b => f b == c) df ->
  exists q, iloc (rolling w win_mean (column f df)) (-1) = Ok (Fin q) /\ q == c.
Proof.
  intros Hw Hc.
  rewrite rolling_last by (destruct df; simpl in *; [lia | discriminate]).
  rewrite length_column.
  destruct (Nat.ltb_spec (length df) w); [lia|].
  rewrite lastn_column.
  assert (H' : win_mean (column f (lastn w df)) =~ c).
  { apply win_mean_constant; [apply lastn_nonempty; lia | apply Forall_lastn, Hc]. }
  apply is_fin_inv in H'. destruct H' as (q & -> & Hq).
  exists q. split; [reflexivity | exact Hq].
Qed.

Lemma cumsum_from_column_last f df : forall acc,
  df <> [] ->
  exists q, nth_error (cumsum_from (Fin acc) (column f df)) (length df - 1)
            = Some (Fin q) /\
            q == acc + total_of f df.
Proof.
  induction df as [|b r IH]; intros acc Hne; [congruence|].
  change (column f (b :: r)) with (Fin (f b) :: column f r).
  cbn [cumsum_from isna fadd].
  destruct r as [|b' r'].
  - exists (acc + f b). split; [reflexivity | simpl; ring].
  - destruct (IH (acc + f b)) as (q & E & Hq); [discriminate|].
    exists q. split.
    + replace (length (b :: b' :: r') - 1)%nat
        with (S (length (b' :: r') - 1)) by (simpl; lia).
      exact E.
    + rewrite Hq. cbn [total_of fold_right]. ring.
Qed.

Lemma length_cumsum_from acc s : length (cumsum_from acc s) = length s.
Proof.
  revert acc; induction s as [|x r IH]; intros acc; simpl; [reflexivity|].
  destruct (isna x); simpl; rewrite IH; reflexivity.
Qed.

(* ================================================================== *)
(** ** SMA and VWAP of a constant series *)

Lemma typical_price_column df :
  map (fun x => fdiv x (Fin 3))
      (zip_with fadd (zip_with fadd (column high df) (column low df))
                (column close df))
  = column typical df.
Proof.
  rewrite (zip_with_columns fadd Qplus high low) by reflexivity.
  rewrite (zip_with_columns fadd Qplus) by reflexivity.
  unfold column. rewrite map_map. reflexivity.
Qed.

Lemma calculate_vwap_value (df : DataFrame) :
  df <> [] -> ~ total_of volume df == 0 ->
  exists q, calculate_vwap df = Ok (Fin q) /\
            q == total_of (fun b => typical b * volume b) df
                 / total_of volume df.
Proof.
  intros Hne Hv. unfold calculate_vwap.
  rewrite typical_price_column.
  rewrite (zip_with_columns fmul Qmult) by reflexivity.
  destruct (cumsum_from_column_last (fun b => typical b * volume b) df 0 Hne)
    as (n & En & Hn).
  destruct (cumsum_from_column_last volume df 0 Hne) as (v & Ev & Hv').
  assert (Hv0 : ~ v == 0) by (rewrite Hv'; lra).
  exists (n / v). split.
  - apply iloc_last_nth.
    rewrite length_zip_with. unfold cumsum.
    rewrite !length_cumsum_from, !length_column, Nat.min_id.
    rewrite (nth_error_zip_with _ _ _ _ _ _ En Ev).
    simpl. rewrite Qeq_bool_false by exact Hv0. reflexivity.
  - rewrite Hn, Hv'. field. lra.
Qed.

(** Without rounding, on a series whose closes all equal [c]:
    [calculate_sma_50] returns [c] once there are at least 50 bars, and
    NaN on a shorter non-empty series; [calculate_vwap] returns [c] when
    the highs and lows also equal [c] and the total volume is not zero. *)
Lemma constant_series_sma_vwap_unrounded (df : DataFrame) (c : Q) :
  constant_close c df ->
  ((50 <= length df)%nat ->
   exists q, calculate_sma_50 df = Ok (Fin q) /\ q == c) /\
  ((1 <= length df < 50)%nat -> calculate_sma_50 df = Ok NaN) /\
  (constant_price c df -> ~ total_of volume df == 0 ->
   exists q, calculate_vwap df = Ok (Fin q) /\ q == c).
Proof.
  intros Hc. split; [|split].
  - intros Hn. apply rolling_mean_constant_last; [lia | exact Hc].
  - intros Hn. apply rolling_short_last; [destruct df; simpl in *; [lia|discriminate] | lia].
  - intros Hp Hv.
    assert (Hne : df <> []) by (intros ->; apply Hv; reflexivity).
    destruct (calculate_vwap_value df Hne Hv) as (q & E & Hq).
    exists q. split; [exact E|]. rewrite Hq.
    rewrite (total_of_scaled typical volume c).
    + field. exact Hv.
    + eapply Forall_impl; [|exact Hp]. simpl. intros b (Hh & Hl & Hcl).
      unfold typical. rewrite Hh, Hl, Hcl. field.
Qed.

Lemma repeat_Forall {A : Type} (P : A -> Prop) (x : A) n :
  P x -> Forall P (repeat x n).
Proof.
  intros H. apply Forall_forall. intros y Hy.
  apply repeat_spec in Hy. subst y. exact H.
Qed.

(** C8, counterexample: three one-bar series, each with close 1.  The
    50-bar mean is NaN; the VWAP follows the typical price (4/3 when the
    high is 2) and is NaN when nothing was traded. *)
Lemma constant_close_is_not_enough :
  constant_close 1 [bar_of_close 1] /\
  calculate_sma_50 [bar_of_close 1] = Ok NaN /\
  constant_close 1 [mkBar 1 2 1 1 1 0] /\
  calculate_vwap [mkBar 1 2 1 1 1 0] = Ok (Fin (4 # 3)) /\
  constant_close 1 [mkBar 1 1 1 1 0 0] /\
  calculate_vwap [mkBar 1 1 1 1 0 0] = Ok NaN.
Proof.
  repeat split; try reflexivity; repeat constructor; reflexivity.
Qed.

(* ================================================================== *)
(** ** Series whose entries share one finite value *)

Lemma all_fin_map (f : fval -> fval) e e' s :
  (forall x, x =~ e -> f x =~ e') -> all_fin e s -> all_fin e' (map f s).
Proof.
  intros Hf H. induction H; simpl; constructor; auto.
Qed.

Lemma all_fin_dropna e s : all_fin e s -> dropna s = s.
Proof.
  induction 1 as [|x r Hx Hr IH]; [reflexivity|].
  unfold dropna in *. simpl. rewrite IH.
  destruct x; simpl in *; tauto || reflexivity.
Qed.

Lemma all_fin_fold e s : forall acc,
  all_fin e s ->
  fold_left fadd s (Fin acc) =~ acc + inject_Z (Z.of_nat (length s)) * e.
Proof.
  induction s as [|x r IH]; intros acc H.
  - simpl. ring.
  - inversion H as [|? ? Hx Hr]; subst.
    apply is_fin_inv in Hx. destruct Hx as (a & -> & Ha).
    cbn [fold_left fadd]. eapply is_fin_eq; [apply IH, Hr|].
    cbn [length]. rewrite inject_nat_succ, Ha. ring.
Qed.

Lemma all_fin_fsum e s :
  all_fin e s -> fsum s =~ inject_Z (Z.of_nat (length s)) * e.
Proof.
  intros H. unfold fsum. eapply is_fin_eq; [apply all_fin_fold, H | ring].
Qed.

Lemma all_fin_mean e s : s <> [] -> all_fin e s -> mean s =~ e.
Proof.
  intros Hne H. unfold mean. rewrite (all_fin_dropna e s H). unfold of_nat.
  assert (Hn : 0 < inject_Z (Z.of_nat (length s))).
  { apply inject_nat_pos. destruct s; [congruence | simpl; lia]. }
  eapply is_fin_eq.
  - apply fdiv_fin; [apply all_fin_fsum, H | apply is_fin_refl | lra].
  - field. lra.
Qed.


Section Deviation.

Variable sqrtQ : Q -> Q.
Hypothesis sqrt_zero : forall x, x == 0 -> sqrtQ x == 0.

Lemma all_fin_var e s : (2 <= length s)%nat -> all_fin e s -> var s =~ 0.
Proof.
  intros Hlen H. unfold var. rewrite (all_fin_dropna e s H).
  destruct (Nat.leb_spec (length s) 1); [lia|].
  assert (Hne : s <> []) by (destruct s; [simpl in Hlen; lia | discriminate]).
  pose proof (all_fin_mean e s Hne H) as Hm.
  assert (Hsq : all_fin 0 (map (fun x => fmul (fsub x (mean s)) (fsub x (mean s))) s)).
  { eapply all_fin_map; [|exact H]. intros x Hx. simpl.
    eapply is_fin_eq.
    - apply fmul_fin; apply fsub_fin; eassumption.
    - ring. }
  unfold of_nat.
  assert (Hn : 0 < inject_Z (Z.of_nat (length s - 1)))
    by (apply inject_nat_pos; lia).
  eapply is_fin_eq.
  - apply fdiv_fin; [apply all_fin_fsum, Hsq | apply is_fin_refl | lra].
  - field. lra.
Qed.

Lemma all_fin_std e s :
  (2 <= length s)%nat -> all_fin e s -> std sqrtQ s =~ 0.
Proof.
  intros Hlen H. unfold std.
  pose proof (all_fin_var e s Hlen H) as Hv.
  apply is_fin_inv in Hv. destruct Hv as (q & -> & Hq).
  unfold np_sqrt.
  assert (E : Qle_bool 0 q = true) by (apply Qle_bool_iff; lra).
  rewrite E. simpl. apply sqrt_zero, Hq.
Qed.

End Deviation.

(* ================================================================== *)
(** ** The flat series: NVT, Sharpe, Mayer *)

Lemma pct_change_from_flat c bars : forall p,
  ~ c == 0 -> p == c -> constant_close c bars ->
  all_fin 0 (pct_change_from (Fin p) (column close bars)).
Proof.
  induction bars as [|b r IH]; intros p Hc Hp Hall; [constructor|].
  inversion Hall as [|? ? Hb Hr]; subst.
  change (column close (b :: r)) with (Fin (close b) :: column close r).
  cbn [pct_change_from]. constructor.
  - eapply is_fin_eq.
    + apply fsub_fin; [|apply is_fin_refl].
      apply fdiv_fin; [apply is_fin_refl | apply is_fin_refl |].
      rewrite Hp. exact Hc.
    + rewrite Hb, Hp. field. exact Hc.
  - apply IH; assumption.
Qed.

Lemma returns_flat c b0 rest :
  ~ c == 0 -> constant_close c (b0 :: rest) ->
  dropna (pct_change (column close (b0 :: rest))) =
  pct_change_from (Fin (close b0)) (column close rest) /\
  all_fin 0 (pct_change_from (Fin (close b0)) (column close rest)).
Proof.
  intros Hc Hall. inversion Hall as [|? ? Hb Hr]; subst.
  pose proof (pct_change_from_flat c rest (close b0) Hc Hb Hr) as H.
  split; [|exact H].
  unfold pct_change.
  change (column close (b0 :: rest)) with (Fin (close b0) :: column close rest).
  cbn [pct_change_from]. unfold dropna. simpl.
  apply (all_fin_dropna 0), H.
Qed.

Lemma length_pct_change_from s : forall p,
  length (pct_change_from p s) = length s.
Proof. induction s as [|x r IH]; intros p; simpl; auto. Qed.





Lemma sqrt_approx_zero x : x == 0 -> sqrt_approx x == 0.
Proof.
  intros H. unfold sqrt_approx.
  assert (E : Qnum x = 0%Z).
  { unfold Qeq in H. simpl in H. lia. }
  rewrite E. reflexivity.
Qed.



(* ================================================================== *)
(** ** The last entry of derived series *)

Lemma iloc_last_inv {A : Type} (s : list A) (x : A) :
  iloc s (-1) = Ok x -> nth_error s (length s - 1) = Some x.
Proof.
  intros H. destruct (nth_error s (length s - 1)) as [y|] eqn:E.
  - rewrite (iloc_last_nth s y E) in H. congruence.
  - apply nth_error_None in E. destruct s; [discriminate | simpl in E; lia].
Qed.

Lemma zip_with_last f s t x y :
  length s = length t ->
  iloc s (-1) = Ok x -> iloc t (-1) = Ok y ->
  iloc (zip_with f s t) (-1) = Ok (f x y).
Proof.
  intros Hl Hs Ht. apply iloc_last_inv in Hs, Ht.
  apply iloc_last_nth. rewrite length_zip_with, <- Hl, Nat.min_id.
  apply nth_error_zip_with; [exact Hs | rewrite Hl; exact Ht].
Qed.

Lemma map_last {A B : Type} (f : A -> B) (s : list A) (x : A) :
  iloc s (-1) = Ok x -> iloc (map f s) (-1) = Ok (f x).
Proof.
  intros Hs. apply iloc_last_inv in Hs. apply iloc_last_nth.
  rewrite length_map, nth_error_map, Hs. reflexivity.
Qed.

(* ================================================================== *)
(** ** Stochastic %K and Williams %R *)

Section TrailingRange.

Variable df : DataFrame.
Variable b : Bar.
Variable w : nat.
Hypothesis window_ok : (1 <= w <= length (df ++ [b]))%nat.
Hypothesis last_bar_ok : low b <= close b <= high b.
Hypothesis range_ok :
  exists x y, In x (lastn w (df ++ [b])) /\ In y (lastn w (df ++ [b])) /\
              low x < high y.

Lemma trailing_extremes :
  exists ml mh,
    iloc (rolling w win_min (column low (df ++ [b]))) (-1) = Ok (Fin ml) /\
    iloc (rolling w win_max (column high (df ++ [b]))) (-1) = Ok (Fin mh) /\
    ml <= close b <= mh /\ ml < mh.
Proof.
  destruct (rolling_min_last low w (df ++ [b]) window_ok)
    as (ml & El & _ & Hl).
  destruct (rolling_max_last high w (df ++ [b]) window_ok)
    as (mh & Eh & _ & Hh).
  exists ml, mh. split; [exact El|]. split; [exact Eh|].
  rewrite Forall_forall in Hl, Hh.
  assert (Hb : In b (lastn w (df ++ [b]))) by (apply lastn_last_in; lia).
  pose proof (Hl b Hb). pose proof (Hh b Hb).
  destruct range_ok as (x & y & Hx & Hy & Hxy).
  pose proof (Hl x Hx). pose proof (Hh y Hy).
  split; lra.
Qed.

Lemma stochastic_k_value :
  exists ml mh,
    calculate_stochastic_k (df ++ [b]) w =
    Ok (Fin (100 * (close b + - ml) / (mh + - ml))) /\
    ml <= close b <= mh /\ ml < mh.
Proof.
  destruct trailing_extremes as (ml & mh & El & Eh & Hc & Hlt).
  exists ml, mh. split; [|split; assumption].
  unfold calculate_stochastic_k.
  rewrite (zip_with_last fdiv _ _
             (fmul (Fin 100) (fsub (Fin (close b)) (Fin ml)))
             (fsub (Fin mh) (Fin ml))).
  - simpl. rewrite Qeq_bool_false by lra. reflexivity.
  - rewrite length_map, !length_zip_with, !length_rolling, !length_column.
    lia.
  - apply map_last. apply zip_with_last; [|apply column_last | exact El].
    rewrite length_rolling, !length_column. reflexivity.
  - apply zip_with_last; [|exact Eh | exact El].
    rewrite !length_rolling, !length_column. reflexivity.
Qed.

Lemma williams_r_value :
  exists ml mh,
    calculate_williams_r (df ++ [b]) w =
    Ok (Fin (-100 * (mh + - close b) / (mh + - ml))) /\
    ml <= close b <= mh /\ ml < mh.
Proof.
  destruct trailing_extremes as (ml & mh & El & Eh & Hc & Hlt).
  exists ml, mh. split; [|split; assumption].
  unfold calculate_williams_r.
  rewrite (zip_with_last fdiv _ _
             (fmul (Fin (-100)) (fsub (Fin mh) (Fin (close b))))
             (fsub (Fin mh) (Fin ml))).
  - simpl. rewrite Qeq_bool_false by lra. reflexivity.
  - rewrite length_map, !length_zip_with, !length_rolling, !length_column.
    lia.
  - apply map_last. apply zip_with_last; [|exact Eh | apply column_last].
    rewrite length_rolling, !length_column. reflexivity.
  - apply zip_with_last; [|exact Eh | exact El].
    rewrite !length_rolling, !length_column. reflexivity.
Qed.

Lemma stochastic_k_range :
  exists q, calculate_stochastic_k (df ++ [b]) w = Ok (Fin q) /\
            0 <= q <= 100.
Proof.
  destruct stochastic_k_value as (ml & mh & E & Hc & Hlt).
  eexists. split; [exact E|]. split.
  - apply Qle_shift_div_l; [lra | nra].
  - apply Qle_shift_div_r; [lra | nra].
Qed.

Lemma williams_r_range :
  exists q, calculate_williams_r (df ++ [b]) w = Ok (Fin q) /\
            -100 <= q <= 0.
Proof.
  destruct williams_r_value as (ml & mh & E & Hc & Hlt).
  eexists. split; [exact E|]. split.
  - apply Qle_shift_div_l; [lra | nra].
  - apply Qle_shift_div_r; [lra | nra].
Qed.

End TrailingRange.

(* ================================================================== *)
(** ** Relative strength index *)

Lemma length_diff_from s : forall p, length (diff_from p s) = length s.
Proof. induction s as [|x r IH]; intros p; simpl; auto. Qed.

Lemma length_gains_from p bars : length (gains_from p bars) = length bars.
Proof.
  unfold gains_from, where_.
  rewrite length_map, length_diff_from. apply length_column.
Qed.

Lemma length_losses_from p bars : length (losses_from p bars) = length bars.
Proof.
  unfold losses_from, where_.
  rewrite !length_map, length_diff_from. apply length_column.
Qed.

Lemma diff_from_app s : forall p x t,
  diff_from p (s ++ x :: t) = diff_from p (s ++ [x]) ++ diff_from x t.
Proof.
  induction s as [|y r IH]; intros p x t; simpl; [reflexivity|].
  rewrite IH. reflexivity.
Qed.

Lemma lastn_app_exact {A : Type} (x y : list A) n :
  length y = n -> lastn n (x ++ y) = y.
Proof.
  intros <-. unfold lastn. rewrite length_app.
  replace (length x + length y - length y)%nat with (length x) by lia.
  rewrite skipn_app, Nat.sub_diag, skipn_all. reflexivity.
Qed.

Lemma gains_lastn pre b0 w p :
  lastn (length w) (gains_from p (pre ++ b0 :: w)) =
  gains_from (Fin (close b0)) w.
Proof.
  unfold gains_from, where_, column.
  rewrite map_app. cbn [map]. rewrite diff_from_app, map_app.
  apply lastn_app_exact.
  rewrite length_map, length_diff_from, length_map. reflexivity.
Qed.

Lemma losses_lastn pre b0 w p :
  lastn (length w) (losses_from p (pre ++ b0 :: w)) =
  losses_from (Fin (close b0)) w.
Proof.
  unfold losses_from, where_, column.
  rewrite map_app. cbn [map]. rewrite diff_from_app, !map_app.
  apply lastn_app_exact.
  rewrite !length_map, length_diff_from, length_map. reflexivity.
Qed.

Lemma gains_from_cons p b r :
  gains_from (Fin p) (b :: r) =
  (if fgtb (Fin (close b + - p)) (Fin 0) then Fin (close b + - p) else Fin 0)
  :: gains_from (Fin (close b)) r.
Proof. reflexivity. Qed.

Lemma losses_from_cons p b r :
  losses_from (Fin p) (b :: r) =
  fneg (if fgtb (Fin 0) (Fin (close b + - p)) then Fin (close b + - p)
        else Fin 0)
  :: losses_from (Fin (close b)) r.
Proof. reflexivity. Qed.

Lemma gains_from_nonneg w : forall p, Forall nonneg (gains_from (Fin p) w).
Proof.
  induction w as [|b r IH]; intros p; [constructor|].
  rewrite gains_from_cons. constructor; [|apply IH].
  destruct (fgtb (Fin (close b + - p)) (Fin 0)) eqn:E.
  - apply fgtb_fin in E. eexists; split; [reflexivity | lra].
  - exists 0. split; [reflexivity | lra].
Qed.

Lemma losses_from_nonneg w : forall p, Forall nonneg (losses_from (Fin p) w).
Proof.
  induction w as [|b r IH]; intros p; [constructor|].
  rewrite losses_from_cons. constructor; [|apply IH].
  destruct (fgtb (Fin 0) (Fin (close b + - p))) eqn:E.
  - apply fgtb_fin in E. eexists; split; [reflexivity | lra].
  - eexists. split; [reflexivity | lra].
Qed.

Lemma flat_if_no_moves w : forall p,
  all_fin 0 (gains_from (Fin p) w) -> all_fin 0 (losses_from (Fin p) w) ->
  constant_close p w.
Proof.
  induction w as [|b r IH]; intros p Hg Hl; [constructor|].
  rewrite gains_from_cons in Hg. rewrite losses_from_cons in Hl.
  apply Forall_cons_iff in Hg. destruct Hg as [Hg1 Hg2].
  apply Forall_cons_iff in Hl. destruct Hl as [Hl1 Hl2].
  assert (Hb : close b == p).
  { destruct (fgtb (Fin (close b + - p)) (Fin 0)) eqn:E1.
    - apply fgtb_fin in E1. simpl in Hg1. lra.
    - apply fgtb_fin_false in E1.
      destruct (fgtb (Fin 0) (Fin (close b + - p))) eqn:E2.
      + apply fgtb_fin in E2. simpl in Hl1. lra.
      + apply fgtb_fin_false in E2. lra. }
  constructor; [exact Hb|].
  eapply Forall_impl; [|apply (IH (close b) Hg2 Hl2)].
  simpl. intros a Ha. rewrite Ha. exact Hb.
Qed.

Lemma fold_nonneg s : forall a,
  Forall nonneg s ->
  exists q, fold_left fadd s (Fin a) = Fin q /\ a <= q /\
            (q == a -> all_fin 0 s).
Proof.
  induction s as [|x r IH]; intros a H.
  - exists a. split; [reflexivity|]. split; [lra | constructor].
  - inversion H as [|? ? Hx Hr]; subst. destruct Hx as (t & -> & Ht).
    destruct (IH (a + t) Hr) as (q & E & Hq & Hz).
    exists q. split; [exact E|]. split; [lra|].
    intros Hqa. constructor.
    + simpl. lra.
    + apply Hz. lra.
Qed.

Lemma win_mean_nonneg s :
  s <> [] -> Forall nonneg s ->
  exists q, win_mean s = Fin q /\ 0 <= q /\ (q == 0 -> all_fin 0 s).
Proof.
  intros Hne H. unfold win_mean, fsum, of_nat.
  destruct (fold_nonneg s 0 H) as (t & -> & Ht & Hz).
  assert (Hn : 0 < inject_Z (Z.of_nat (length s))).
  { apply inject_nat_pos. destruct s; [congruence | simpl; lia]. }
  exists (t / inject_Z (Z.of_nat (length s))).
  split; [|split].
  - simpl. rewrite Qeq_bool_false by lra. reflexivity.
  - apply Qle_shift_div_l; lra.
  - intros H0. apply Hz.
    assert (E : t == t / inject_Z (Z.of_nat (length s))
                     * inject_Z (Z.of_nat (length s))) by (field; lra).
    rewrite E, H0. ring.
Qed.

Lemma rsi_of_range g l :
  0 <= g -> 0 <= l -> ~ (g == 0 /\ l == 0) ->
  exists q, rsi_of (fdiv (Fin g) (Fin l)) = Fin q /\ 0 <= q <= 100.
Proof.
  intros Hg Hl Hgl. unfold rsi_of.
  destruct (Qeq_dec l 0) as [E|E].
  - assert (Hpos : 0 < g) by (destruct (Qeq_dec g 0); [tauto | lra]).
    cbn [fdiv]. rewrite Qeq_bool_true by exact E.
    unfold signed_inf. apply Qgt_alt in Hpos. rewrite Hpos.
    exists (100 + - 0). split; [reflexivity | lra].
  - assert (Hr : 0 <= g / l) by (apply Qle_shift_div_l; lra).
    cbn [fdiv]. rewrite Qeq_bool_false by exact E.
    cbn [fadd fdiv]. rewrite Qeq_bool_false by lra.
    eexists. split; [reflexivity|].
    assert (H1 : 0 <= 100 / (1 + g / l)) by (apply Qle_shift_div_l; lra).
    assert (H2 : 100 / (1 + g / l) <= 100) by (apply Qle_shift_div_r; nra).
    lra.
Qed.

Lemma forallb_isna_last s x :
  iloc s (-1) = Ok x -> isna x = false -> forallb isna s = false.
Proof.
  intros H Hx. apply iloc_last_inv, nth_error_In in H.
  destruct (forallb isna s) eqn:E; [|reflexivity].
  rewrite forallb_forall in E. rewrite (E x H) in Hx. discriminate.
Qed.

Lemma rsi_series_last (df : DataFrame) (w : nat) :
  (1 <= w <= length df)%nat ->
  iloc (rsi_series df w) (-1) =
  Ok (rsi_of (fdiv (win_mean (lastn w (gains_from NaN df)))
                   (win_mean (lastn w (losses_from NaN df))))).
Proof.
  intros Hw.
  change (rsi_series df w)
    with (map rsi_of
              (zip_with fdiv (rolling w win_mean (gains_from NaN df))
                        (rolling w win_mean (losses_from NaN df)))).
  apply (map_last rsi_of). apply zip_with_last.
  - rewrite !length_rolling, length_gains_from, length_losses_from.
    reflexivity.
  - rewrite rolling_last.
    + rewrite length_gains_from.
      destruct (Nat.ltb_spec (length df) w); [lia | reflexivity].
    + intros E. apply (f_equal (@length fval)) in E.
      rewrite length_gains_from in E. simpl in E. lia.
  - rewrite rolling_last.
    + rewrite length_losses_from.
      destruct (Nat.ltb_spec (length df) w); [lia | reflexivity].
    + intros E. apply (f_equal (@length fval)) in E.
      rewrite length_losses_from in E. simpl in E. lia.
Qed.

Lemma lastn_split {A : Type} (l : list A) n :
  (S n <= length l)%nat ->
  exists pre x w, l = pre ++ x :: w /\ length w = n /\
                  lastn (S n) l = x :: w /\ lastn n l = w.
Proof.
  intros Hn.
  pose proof (firstn_skipn (length l - S n) l) as Hsplit.
  destruct (skipn (length l - S n) l) as [|x w] eqn:E.
  - apply (f_equal (@length A)) in E. rewrite length_skipn in E.
    simpl in E. lia.
  - assert (Hw : length w = n).
    { apply (f_equal (@length A)) in E. rewrite length_skipn in E.
      simpl in E. lia. }
    exists (firstn (length l - S n) l), x, w.
    split; [symmetry; exact Hsplit|]. split; [exact Hw|]. split.
    + unfold lastn. exact E.
    + rewrite <- Hsplit at 1.
      change (firstn (length l - S n) l ++ x :: w)
        with (firstn (length l - S n) l ++ [x] ++ w).
      rewrite app_assoc. apply lastn_app_exact, Hw.
Qed.

(** RSI stays within [0, 100] as soon as the closes of the last
    [w + 1] bars are not all equal. *)
Lemma calculate_rsi_range (df : DataFrame) (w : nat) :
  (1 <= w)%nat -> (S w <= length df)%nat ->
  ~ (exists c, constant_close c (lastn (S w) df)) ->
  exists q, calculate_rsi df w = Ok (Fin q) /\ 0 <= q <= 100.
Proof.
  intros Hw Hlen Hvar.
  destruct (lastn_split df w Hlen) as (pre & b0 & win & Hdf & Hwin & H15 & H14).
  pose proof (rsi_series_last df w ltac:(lia)) as Hlast.
  subst df. subst w.
  rewrite gains_lastn, losses_lastn in Hlast.
  assert (Hne : forall s : Series, length s = length win -> s <> []).
  { intros s Hs E. subst s. simpl in Hs. lia. }
  destruct (win_mean_nonneg (gains_from (Fin (close b0)) win))
    as (g & Eg & Hg & Hg0);
    [apply Hne, length_gains_from | apply gains_from_nonneg |].
  destruct (win_mean_nonneg (losses_from (Fin (close b0)) win))
    as (l & El & Hl & Hl0);
    [apply Hne, length_losses_from | apply losses_from_nonneg |].
  rewrite Eg, El in Hlast.
  destruct (rsi_of_range g l Hg Hl) as (q & Eq & Hq).
  - intros [Hg1 Hl1]. apply Hvar. exists (close b0). rewrite H15.
    constructor; [reflexivity|].
    apply flat_if_no_moves; [apply Hg0, Hg1 | apply Hl0, Hl1].
  - rewrite Eq in Hlast. exists q. split; [|exact Hq].
    unfold calculate_rsi.
    rewrite (forallb_isna_last _ _ Hlast) by reflexivity.
    exact Hlast.
Qed.

(** C6, counterexample: sixteen bars, close 1 then fifteen times close 2.
    The closes are not all equal, yet the trailing window is flat: the
    average gain and loss are both 0, the trailing range is 0, and the
    three oscillators are NaN. *)
Lemma oscillators_nan_on_flat_tail :
  let df := bar_of_close 1 :: repeat (bar_of_close 2) 15 in
  (15 <= length df)%nat /\
  ~ (exists c, constant_close c df) /\
  calculate_rsi df 14 = Ok NaN /\
  calculate_stochastic_k df 14 = Ok NaN /\
  calculate_williams_r df 14 = Ok NaN.
Proof.
  split; [simpl; lia|]. split; [|repeat split; reflexivity].
  intros [c H]. unfold constant_close in H. rewrite Forall_forall in H.
  assert (H1 : close (bar_of_close 1) == c)
    by (apply H; left; reflexivity).
  assert (H2 : close (bar_of_close 2) == c)
    by (apply H; right; left; reflexivity).
  cbn in H1, H2. lra.
Qed.

(* ================================================================== *)
(** ** Momentum, rate of change and growth rates *)

Lemma iloc_first {A : Type} (x : A) (l : list A) : iloc (x :: l) 0 = Ok x.
Proof.
  unfold iloc. cbn [Z.ltb Z.compare].
  assert (E : (Z.of_nat (length (x :: l)) <=? 0)%Z = false)
    by (apply Z.leb_gt; simpl length; lia).
  rewrite E. reflexivity.
Qed.

Lemma iloc_first_nil {A : Type} : iloc (@nil A) 0 = Raise IndexError.
Proof. reflexivity. Qed.

Lemma column_last_nonempty f (df : DataFrame) (d : Bar) :
  df <> [] -> iloc (column f df) (-1) = Ok (Fin (f (last df d))).
Proof.
  intros Hne. rewrite (app_removelast_last d Hne) at 1. apply column_last.
Qed.

Lemma iloc_neg_length {A : Type} (x : A) (l : list A) :
  iloc (x :: l) (- Z.of_nat (length (x :: l))) = Ok x.
Proof.
  apply iloc_neg_in.
  - simpl length. lia.
  - rewrite Nat2Z.id, Nat.sub_diag. reflexivity.
Qed.

(** X1.  For a period [p >= 1], [calculate_momentum] returns
    [close_last - close_(N-p)] on every series of length [N >= p] and
    raises IndexError exactly when [N < p]. *)
Theorem calculate_momentum_defined_iff (df : DataFrame) (p : Z) :
  (1 <= p)%Z ->
  ((p <= Z.of_nat (length df))%Z ->
   exists (a x : Bar) (q : Q),
     nth_error df (length df - 1) = Some a /\
     nth_error df (length df - Z.to_nat p) = Some x /\
     calculate_momentum df p = Ok (Fin q) /\
     q == close a - close x) /\
  ((Z.of_nat (length df) < p)%Z ->
   calculate_momentum df p = Raise IndexError).
Proof.
  intros Hp. split.
  - intros Hle.
    destruct (nth_error df (length df - 1)) as [a|] eqn:Ea.
    2:{ apply nth_error_None in Ea. lia. }
    destruct (nth_error df (length df - Z.to_nat p)) as [x|] eqn:Ex.
    2:{ apply nth_error_None in Ex. lia. }
    exists a, x, (close a + - close x).
    split; [reflexivity|]. split; [reflexivity|]. split; [|ring].
    unfold calculate_momentum.
    rewrite (iloc_last_nth (column close df) (Fin (close a)))
      by (rewrite length_column, nth_error_column, Ea; reflexivity).
    cbn [bind].
    rewrite (iloc_neg_in (column close df) p (Fin (close x))).
    + reflexivity.
    + rewrite length_column; lia.
    + rewrite length_column, nth_error_column, Ex; reflexivity.
  - intros Hlt. unfold calculate_momentum.
    destruct (iloc (column close df) (-1)); [|destruct e; reflexivity].
    cbn [bind].
    rewrite iloc_neg_out by (rewrite length_column; exact Hlt).
    reflexivity.
Qed.

Lemma calculate_momentum_defined_iff_witness :
  exists q, calculate_momentum ramp_10_23 10 = Ok (Fin q) /\ q == 9.
Proof.
  destruct (calculate_momentum_defined_iff ramp_10_23 10) as [H _]; [lia|].
  destruct H as (a & x & q & Ea & Ex & E & Hq); [simpl; lia|].
  vm_compute in Ea, Ex. injection Ea as <-. injection Ex as <-.
  exists q. split; [exact E|]. rewrite Hq. reflexivity.
Defined.

(** X2.  On a non-empty series, the rate of change over the whole length
    ([period = N], where [iloc[-N]] is the first bar) is 100 times the
    price momentum of [quantitative.py]. *)
Theorem roc_full_length_is_price_momentum (b0 : Bar) (rest : list Bar) :
  exists m,
    calculate_price_momentum (b0 :: rest) = Ok m /\
    calculate_roc (b0 :: rest) (Z.of_nat (length (b0 :: rest))) =
    Ok (fmul m (Fin 100)).
Proof.
  unfold calculate_price_momentum, calculate_roc.
  rewrite (column_last_nonempty close (b0 :: rest) b0) by discriminate.
  cbn [bind].
  change (column close (b0 :: rest)) with (Fin (close b0) :: column close rest).
  rewrite iloc_first.
  replace (length (b0 :: rest))
    with (length (Fin (close b0) :: column close rest))
    by (simpl; rewrite length_column; reflexivity).
  rewrite iloc_neg_length. cbn [bind].
  eexists. split; reflexivity.
Qed.

(* ================================================================== *)
(** ** Ratios against the average quote volume *)

Lemma quote_volume_column df :
  zip_with fmul (column volume df) (column close df) = column quote_volume df.
Proof. apply (zip_with_columns fmul Qmult). reflexivity. Qed.

Lemma mean_column f df :
  df <> [] ->
  exists a, mean (column f df) = Fin a /\
            a == total_of f df / inject_Z (Z.of_nat (length df)) /\
            (a == 0 <-> total_of f df == 0).
Proof.
  intros Hne. unfold mean, of_nat. rewrite dropna_column, length_column.
  assert (Hn : 0 < inject_Z (Z.of_nat (length df))).
  { apply inject_nat_pos. destruct df; [congruence | simpl; lia]. }
  destruct (is_fin_inv _ _ (fsum_column f df)) as (t & -> & Ht).
  exists (t / inject_Z (Z.of_nat (length df))).
  split; [|split].
  - simpl. rewrite Qeq_bool_false by lra. reflexivity.
  - rewrite Ht. reflexivity.
  - rewrite <- Ht. split; intros H.
    + assert (E : t == t / inject_Z (Z.of_nat (length df))
                       * inject_Z (Z.of_nat (length df))) by (field; lra).
      rewrite E, H. ring.
    + rewrite H. field. lra.
Qed.

(** X4.  On a non-empty series [calculate_price_volume_ratio] returns
    the infinity sentinel exactly when the total quote volume is zero, and
    otherwise the finite ratio of the last close to the mean quote
    volume. *)
Theorem price_volume_ratio_inf_iff (df : DataFrame) (b : Bar) :
  let s := df ++ [b] in
  let total := total_of quote_volume s in
  (total == 0 -> calculate_price_volume_ratio s = Ok PInf) /\
  (~ total == 0 ->
   exists q, calculate_price_volume_ratio s = Ok (Fin q) /\
             q == close b / (total / inject_Z (Z.of_nat (length s)))).
Proof.
  intros s total. subst s. unfold calculate_price_volume_ratio.
  rewrite column_last. cbn [bind].
  rewrite quote_volume_column.
  destruct (mean_column quote_volume (df ++ [b])) as (a & -> & Ha & Hz).
  { destruct df; discriminate. }
  fold total in Ha, Hz. split.
  - intros H0. rewrite (fneb_zero (Fin a)) by (apply Hz, H0). reflexivity.
  - intros Hn. assert (Ha0 : ~ a == 0) by (intros E; apply Hn, Hz, E).
    rewrite (fneb_nonzero (Fin a) a (is_fin_refl a) Ha0).
    exists (close b / a). split.
    + cbn [fdiv]. rewrite Qeq_bool_false by exact Ha0. reflexivity.
    + rewrite Ha. reflexivity.
Qed.

Lemma price_volume_ratio_inf_iff_witness :
  calculate_price_volume_ratio [mkBar 1 1 1 1 0 0] = Ok PInf /\
  (exists q, calculate_price_volume_ratio [mkBar 2 2 2 2 3 3] = Ok (Fin q) /\
             q == 2 / (6 / 1)).
Proof.
  split.
  - apply (price_volume_ratio_inf_iff [] (mkBar 1 1 1 1 0 0)). reflexivity.
  - apply (price_volume_ratio_inf_iff [] (mkBar 2 2 2 2 3 3)).
    vm_compute. discriminate.
Defined.

(** X7.  On a non-empty series [calculate_volume_cagr] is the infinity
    sentinel when the first quote volume is zero, and otherwise the finite
    number [last quote volume / first quote volume - 1]. *)
Theorem volume_cagr_cases (b0 : Bar) (rest : list Bar) :
  let df := b0 :: rest in
  let b := last df b0 in
  (quote_volume b0 == 0 -> calculate_volume_cagr df = Ok PInf) /\
  (~ quote_volume b0 == 0 ->
   exists q, calculate_volume_cagr df = Ok (Fin q) /\
             q == quote_volume b / quote_volume b0 - 1).
Proof.
  intros df b. unfold calculate_volume_cagr.
  rewrite quote_volume_column.
  rewrite (column_last_nonempty quote_volume df b0) by discriminate.
  assert (Hfirst : iloc (column quote_volume df) 0 = Ok (Fin (quote_volume b0)))
    by apply iloc_first.
  rewrite Hfirst. cbn [bind]. fold b. split.
  - intros H0. rewrite (fneb_zero (Fin (quote_volume b0))) by exact H0.
    reflexivity.
  - intros Hn.
    rewrite (fneb_nonzero (Fin (quote_volume b0)) _ (is_fin_refl _) Hn).
    cbn [fdiv]. rewrite Qeq_bool_false by exact Hn.
    eexists. split; [reflexivity|]. ring.
Qed.

Lemma volume_cagr_cases_witness :
  calculate_volume_cagr [mkBar 1 1 1 1 0 0; bar_of_close 2] = Ok PInf /\
  (exists q, calculate_volume_cagr [mkBar 2 2 2 2 3 3; mkBar 4 4 4 4 3 3]
             = Ok (Fin q) /\ q == 12 / 6 - 1).
Proof.
  split.
  - apply (volume_cagr_cases (mkBar 1 1 1 1 0 0) [bar_of_close 2]).
    reflexivity.
  - apply (volume_cagr_cases (mkBar 2 2 2 2 3 3) [mkBar 4 4 4 4 3 3]).
    vm_compute. discriminate.
Defined.

(* ================================================================== *)
(** ** MACD of a constant series *)

Lemma all_fin_zip_with f a b c s : forall t,
  (forall x y, x =~ a -> y =~ b -> f x y =~ c) ->
  all_fin a s -> all_fin b t -> all_fin c (zip_with f s t).
Proof.
  induction s as [|x s IH]; intros [|y t] Hf Hs Ht; simpl; try constructor.
  - inversion Hs; inversion Ht; subst. apply Hf; assumption.
  - inversion Hs; inversion Ht; subst. apply IH; assumption.
Qed.

Lemma ewm_from_all_fin alpha c s : forall prev,
  prev =~ c -> all_fin c s -> all_fin c (ewm_from alpha prev s).
Proof.
  induction s as [|x r IH]; intros prev Hp Hs; [constructor|].
  inversion Hs as [|? ? Hx Hr]; subst.
  assert (Hy : fadd (fmul (Fin (1 - alpha)) prev) (fmul (Fin alpha) x) =~ c).
  { eapply is_fin_eq.
    - apply fadd_fin; apply fmul_fin;
        [apply is_fin_refl | exact Hp | apply is_fin_refl | exact Hx].
    - ring. }
  cbn [ewm_from]. constructor; [exact Hy|]. apply IH; assumption.
Qed.

Lemma ewm_mean_all_fin span c s : all_fin c s -> all_fin c (ewm_mean span s).
Proof.
  intros Hs. destruct s as [|x r]; [constructor|].
  inversion Hs as [|? ? Hx Hr]; subst.
  cbn [ewm_mean]. constructor; [exact Hx|].
  apply ewm_from_all_fin; assumption.
Qed.

Lemma nonempty_of_length {A : Type} (s : list A) n :
  length s = n -> (1 <= n)%nat -> s <> [].
Proof. intros H Hn E. subst s. simpl in H. lia. Qed.

(** X8.  On a non-empty series whose closes all equal [c], the MACD
    histogram is exactly 0: both EMAs sit on [c], their difference is 0 at
    every index, and so is its signal line. *)
Theorem calculate_macd_constant (df : DataFrame) (c : Q) :
  df <> [] -> constant_close c df ->
  exists q, calculate_macd df = Ok (Fin q) /\ q == 0.
Proof.
  intros Hne Hc. unfold calculate_macd.
  assert (Hlen : (1 <= length df)%nat)
    by (destruct df; [congruence | simpl; lia]).
  assert (Hmacd : all_fin (c - c)
            (zip_with fsub (ewm_mean 12 (column close df))
                      (ewm_mean 26 (column close df)))).
  { apply (all_fin_zip_with fsub c c).
    - intros x y Hx Hy. apply fsub_fin; assumption.
    - apply ewm_mean_constant, Hc.
    - apply ewm_mean_constant, Hc. }
  assert (Hl : length (zip_with fsub (ewm_mean 12 (column close df))
                                (ewm_mean 26 (column close df))) = length df).
  { rewrite length_zip_with, !length_ewm_mean, length_column. apply Nat.min_id. }
  destruct (iloc_last_Forall _ _ Hmacd (nonempty_of_length _ _ Hl Hlen))
    as (m & Em & Hm).
  destruct (iloc_last_Forall _ _ (ewm_mean_all_fin 9 _ _ Hmacd))
    as (s & Es & Hs).
  { apply (nonempty_of_length _ (length df)); [|exact Hlen].
    rewrite length_ewm_mean. exact Hl. }
  rewrite Em, Es. cbn [bind].
  pose proof (fsub_fin _ _ _ _ Hm Hs) as H.
  apply is_fin_inv in H. destruct H as (q & -> & Hq).
  exists q. split; [reflexivity|]. rewrite Hq. ring.
Qed.

Lemma calculate_macd_constant_witness :
  exists q, calculate_macd (repeat (bar_of_close (7 # 2)) 40) = Ok (Fin q) /\
            q == 0.
Proof.
  apply (calculate_macd_constant (repeat (bar_of_close (7 # 2)) 40) (7 # 2)).
  - discriminate.
  - apply repeat_Forall. reflexivity.
Defined.

(* ================================================================== *)
(** ** Insufficient history *)

Lemma length_shift s : length (shift s) = length s.
Proof.
  destruct s as [|x r]; [reflexivity|].
  unfold shift. cbn [length]. rewrite removelast_firstn_len.
  rewrite length_firstn. simpl. lia.
Qed.

Lemma length_true_range df : length (true_range df) = length df.
Proof.
  unfold true_range.
  rewrite !length_zip_with, !length_map, !length_zip_with, length_shift,
    !length_column.
  lia.
Qed.

Lemma iloc_last_some {A : Type} (s : list A) :
  s <> [] -> exists x, iloc s (-1) = Ok x.
Proof.
  intros Hne. destruct (iloc_last_Forall (fun _ => True) s) as (x & E & _).
  - apply Forall_forall. trivial.
  - exact Hne.
  - exists x. exact E.
Qed.

(** X9.  On a non-empty series that is shorter than the window, the
    Bollinger width (fewer than 20 bars), the volume oscillator (fewer than
    20 bars) and the ATR (fewer bars than the period) are NaN; none of
    them raises. *)
Theorem short_history_is_nan
    (sqrtQ : Q -> Q) (df : DataFrame) (period : nat) :
  df <> [] ->
  ((length df < 20)%nat ->
   calculate_bollinger_width sqrtQ df = Ok NaN /\
   calculate_volume_oscillator df = Ok NaN) /\
  ((length df < period)%nat -> calculate_atr df period = Ok NaN).
Proof.
  intros Hne.
  assert (Hlen : (1 <= length df)%nat)
    by (destruct df; [congruence | simpl; lia]).
  split.
  - intros Hs. split.
    + unfold calculate_bollinger_width.
      assert (Hsma : iloc (rolling 20 win_mean (column close df)) (-1) = Ok NaN)
        by (apply rolling_short_last; assumption).
      assert (Hstd : iloc (map (fun x => fmul (Fin 2) x)
                               (rolling 20 (win_std sqrtQ) (column close df)))
                          (-1) = Ok (fmul (Fin 2) NaN)).
      { apply (map_last (fun x => fmul (Fin 2) x)).
        apply rolling_short_last; assumption. }
      rewrite (zip_with_last fadd _ _ NaN (fmul (Fin 2) NaN));
        [| rewrite length_map, !length_rolling; reflexivity | exact Hsma
         | exact Hstd].
      rewrite (zip_with_last fsub _ _ NaN (fmul (Fin 2) NaN));
        [| rewrite length_map, !length_rolling; reflexivity | exact Hsma
         | exact Hstd].
      rewrite Hsma. reflexivity.
    + unfold calculate_volume_oscillator.
      destruct (iloc_last_some (rolling 5 win_mean (column volume df)))
        as (s & Es).
      { apply (nonempty_of_length _ (length df)); [|exact Hlen].
        rewrite length_rolling. apply length_column. }
      rewrite Es, rolling_short_last by assumption. cbn [bind].
      destruct s; reflexivity.
  - intros Hs. unfold calculate_atr.
    rewrite rolling_last
      by (apply (nonempty_of_length _ (length df));
          [apply length_true_range | exact Hlen]).
    rewrite length_true_range.
    destruct (Nat.ltb_spec (length df) period); [reflexivity | lia].
Qed.

Lemma short_history_is_nan_witness :
  calculate_bollinger_width sqrt_approx ramp_10_23 = Ok NaN /\
  calculate_volume_oscillator ramp_10_23 = Ok NaN /\
  calculate_atr (firstn 13 ramp_10_23) 14 = Ok NaN.
Proof.
  split; [|split].
  - apply (short_history_is_nan sqrt_approx ramp_10_23 14);
      [discriminate | simpl; lia].
  - apply (short_history_is_nan sqrt_approx ramp_10_23 14);
      [discriminate | simpl; lia].
  - apply (short_history_is_nan sqrt_approx (firstn 13 ramp_10_23) 14);
      [discriminate | simpl; lia].
Defined.

(** X10.  On a non-empty series with fewer than 200 bars the Mayer
    multiple is NaN (no error), and the speculative signal built from it
    is 1 exactly when the NVT ratio exceeds 50. *)
Theorem mayer_short_and_signal (df : DataFrame) (supply : Q) :
  df <> [] -> (length df < 200)%nat ->
  calculate_mayer_multiple df = Ok NaN /\
  calculate_speculative_signal (calculate_nvt_ratio df supply) NaN =
  (if fgtb (calculate_nvt_ratio df supply) (Fin 50) then 1%Z else 0%Z).
Proof.
  intros Hne Hs. split.
  - unfold calculate_mayer_multiple.
    rewrite rolling_short_last by assumption. cbn [bind].
    destruct (iloc_last_some (column close df)) as (x & ->).
    { destruct df; [congruence | discriminate]. }
    cbn [bind]. destruct x; reflexivity.
  - unfold calculate_speculative_signal.
    destruct (fgtb (calculate_nvt_ratio df supply) (Fin 50)); reflexivity.
Qed.

Lemma mayer_short_and_signal_witness :
  calculate_mayer_multiple ramp_10_23 = Ok NaN /\
  calculate_speculative_signal (calculate_nvt_ratio ramp_10_23 16000000) NaN
  = 1%Z.
Proof.
  destruct (mayer_short_and_signal ramp_10_23 16000000) as [H1 H2];
    [discriminate | simpl; lia |].
  split; [exact H1|]. rewrite H2. reflexivity.
Defined.

(* ================================================================== *)
(** ** Volatility metrics on short and on flat series *)

Lemma length_dropna_le s : (length (dropna s) <= length s)%nat.
Proof. unfold dropna. apply filter_length_le. Qed.

Lemma var_short s : (length s <= 1)%nat -> var s = NaN.
Proof.
  intros H. unfold var. pose proof (length_dropna_le s).
  destruct (Nat.leb_spec (length (dropna s)) 1); [reflexivity | lia].
Qed.

Lemma std_short sqrtQ s : (length s <= 1)%nat -> std sqrtQ s = NaN.
Proof. intros H. unfold std. rewrite var_short by exact H. reflexivity. Qed.

Lemma length_returns_le s :
  (length (dropna (pct_change s)) <= length s - 1)%nat.
Proof.
  destruct s as [|x r]; [simpl; lia|].
  unfold pct_change. cbn [pct_change_from].
  change (fsub (fdiv x NaN) (Fin 1)) with (fsub (fdiv x NaN) (Fin 1)).
  assert (E : fsub (fdiv x NaN) (Fin 1) = NaN) by (destruct x; reflexivity).
  rewrite E. unfold dropna. cbn [filter isna negb].
  fold (dropna (pct_change_from x r)).
  pose proof (length_dropna_le (pct_change_from x r)) as H.
  rewrite length_pct_change_from in H. simpl. lia.
Qed.

Lemma fmul_nan_l y : fmul NaN y = NaN.
Proof. reflexivity. Qed.

Lemma fdiv_nan_r x : fdiv x NaN = NaN.
Proof. destruct x; reflexivity. Qed.

(** X11.  With at most two bars there are fewer than two returns, the
    sample deviation is NaN, and both Sharpe ratios and the price
    stability ratio are NaN; with at most four bars the early half has
    fewer than two returns and the volatility reduction is the ordinary
    number 0. *)
Theorem short_series_volatility_metrics (sqrtQ : Q -> Q) (df : DataFrame) :
  ((length df <= 2)%nat ->
   calculate_sharpe_ratio sqrtQ df = NaN /\
   calculate_sharpe_ratio_staking sqrtQ df = NaN /\
   calculate_price_stability_ratio sqrtQ df = NaN) /\
  ((length df <= 4)%nat ->
   calculate_volatility_reduction sqrtQ df = Fin 0).
Proof.
  pose proof (length_returns_le (column close df)) as Hr.
  rewrite length_column in Hr. split.
  - intros H. split; [|split].
    + unfold calculate_sharpe_ratio.
      rewrite std_short by (rewrite !length_map; lia).
      cbn [fneb]. rewrite fdiv_nan_r. reflexivity.
    + unfold calculate_sharpe_ratio_staking.
      rewrite std_short by (rewrite !length_map; lia).
      cbn [fneb]. rewrite fdiv_nan_r. reflexivity.
    + unfold calculate_price_stability_ratio.
      rewrite std_short by lia.
      rewrite fmul_nan_l. cbn [fneb]. apply fdiv_nan_r.
  - intros H. unfold calculate_volatility_reduction.
    rewrite (std_short sqrtQ (firstn _ _)).
    + rewrite fmul_nan_l. cbn [fneb]. rewrite fdiv_nan_r. reflexivity.
    + rewrite length_firstn.
      assert (length (dropna (pct_change (column close df))) / 2 < 2)%nat
        by (apply Nat.Div0.div_lt_upper_bound; lia).
      lia.
Qed.

Lemma short_series_volatility_metrics_witness :
  calculate_sharpe_ratio sqrt_approx [bar_of_close 1; bar_of_close 2] = NaN /\
  calculate_volatility_reduction sqrt_approx (firstn 4 ramp_10_23) = Fin 0.
Proof.
  split.
  - apply (short_series_volatility_metrics
             sqrt_approx [bar_of_close 1; bar_of_close 2]).
    simpl. lia.
  - apply (short_series_volatility_metrics sqrt_approx (firstn 4 ramp_10_23)).
    simpl. lia.
Defined.

Lemma Forall_firstn_all {A : Type} (P : A -> Prop) n : forall l,
  Forall P l -> Forall P (firstn n l).
Proof.
  induction n as [|n IH]; intros l H; [constructor|].
  destruct l; [constructor|]. simpl. inversion H; subst.
  constructor; auto.
Qed.

Lemma np_sqrt_365 sqrtQ : np_sqrt sqrtQ (Fin 365) = Fin (sqrtQ 365).
Proof. reflexivity. Qed.

Lemma fmul_zero_l x y r : x =~ 0 -> y = Fin r -> fmul x y =~ 0.
Proof.
  intros Hx ->. eapply is_fin_eq.
  - apply fmul_fin; [exact Hx | apply is_fin_refl].
  - ring.
Qed.

Section FlatVolatility.

Variable sqrtQ : Q -> Q.
Hypothesis sqrt_zero : forall x, x == 0 -> sqrtQ x == 0.

Lemma flat_volatility_zero e s :
  (2 <= length s)%nat -> all_fin e s ->
  fmul (std sqrtQ s) (np_sqrt sqrtQ (Fin 365)) =~ 0.
Proof.
  intros Hl Hs. apply (fmul_zero_l _ _ (sqrtQ 365)).
  - apply (all_fin_std sqrtQ sqrt_zero e); assumption.
  - apply np_sqrt_365.
Qed.

Lemma flat_early_volatility e s :
  all_fin e s ->
  fmul (std sqrtQ s) (np_sqrt sqrtQ (Fin 365)) =~ 0 \/
  fmul (std sqrtQ s) (np_sqrt sqrtQ (Fin 365)) = NaN.
Proof.
  intros Hs. destruct (Nat.le_gt_cases 2 (length s)) as [H|H].
  - left. apply (flat_volatility_zero e); assumption.
  - right. rewrite std_short by lia. reflexivity.
Qed.

End FlatVolatility.

(** X12.  On a series whose closes all equal [c], [c] not zero: every
    return is exactly zero, so with at least three bars the price
    stability ratio is the infinity sentinel (zero deviation of the
    returns); the volatility reduction is 0 on such a series of any
    length. *)
Theorem flat_series_volatility_metrics
    (sqrtQ : Q -> Q) (df : DataFrame) (c : Q) :
  (forall x, x == 0 -> sqrtQ x == 0) ->
  ~ c == 0 -> constant_close c df ->
  ((3 <= length df)%nat ->
   calculate_price_stability_ratio sqrtQ df = PInf) /\
  calculate_volatility_reduction sqrtQ df = Fin 0.
Proof.
  intros Hsqrt Hc Hflat.
  destruct df as [|b0 rest].
  { split; [simpl; lia | reflexivity]. }
  destruct (returns_flat c b0 rest Hc Hflat) as [Eret Hret].
  split.
  - intros Hlen. simpl in Hlen.
    unfold calculate_price_stability_ratio. rewrite Eret.
    rewrite (fneb_zero (fmul _ _)); [reflexivity|].
    apply (flat_volatility_zero sqrtQ Hsqrt 0); [|exact Hret].
    rewrite length_pct_change_from, length_column. lia.
  - unfold calculate_volatility_reduction. rewrite Eret.
    set (r := pct_change_from (Fin (close b0)) (column close rest)) in *.
    destruct (flat_early_volatility sqrtQ Hsqrt 0
                (firstn (length r / 2) r)) as [H|H].
    + apply Forall_firstn_all, Hret.
    + rewrite (fneb_zero _ H). reflexivity.
    + rewrite H. cbn [fneb]. rewrite fdiv_nan_r. reflexivity.
Qed.

Lemma flat_series_volatility_metrics_witness :
  calculate_price_stability_ratio sqrt_approx (repeat (bar_of_close 3) 5) = PInf /\
  calculate_volatility_reduction sqrt_approx (repeat (bar_of_close 3) 5) = Fin 0.
Proof.
  destruct (flat_series_volatility_metrics
              sqrt_approx (repeat (bar_of_close 3) 5) 3) as [H1 H2].
  - exact sqrt_approx_zero.
  - discriminate.
  - apply repeat_Forall. reflexivity.
  - split; [apply H1; simpl; lia | exact H2].
Defined.

(** X13.  Whatever the series, [calculate_volatility_reduction] is never
    NaN and never negative: Python's [max(0, x)] keeps 0 when [x] is NaN or
    not greater than 0. *)
Theorem volatility_reduction_never_nan (sqrtQ : Q -> Q) (df : DataFrame) :
  isna (calculate_volatility_reduction sqrtQ df) = false /\
  fltb (calculate_volatility_reduction sqrtQ df) (Fin 0) = false.
Proof.
  unfold calculate_volatility_reduction.
  match goal with |- context [py_max0 ?x] => generalize x end.
  intros x. unfold py_max0, fltb.
  destruct x as [q| | |]; cbn [fgtb isna];
    try (split; reflexivity).
  destruct (Qle_bool q 0) eqn:E; cbn [negb isna fgtb].
  - split; reflexivity.
  - split; [reflexivity|].
    destruct (Qle_bool 0 q) eqn:E2; [reflexivity|].
    exfalso.
    destruct (Qlt_le_dec 0 q) as [H|H].
    + assert (Hle : 0 <= q) by lra. apply Qle_bool_iff in Hle. congruence.
    + apply Qle_bool_iff in H. congruence.
Qed.

(* ================================================================== *)
(** ** Bollinger width and volume oscillator *)

Lemma column_nonneg f l :
  Forall (fun b => 0 <= f b) l -> Forall nonneg (column f l).
Proof.
  intros H. unfold column. induction H; simpl; constructor; auto.
  exists (f x). split; [reflexivity | assumption].
Qed.

Lemma lastn_lastn {A : Type} (l : list A) w w' :
  (w <= w' <= length l)%nat -> lastn w (lastn w' l) = lastn w l.
Proof.
  intros H. unfold lastn. rewrite length_skipn, skipn_skipn.
  f_equal. lia.
Qed.

Lemma win_mean_fin_nonneg s :
  s <> [] -> Forall nonneg s ->
  exists t, fsum s = Fin t /\ 0 <= t /\
            win_mean s = Fin (t / inject_Z (Z.of_nat (length s))) /\
            (t == 0 -> all_fin 0 s).
Proof.
  intros Hne H. unfold win_mean, of_nat, fsum.
  destruct (fold_nonneg s 0 H) as (t & E & Ht & Hz).
  assert (Hn : 0 < inject_Z (Z.of_nat (length s))).
  { apply inject_nat_pos. destruct s; [congruence | simpl; lia]. }
  exists t. rewrite E. split; [reflexivity|]. split; [exact Ht|]. split.
  - cbn [fdiv]. rewrite Qeq_bool_false by lra. reflexivity.
  - intros H0. apply Hz. rewrite H0. reflexivity.
Qed.

Lemma squares_nonneg m s :
  Forall finite s ->
  Forall nonneg (map (fun x => fmul (fsub x (Fin m)) (fsub x (Fin m))) s).
Proof.
  induction 1 as [|x r Hx Hr IH]; simpl; constructor; [|exact IH].
  destruct Hx as (q & ->). eexists. split; [reflexivity|].
  pose proof (Qsqr_nonneg (q + - m)) as H. simpl in H. exact H.
Qed.

Lemma win_mean_column f l :
  l <> [] ->
  win_mean (column f l) =~ total_of f l / inject_Z (Z.of_nat (length l)).
Proof.
  intros Hne. unfold win_mean, of_nat. rewrite length_column.
  assert (Hn : 0 < inject_Z (Z.of_nat (length l))).
  { apply inject_nat_pos. destruct l; [congruence | simpl; lia]. }
  apply fdiv_fin; [apply fsum_column | apply is_fin_refl | lra].
Qed.

Lemma column_finite f l : Forall finite (column f l).
Proof.
  unfold column. induction l; simpl; constructor; auto.
  eexists; reflexivity.
Qed.

Section Bollinger.

Variable sqrtQ : Q -> Q.
Hypothesis sqrt_nonneg : forall x, 0 <= x -> 0 <= sqrtQ x.

Lemma win_std_nonneg f l :
  (2 <= length l)%nat ->
  exists sd, win_std sqrtQ (column f l) = Fin sd /\ 0 <= sd.
Proof.
  intros Hl. unfold win_std, win_var.
  assert (Hne : l <> []) by (destruct l; [simpl in Hl; lia | discriminate]).
  destruct (is_fin_inv _ _ (win_mean_column f l Hne)) as (m & -> & _).
  destruct (fold_nonneg _ 0 (squares_nonneg m _ (column_finite f l)))
    as (t & E & Ht & _).
  unfold fsum. rewrite E. unfold of_nat.
  rewrite length_column.
  assert (Hn : 0 < inject_Z (Z.of_nat (length l - 1)))
    by (apply inject_nat_pos; lia).
  cbn [fdiv]. rewrite Qeq_bool_false by lra.
  assert (Hv : 0 <= t / inject_Z (Z.of_nat (length l - 1)))
    by (apply Qle_shift_div_l; lra).
  unfold np_sqrt.
  assert (Eb : Qle_bool 0 (t / inject_Z (Z.of_nat (length l - 1))) = true)
    by (apply Qle_bool_iff, Hv).
  rewrite Eb. eexists. split; [reflexivity|]. apply sqrt_nonneg, Hv.
Qed.

End Bollinger.

Lemma total_of_pos f l :
  l <> [] -> Forall (fun b => 0 < f b) l -> 0 < total_of f l.
Proof.
  intros Hne H. induction H as [|b r Hb Hr IH]; [congruence|].
  cbn [total_of fold_right]. fold (total_of f r).
  destruct r as [|b' r'].
  - simpl. lra.
  - assert (0 < total_of f (b' :: r')) by (apply IH; discriminate). lra.
Qed.

Lemma rolling_window_last agg f w df :
  (1 <= w <= length df)%nat ->
  iloc (rolling w agg (column f df)) (-1) = Ok (agg (column f (lastn w df))).
Proof.
  intros Hw.
  rewrite rolling_last by (destruct df; simpl in *; [lia | discriminate]).
  rewrite length_column.
  destruct (Nat.ltb_spec (length df) w); [lia|].
  rewrite lastn_column. reflexivity.
Qed.

(** X14.  With at least 20 bars and positive closes over the last 20
    bars, the Bollinger width is a finite number that is not negative
    (for any square root that is not negative on non-negative input). *)
Theorem bollinger_width_nonneg (sqrtQ : Q -> Q) (df : DataFrame) :
  (forall x, 0 <= x -> 0 <= sqrtQ x) ->
  (20 <= length df)%nat ->
  Forall (fun b => 0 < close b) (lastn 20 df) ->
  exists q, calculate_bollinger_width sqrtQ df = Ok (Fin q) /\ 0 <= q.
Proof.
  intros Hsqrt Hlen Hpos.
  assert (Hne : lastn 20 df <> []) by (apply lastn_nonempty; lia).
  destruct (is_fin_inv _ _ (win_mean_column close _ Hne)) as (a & Ea & Ha).
  assert (Ha0 : 0 < a).
  { rewrite Ha. apply Qlt_shift_div_l.
    - apply inject_nat_pos. rewrite length_lastn; lia.
    - pose proof (total_of_pos close _ Hne Hpos). lra. }
  destruct (win_std_nonneg sqrtQ Hsqrt close (lastn 20 df)) as (sd & Esd & Hsd).
  { rewrite length_lastn; lia. }
  assert (Hsma : iloc (rolling 20 win_mean (column close df)) (-1) = Ok (Fin a))
    by (rewrite rolling_window_last, Ea by lia; reflexivity).
  assert (Hstd : iloc (map (fun x => fmul (Fin 2) x)
                           (rolling 20 (win_std sqrtQ) (column close df)))
                      (-1) = Ok (fmul (Fin 2) (Fin sd))).
  { apply (map_last (fun x => fmul (Fin 2) x)).
    rewrite rolling_window_last, Esd by lia. reflexivity. }
  unfold calculate_bollinger_width.
  rewrite (zip_with_last fadd _ _ (Fin a) (fmul (Fin 2) (Fin sd)));
    [| rewrite length_map, !length_rolling; reflexivity | exact Hsma
     | exact Hstd].
  rewrite (zip_with_last fsub _ _ (Fin a) (fmul (Fin 2) (Fin sd)));
    [| rewrite length_map, !length_rolling; reflexivity | exact Hsma
     | exact Hstd].
  rewrite Hsma. cbn [bind fmul fadd fsub fneg fdiv].
  rewrite Qeq_bool_false by lra.
  eexists. split; [reflexivity|].
  apply Qle_shift_div_l; [exact Ha0 | lra].
Qed.

Lemma bollinger_width_nonneg_witness :
  exists q, calculate_bollinger_width sqrt_approx
              (ramp_10_23 ++ ramp_10_23) = Ok (Fin q) /\ 0 <= q.
Proof.
  apply (bollinger_width_nonneg sqrt_approx (ramp_10_23 ++ ramp_10_23)).
  - intros x Hx. unfold sqrt_approx. unfold Qle. simpl.
    rewrite Z.mul_1_r. apply Z.sqrt_nonneg.
  - simpl. lia.
  - vm_compute. repeat constructor.
Defined.

(** X15.  With at least 20 bars, volumes that are not negative over the
    last 20 bars and at least one positive volume among them, the volume
    oscillator is a finite number not below -100. *)
Theorem volume_oscillator_lower_bound (df : DataFrame) :
  (20 <= length df)%nat ->
  Forall (fun b => 0 <= volume b) (lastn 20 df) ->
  (exists x, In x (lastn 20 df) /\ 0 < volume x) ->
  exists q, calculate_volume_oscillator df = Ok (Fin q) /\ -100 <= q.
Proof.
  intros Hlen Hnn (x & Hx & Hxpos).
  assert (Hnn5 : Forall (fun b => 0 <= volume b) (lastn 5 df)).
  { rewrite <- (lastn_lastn df 5 20) by lia. apply Forall_lastn, Hnn. }
  destruct (win_mean_fin_nonneg (column volume (lastn 5 df)))
    as (ts & _ & Hts & Es & _).
  { apply (nonempty_of_length _ 5); [|lia].
    rewrite length_column, length_lastn; lia. }
  { apply column_nonneg, Hnn5. }
  destruct (win_mean_fin_nonneg (column volume (lastn 20 df)))
    as (tl & _ & Htl & El & Hz).
  { apply (nonempty_of_length _ 20); [|lia].
    rewrite length_column, length_lastn; lia. }
  { apply column_nonneg, Hnn. }
  rewrite length_column, length_lastn in Es, El by lia.
  assert (Htl0 : 0 < tl).
  { destruct (Qlt_le_dec 0 tl) as [H|H]; [exact H|].
    assert (E0 : tl == 0) by lra.
    specialize (Hz E0). unfold all_fin, column in Hz.
    rewrite Forall_map, Forall_forall in Hz.
    specialize (Hz x Hx). simpl in Hz. lra. }
  unfold calculate_volume_oscillator.
  rewrite !rolling_window_last by lia.
  rewrite Es, El. cbn [bind fsub fadd fneg fdiv].
  set (s := ts / inject_Z (Z.of_nat 5)).
  set (l := tl / inject_Z (Z.of_nat 20)).
  assert (Hs : 0 <= s) by (apply Qle_shift_div_l; [reflexivity | lra]).
  assert (Hl : 0 < l) by (apply Qlt_shift_div_l; [reflexivity | lra]).
  rewrite Qeq_bool_false by lra. cbn [fmul].
  eexists. split; [reflexivity|].
  assert (Hr : -1 <= (s + - l) / l) by (apply Qle_shift_div_l; lra).
  lra.
Qed.

Lemma volume_oscillator_lower_bound_witness :
  exists q, calculate_volume_oscillator (ramp_10_23 ++ ramp_10_23)
            = Ok (Fin q) /\ -100 <= q.
Proof.
  apply (volume_oscillator_lower_bound (ramp_10_23 ++ ramp_10_23)).
  - simpl. lia.
  - vm_compute. repeat constructor; discriminate.
  - exists (bar_of_close 23). split.
    + vm_compute. do 19 right. left. reflexivity.
    + reflexivity.
Defined.

(* ================================================================== *)
(** ** Average true range *)

Lemma shift_column f df :
  shift (column f df) = removelast (NaN :: column f df).
Proof. destruct df; reflexivity. Qed.

Lemma true_range_rows bars : forall p,
  zip_with fmax_skipna
    (zip_with fmax_skipna
       (zip_with fsub (column high bars) (column low bars))
       (map fabs (zip_with fsub (column high bars)
                           (removelast (p :: column close bars)))))
    (map fabs (zip_with fsub (column low bars)
                        (removelast (p :: column close bars))))
  = tr_from p bars.
Proof.
  induction bars as [|b r IH]; intros p; [reflexivity|].
  change (column high (b :: r)) with (Fin (high b) :: column high r).
  change (column low (b :: r)) with (Fin (low b) :: column low r).
  change (removelast (p :: column close (b :: r)))
    with (p :: removelast (Fin (close b) :: column close r)).
  cbn [zip_with map tr_from]. rewrite IH. reflexivity.
Qed.

Lemma true_range_tr_from df : true_range df = tr_from NaN df.
Proof.
  unfold true_range. rewrite shift_column. apply true_range_rows.
Qed.

Lemma tr_row_first b : tr_row NaN b = Fin (high b + - low b).
Proof. reflexivity. Qed.

Lemma tr_row_nonneg p b : nonneg (tr_row (Fin p) b).
Proof.
  unfold tr_row. cbn [fsub fadd fneg fabs].
  destruct (fmax_fin (high b + - low b) (Qabs (high b + - p)))
    as (m1 & E1 & _ & _ & H1).
  assert (E1' : fmax_skipna (Fin (high b + - low b)) (Fin (Qabs (high b + - p)))
                = Fin m1) by exact E1.
  rewrite E1'.
  destruct (fmax_fin m1 (Qabs (low b + - p))) as (m2 & E2 & _ & _ & H2).
  assert (E2' : fmax_skipna (Fin m1) (Fin (Qabs (low b + - p))) = Fin m2)
    by exact E2.
  rewrite E2'. exists m2. split; [reflexivity|].
  pose proof (Qabs_nonneg (low b + - p)). lra.
Qed.

Lemma tr_from_nonneg bars : forall p, Forall nonneg (tr_from (Fin p) bars).
Proof.
  induction bars as [|b r IH]; intros p; [constructor|].
  cbn [tr_from]. constructor; [apply tr_row_nonneg | apply IH].
Qed.

Lemma nonneg_finite s : Forall nonneg s -> Forall finite s.
Proof.
  intros H. eapply Forall_impl; [|exact H].
  intros x (q & -> & _). exists q. reflexivity.
Qed.

Lemma tr_from_finite df : Forall finite (tr_from NaN df).
Proof.
  destruct df as [|b r]; [constructor|].
  cbn [tr_from]. constructor.
  - rewrite tr_row_first. eexists; reflexivity.
  - apply nonneg_finite, tr_from_nonneg.
Qed.

Lemma tr_from_app pre : forall p b0 w,
  tr_from p (pre ++ b0 :: w) =
  tr_from p (pre ++ [b0]) ++ tr_from (Fin (close b0)) w.
Proof.
  induction pre as [|y r IH]; intros p b0 w; simpl; [reflexivity|].
  rewrite IH. reflexivity.
Qed.

Lemma length_tr_from bars : forall p, length (tr_from p bars) = length bars.
Proof. induction bars as [|b r IH]; intros p; simpl; auto. Qed.

Lemma fold_finite s : forall a,
  Forall finite s -> exists q, fold_left fadd s (Fin a) = Fin q.
Proof.
  induction s as [|x r IH]; intros a H; [exists a; reflexivity|].
  inversion H as [|? ? Hx Hr]; subst. destruct Hx as (t & ->).
  cbn [fold_left fadd]. apply IH, Hr.
Qed.

Lemma win_mean_finite s :
  s <> [] -> Forall finite s -> exists q, win_mean s = Fin q.
Proof.
  intros Hne H. unfold win_mean, fsum, of_nat.
  destruct (fold_finite s 0 H) as (t & ->).
  assert (Hn : 0 < inject_Z (Z.of_nat (length s))).
  { apply inject_nat_pos. destruct s; [congruence | simpl; lia]. }
  cbn [fdiv]. rewrite Qeq_bool_false by lra. eexists; reflexivity.
Qed.

(** X16.  The ATR is a finite number as soon as the series has as many
    bars as the period: at index 0 the two distances to the previous close
    are NaN and the row maximum falls back to [high - low].  With more
    bars than the period the value is not negative, whatever the bars. *)
Theorem calculate_atr_defined (df : DataFrame) (period : nat) :
  (1 <= period <= length df)%nat ->
  exists q, calculate_atr df period = Ok (Fin q) /\
            ((period < length df)%nat -> 0 <= q).
Proof.
  intros Hp. unfold calculate_atr. rewrite true_range_tr_from.
  assert (Hne : tr_from NaN df <> []).
  { apply (nonempty_of_length _ (length df)); [apply length_tr_from | lia]. }
  rewrite rolling_last by exact Hne. rewrite length_tr_from.
  destruct (Nat.ltb_spec (length df) period); [lia|].
  destruct (Nat.eq_dec period (length df)) as [E|E].
  - destruct (win_mean_finite (lastn period (tr_from NaN df))) as (q & ->).
    + apply lastn_nonempty. rewrite length_tr_from. lia.
    + apply Forall_lastn, tr_from_finite.
    + exists q. split; [reflexivity | lia].
  - destruct (lastn_split df period) as (pre & b0 & w & Hdf & Hw & _ & _);
      [lia|].
    subst df. subst period.
    rewrite tr_from_app, lastn_app_exact by apply length_tr_from.
    destruct (win_mean_nonneg (tr_from (Fin (close b0)) w))
      as (q & -> & Hq & _).
    + apply (nonempty_of_length _ (length w)); [apply length_tr_from | lia].
    + apply tr_from_nonneg.
    + exists q. split; [reflexivity | intros _; exact Hq].
Qed.

Lemma calculate_atr_defined_witness :
  (exists q, calculate_atr ramp_10_23 14 = Ok (Fin q)) /\
  (exists q, calculate_atr (ramp_10_23 ++ [bar_of_close 24]) 14 = Ok (Fin q) /\
             0 <= q).
Proof.
  split.
  - destruct (calculate_atr_defined ramp_10_23 14) as (q & E & _);
      [simpl; lia|].
    exists q. exact E.
  - destruct (calculate_atr_defined (ramp_10_23 ++ [bar_of_close 24]) 14)
      as (q & E & H); [simpl; lia|].
    exists q. split; [exact E | apply H; simpl; lia].
Defined.

(* ================================================================== *)
(** ** Chande momentum oscillator *)

Lemma cmo_series_last (df : DataFrame) (w : nat) :
  (1 <= w <= length df)%nat ->
  iloc (cmo_series df w) (-1) =
  Ok (cmo_of (win_sum (lastn w (gains_from NaN df)))
             (win_sum (lastn w (losses_from NaN df)))).
Proof.
  intros Hw.
  assert (Hup : iloc (rolling w win_sum (gains_from NaN df)) (-1) =
                Ok (win_sum (lastn w (gains_from NaN df)))).
  { rewrite rolling_last.
    - rewrite length_gains_from.
      destruct (Nat.ltb_spec (length df) w); [lia | reflexivity].
    - apply (nonempty_of_length _ (length df));
        [apply length_gains_from | lia]. }
  assert (Hdn : iloc (rolling w win_sum (losses_from NaN df)) (-1) =
                Ok (win_sum (lastn w (losses_from NaN df)))).
  { rewrite rolling_last.
    - rewrite length_losses_from.
      destruct (Nat.ltb_spec (length df) w); [lia | reflexivity].
    - apply (nonempty_of_length _ (length df));
        [apply length_losses_from | lia]. }
  change (cmo_series df w)
    with (zip_with fdiv
            (map (fun x => fmul (Fin 100) x)
                 (zip_with fsub (rolling w win_sum (gains_from NaN df))
                           (rolling w win_sum (losses_from NaN df))))
            (zip_with fadd (rolling w win_sum (gains_from NaN df))
                      (rolling w win_sum (losses_from NaN df)))).
  unfold cmo_of. apply zip_with_last.
  - rewrite length_map, !length_zip_with, !length_rolling. reflexivity.
  - apply (map_last (fun x => fmul (Fin 100) x)).
    apply zip_with_last; [|exact Hup | exact Hdn].
    rewrite !length_rolling, length_gains_from, length_losses_from.
    reflexivity.
  - apply zip_with_last; [|exact Hup | exact Hdn].
    rewrite !length_rolling, length_gains_from, length_losses_from.
    reflexivity.
Qed.

Lemma rsi_of_value g l :
  0 <= g -> 0 <= l -> ~ (g == 0 /\ l == 0) ->
  exists q, rsi_of (fdiv (Fin g) (Fin l)) = Fin q /\
            q == 100 * g / (g + l).
Proof.
  intros Hg Hl Hgl. unfold rsi_of.
  destruct (Qeq_dec l 0) as [E|E].
  - assert (Hpos : 0 < g) by (destruct (Qeq_dec g 0); [tauto | lra]).
    cbn [fdiv]. rewrite Qeq_bool_true by exact E.
    unfold signed_inf. pose proof Hpos as Hgt. apply Qgt_alt in Hgt.
    rewrite Hgt.
    exists (100 + - 0). split; [reflexivity|].
    rewrite E. field. lra.
  - assert (Hr : 0 <= g / l) by (apply Qle_shift_div_l; lra).
    cbn [fdiv]. rewrite Qeq_bool_false by exact E.
    cbn [fadd fdiv]. rewrite Qeq_bool_false by lra.
    eexists. split; [reflexivity|].
    field. split; lra.
Qed.

Section WindowSums.

Variable b0 : Bar.
Variable win : list Bar.
Hypothesis win_nonempty : (1 <= length win)%nat.

Let n : Q := inject_Z (Z.of_nat (length win)).

Lemma window_sums :
  exists u d,
    0 <= u /\ 0 <= d /\
    win_sum (gains_from (Fin (close b0)) win) = Fin u /\
    win_sum (losses_from (Fin (close b0)) win) = Fin d /\
    win_mean (gains_from (Fin (close b0)) win) = Fin (u / n) /\
    win_mean (losses_from (Fin (close b0)) win) = Fin (d / n) /\
    (u == 0 -> d == 0 -> constant_close (close b0) win).
Proof.
  destruct (win_mean_fin_nonneg (gains_from (Fin (close b0)) win))
    as (u & Eu & Hu & Emu & Hzu).
  { apply (nonempty_of_length _ (length win));
      [apply length_gains_from | exact win_nonempty]. }
  { apply gains_from_nonneg. }
  destruct (win_mean_fin_nonneg (losses_from (Fin (close b0)) win))
    as (d & Ed & Hd & Emd & Hzd).
  { apply (nonempty_of_length _ (length win));
      [apply length_losses_from | exact win_nonempty]. }
  { apply losses_from_nonneg. }
  rewrite length_gains_from in Emu. rewrite length_losses_from in Emd.
  exists u, d. repeat split; try assumption.
  intros Hu0 Hd0. apply flat_if_no_moves; [apply Hzu, Hu0 | apply Hzd, Hd0].
Qed.

End WindowSums.

Lemma no_moves_if_flat c w : forall p,
  p == c -> constant_close c w ->
  all_fin 0 (gains_from (Fin p) w) /\ all_fin 0 (losses_from (Fin p) w).
Proof.
  induction w as [|b r IH]; intros p Hp Hc; [split; constructor|].
  inversion Hc as [|? ? Hb Hr]; subst.
  destruct (IH (close b) Hb Hr) as [Hg Hl].
  rewrite gains_from_cons, losses_from_cons. split; constructor; try assumption.
  - destruct (fgtb (Fin (close b + - p)) (Fin 0)) eqn:E.
    + apply fgtb_fin in E. lra.
    + reflexivity.
  - destruct (fgtb (Fin 0) (Fin (close b + - p))) eqn:E.
    + apply fgtb_fin in E. lra.
    + reflexivity.
Qed.

Lemma fdiv_zero_zero a b : a == 0 -> b == 0 -> fdiv (Fin a) (Fin b) = NaN.
Proof.
  intros Ha Hb. cbn [fdiv]. rewrite Qeq_bool_true by exact Hb.
  unfold signed_inf. apply Qeq_alt in Ha. rewrite Ha. reflexivity.
Qed.

(** X18.  With at least [w + 1] bars whose last [w + 1] closes are all
    equal, the average gain and the average loss are both 0 and the RSI
    and the CMO of period [w] are NaN, however the closes moved before. *)
Theorem flat_tail_rsi_cmo_nan (df : DataFrame) (w : nat) (c : Q) :
  (1 <= w)%nat -> (S w <= length df)%nat ->
  constant_close c (lastn (S w) df) ->
  calculate_rsi df w = Ok NaN /\ calculate_cmo df w = Ok NaN.
Proof.
  intros Hw Hlen Hflat.
  destruct (lastn_split df w Hlen) as (pre & b0 & win & Hdf & Hwin & H15 & _).
  pose proof (rsi_series_last df w ltac:(lia)) as Hrsi.
  pose proof (cmo_series_last df w ltac:(lia)) as Hcmo.
  subst df. subst w.
  rewrite gains_lastn, losses_lastn in Hrsi, Hcmo.
  rewrite H15 in Hflat. inversion Hflat as [|? ? Hb0 Hwin]; subst.
  destruct (no_moves_if_flat c win (close b0) Hb0 Hwin) as [Hg Hl].
  destruct (window_sums b0 win Hw)
    as (u & d & Hu & Hd & Eu & Ed & Emu & Emd & _).
  assert (Hu0 : u == 0).
  { pose proof (all_fin_fsum 0 _ Hg) as H. unfold win_sum in Eu.
    rewrite Eu in H. simpl in H. rewrite H. ring. }
  assert (Hd0 : d == 0).
  { pose proof (all_fin_fsum 0 _ Hl) as H. unfold win_sum in Ed.
    rewrite Ed in H. simpl in H. rewrite H. ring. }
  assert (Hn : 0 < inject_Z (Z.of_nat (length win)))
    by (apply inject_nat_pos, Hw).
  rewrite Emu, Emd in Hrsi. rewrite Eu, Ed in Hcmo.
  rewrite fdiv_zero_zero in Hrsi
    by (rewrite ?Hu0, ?Hd0; field; lra).
  unfold cmo_of in Hcmo. cbn [fsub fadd fneg fmul] in Hcmo.
  rewrite fdiv_zero_zero in Hcmo by (rewrite ?Hu0, ?Hd0; ring).
  split.
  - unfold calculate_rsi.
    destruct (forallb isna (rsi_series (pre ++ b0 :: win) (length win)));
      [reflexivity | exact Hrsi].
  - unfold calculate_cmo.
    destruct (forallb isna (cmo_series (pre ++ b0 :: win) (length win)));
      [reflexivity | exact Hcmo].
Qed.

Lemma flat_tail_rsi_cmo_nan_witness :
  calculate_rsi (ramp_10_23 ++ repeat (bar_of_close 5) 15) 14 = Ok NaN /\
  calculate_cmo (ramp_10_23 ++ repeat (bar_of_close 5) 15) 14 = Ok NaN.
Proof.
  apply (flat_tail_rsi_cmo_nan (ramp_10_23 ++ repeat (bar_of_close 5) 15) 14 5).
  - lia.
  - simpl. lia.
  - vm_compute. repeat constructor.
Defined.

(** X19.  [calculate_rsi] and [calculate_cmo] never raise: the all-NaN
    guard also covers the empty series, on which every other indicator
    that reads the last bar fails with IndexError. *)
Theorem rsi_cmo_never_raise (df : DataFrame) (w : nat) :
  (exists x, calculate_rsi df w = Ok x) /\
  (exists y, calculate_cmo df w = Ok y) /\
  calculate_rsi [] w = Ok NaN /\ calculate_cmo [] w = Ok NaN /\
  calculate_sma_50 [] = Raise IndexError /\
  calculate_macd [] = Raise IndexError /\
  calculate_atr [] w = Raise IndexError.
Proof.
  split; [|split; [|repeat split]].
  - unfold calculate_rsi.
    destruct (forallb isna (rsi_series df w)) eqn:E; [eexists; reflexivity|].
    apply iloc_last_some. intros H. rewrite H in E. discriminate.
  - unfold calculate_cmo.
    destruct (forallb isna (cmo_series df w)) eqn:E; [eexists; reflexivity|].
    apply iloc_last_some. intros H. rewrite H in E. discriminate.
Qed.

(* ================================================================== *)
(** ** The peer analysis of main.py *)

Lemma configured_cases coin symbol supply :
  config_get coin = Some (symbol, supply) ->
  In (coin, (symbol, supply)) COIN_CONFIG.
Proof.
  unfold config_get.
  destruct (find (fun e => String.eqb (fst e) coin) COIN_CONFIG)
    as [[k v]|] eqn:E; [|discriminate].
  apply find_some in E. destruct E as [Hin Heq].
  apply String.eqb_eq in Heq. simpl in Heq. subst k.
  simpl. intros [= ->]. exact Hin.
Qed.

Lemma collect_Forall2 {A B : Type} (f : A -> outcome B) l : forall ys,
  collect f l = Done ys -> Forall2 (fun x y => f x = Done y) l ys.
Proof.
  induction l as [|x r IH]; intros ys H; simpl in H.
  - injection H as <-. constructor.
  - destruct (f x) as [y|] eqn:Ex; [|discriminate].
    destruct (collect f r) as [ys'|] eqn:Er; [|discriminate].
    injection H as <-. constructor; [exact Ex | apply IH; reflexivity].
Qed.

Lemma collect_fst {A B : Type} (f : A -> outcome (A * B)) l : forall ys,
  (forall x y, f x = Done y -> fst y = x) ->
  collect f l = Done ys -> map fst ys = l.
Proof.
  intros ys Hf H. apply collect_Forall2 in H.
  induction H as [|x y r ys' Hxy _ IH]; [reflexivity|].
  simpl. rewrite (Hf x y Hxy), IH. reflexivity.
Qed.

Lemma peer_row_nvt sqrtQ df supply row :
  peer_row sqrtQ df supply = Ok row ->
  nvt_ratio row = calculate_nvt_ratio df supply.
Proof.
  unfold peer_row.
  destruct (calculate_mayer_multiple df); [|discriminate]. cbn [bind].
  destruct (calculate_price_volume_ratio df); [|discriminate]. cbn [bind].
  destruct (calculate_rsi df 14); [|discriminate]. cbn [bind].
  destruct (calculate_macd df); [|discriminate]. cbn [bind].
  intros [= <-]. reflexivity.
Qed.

Lemma own_symbol_supply coin symbol supply :
  config_get coin = Some (symbol, supply) ->
  supply_used (peer_symbols coin symbol) symbol = Done 500000000.
Proof.
  intros H. apply configured_cases in H. simpl in H.
  repeat (destruct H as [H|H]; [injection H as <- <- <-; reflexivity|]).
  contradiction.
Qed.

(** X20.  [run_peer_analysis] fails with KeyError on a coin that is not
    configured.  When it returns a table for a configured coin, the rows
    follow [peer_symbols] (the other coins in configuration order, the
    analysed coin last), and the row of the analysed coin carries an NVT
    ratio computed with the supply of the last configured coin
    (500,000,000, LINK's), not with its own: the supply is looked up by
    position in the reordered symbol list. *)
Theorem run_peer_analysis_own_row
    (fetch : String.string -> DataFrame) (sqrtQ : Q -> Q)
    (coin : String.string) :
  (config_get coin = None ->
   run_peer_analysis fetch sqrtQ coin = Failed KeyError) /\
  (forall symbol supply table,
     config_get coin = Some (symbol, supply) ->
     run_peer_analysis fetch sqrtQ coin = Done table ->
     map fst table = peer_symbols coin symbol /\
     exists init row,
       table = init ++ [(symbol, row)] /\
       nvt_ratio row = calculate_nvt_ratio (fetch symbol) 500000000).
Proof.
  split.
  - intros H. unfold run_peer_analysis. rewrite H. reflexivity.
  - intros symbol supply table Hcfg Hrun.
    unfold run_peer_analysis in Hrun. rewrite Hcfg in Hrun.
    cbv zeta in Hrun. split.
    + eapply collect_fst; [|exact Hrun].
      intros x y Hy. cbv beta in Hy.
      destruct (supply_used (peer_symbols coin symbol) x); [|discriminate].
      destruct (peer_row sqrtQ (fetch x) a); [|discriminate].
      injection Hy as <-. reflexivity.
    + apply collect_Forall2 in Hrun. unfold peer_symbols at 2 in Hrun.
      apply Forall2_app_inv_l in Hrun.
      destruct Hrun as (init & tl & _ & Hlast & ->).
      inversion Hlast as [|? y ? ? Hy Hnil]; subst.
      inversion Hnil; subst.
      rewrite (own_symbol_supply coin symbol supply Hcfg) in Hy.
      destruct (peer_row sqrtQ (fetch symbol) 500000000) as [row|] eqn:Er;
        [|discriminate].
      injection Hy as <-.
      exists init, row. split; [reflexivity|].
      apply (peer_row_nvt sqrtQ), Er.
Qed.

Lemma run_peer_analysis_own_row_witness :
  exists table init row,
    run_peer_analysis (fun _ => [bar_of_close 3; bar_of_close 4]) sqrt_approx
                      "BTC"%string
    = Done table /\
    table = init ++ [("BTCUSDT"%string, row)] /\
    nvt_ratio row =
    calculate_nvt_ratio [bar_of_close 3; bar_of_close 4] 500000000.
Proof.
  destruct (run_peer_analysis (fun _ => [bar_of_close 3; bar_of_close 4])
                              sqrt_approx "BTC"%string)
    as [table|] eqn:E; [|vm_compute in E; discriminate].
  destruct (run_peer_analysis_own_row
              (fun _ => [bar_of_close 3; bar_of_close 4]) sqrt_approx
              "BTC"%string) as [_ H].
  destruct (H "BTCUSDT"%string 19700000 table eq_refl E)
    as (_ & init & row & Ht & Hn).
  exists table, init, row. split; [reflexivity|]. split; assumption.
Defined.

(** [misaligned Hall]: some symbol of the list refutes the alignment
    [Hall]; [all_aligned]: every symbol of the list is aligned. *)
Ltac in_list := vm_compute; repeat (first [left; reflexivity | right]).

Ltac mismatch_at Hall s :=
  let q := fresh "q" in
  let Hu := fresh "Hu" in
  let Hc := fresh "Hc" in
  destruct (Hall s ltac:(in_list)) as (q & Hu & Hc);
  vm_compute in Hu, Hc; congruence.

Ltac misaligned Hall :=
  first [ mismatch_at Hall "BTCUSDT"%string
        | mismatch_at Hall "ETHUSDT"%string
        | mismatch_at Hall "AAVEUSDT"%string
        | mismatch_at Hall "SOLUSDT"%string
        | mismatch_at Hall "BNBUSDT"%string
        | mismatch_at Hall "UNIUSDT"%string
        | mismatch_at Hall "LINKUSDT"%string ].

Ltac all_aligned :=
  let s := fresh "s" in
  let Hs := fresh "Hs" in
  intros s Hs; vm_compute in Hs;
  repeat (destruct Hs as [<-|Hs]; [eexists; split; reflexivity|]);
  contradiction.

(** X21.  For a configured coin, every symbol of the peer list is paired
    with its own configured supply exactly when the analysed coin is the
    last configured one (LINK); for every other coin at least one symbol
    is evaluated with another coin's supply. *)
Theorem peer_supplies_aligned_iff_last
    (coin symbol : String.string) (supply : Q) :
  config_get coin = Some (symbol, supply) ->
  ((forall s, In s (peer_symbols coin symbol) ->
      exists q, supply_used (peer_symbols coin symbol) s = Done q /\
                supply_configured s = Some q)
   <-> coin = "LINK"%string).
Proof.
  intros H. apply configured_cases in H. simpl in H.
  repeat (destruct H as [H|H];
          [injection H as <- <- <-; split;
           [ first [ reflexivity | intros Hall; exfalso; misaligned Hall ]
           | intros Heq; first [ discriminate Heq | all_aligned ] ]
          |]).
  contradiction.
Qed.

Lemma peer_supplies_aligned_iff_last_witness :
  exists q,
    supply_used (peer_symbols "LINK"%string "LINKUSDT"%string)
                "ETHUSDT"%string = Done q /\
    supply_configured "ETHUSDT"%string = Some q.
Proof.
  apply (proj2 (peer_supplies_aligned_iff_last
                  "LINK"%string "LINKUSDT"%string 500000000 eq_refl)
               eq_refl).
  vm_compute. right. left. reflexivity.
Defined.

Lemma collect_all_done {A B : Type} (f : A -> outcome B) l :
  (forall x, In x l -> exists y, f x = Done y) ->
  exists ys, collect f l = Done ys /\ length ys = length l.
Proof.
  induction l as [|x r IH]; intros H.
  - exists []. split; reflexivity.
  - destruct (H x (or_introl eq_refl)) as (y & Ey).
    destruct IH as (ys & Eys & Hl); [intros z Hz; apply H; right; exact Hz|].
    exists (y :: ys). simpl. rewrite Ey, Eys, Hl. split; reflexivity.
Qed.

Lemma collect_some_failed {A B : Type} (f : A -> outcome B) l e :
  (forall x, In x l -> (exists y, f x = Done y) \/ f x = Failed e) ->
  (exists x, In x l /\ f x = Failed e) ->
  collect f l = Failed e.
Proof.
  induction l as [|x r IH]; intros Hall (z & Hz & Ez); [contradiction|].
  simpl. destruct (Hall x (or_introl eq_refl)) as [(y & Ey)|Ey].
  - rewrite Ey. rewrite IH; [reflexivity | |].
    + intros w Hw. apply Hall. right. exact Hw.
    + destruct Hz as [->|Hz]; [congruence|]. exists z. split; assumption.
  - rewrite Ey. reflexivity.
Qed.

Lemma calculate_macd_nonempty df :
  df <> [] -> exists m, calculate_macd df = Ok m.
Proof.
  intros Hne. unfold calculate_macd.
  assert (Hlen : (1 <= length df)%nat)
    by (destruct df; [congruence | simpl; lia]).
  assert (Hl : length (zip_with fsub (ewm_mean 12 (column close df))
                                (ewm_mean 26 (column close df))) = length df).
  { rewrite length_zip_with, !length_ewm_mean, length_column. apply Nat.min_id. }
  destruct (iloc_last_some _ (nonempty_of_length _ _ Hl Hlen)) as (m & ->).
  destruct (iloc_last_some (ewm_mean 9
              (zip_with fsub (ewm_mean 12 (column close df))
                        (ewm_mean 26 (column close df))))) as (s & ->).
  { apply (nonempty_of_length _ (length df)); [|exact Hlen].
    rewrite length_ewm_mean. exact Hl. }
  eexists. reflexivity.
Qed.

Lemma peer_row_nonempty sqrtQ df supply :
  df <> [] -> exists row, peer_row sqrtQ df supply = Ok row.
Proof.
  intros Hne. unfold peer_row.
  assert (Hcol : column close df <> [])
    by (destruct df; [congruence | discriminate]).
  destruct (iloc_last_some _ Hcol) as (c & Ec).
  unfold calculate_mayer_multiple, calculate_price_volume_ratio.
  rewrite rolling_last by exact Hcol. rewrite Ec. cbn [bind].
  destruct (calculate_macd_nonempty df Hne) as (m & ->).
  assert (Hrsi : exists r, calculate_rsi df 14 = Ok r).
  { unfold calculate_rsi.
    destruct (forallb isna (rsi_series df 14)) eqn:E; [eexists; reflexivity|].
    apply iloc_last_some. intros H. rewrite H in E. discriminate. }
  destruct Hrsi as (r & ->). cbn [bind].
  eexists. reflexivity.
Qed.

Lemma peer_row_empty sqrtQ supply :
  peer_row sqrtQ [] supply = Raise IndexError.
Proof. reflexivity. Qed.

Lemma supply_used_defined coin symbol supply s :
  config_get coin = Some (symbol, supply) ->
  In s (peer_symbols coin symbol) ->
  exists q, supply_used (peer_symbols coin symbol) s = Done q.
Proof.
  intros H Hs. apply configured_cases in H. simpl in H.
  repeat (destruct H as [H|H];
          [injection H as <- <- <-; vm_compute in Hs;
           repeat (destruct Hs as [<-|Hs]; [eexists; reflexivity|]);
           contradiction
          |]).
  contradiction.
Qed.

(** X22.  For a configured coin, [run_peer_analysis] returns a table of
    seven rows when every fetched frame is non-empty, and the whole
    analysis fails with IndexError as soon as one fetched frame is empty:
    a failing indicator is not isolated to its own row. *)
Theorem run_peer_analysis_all_or_nothing
    (fetch : String.string -> DataFrame) (sqrtQ : Q -> Q)
    (coin symbol : String.string) (supply : Q) :
  config_get coin = Some (symbol, supply) ->
  ((forall s, In s (peer_symbols coin symbol) -> fetch s <> []) ->
   exists table,
     run_peer_analysis fetch sqrtQ coin = Done table /\
     length table = 7%nat) /\
  ((exists s, In s (peer_symbols coin symbol) /\ fetch s = []) ->
   run_peer_analysis fetch sqrtQ coin = Failed (Indicator IndexError)).
Proof.
  intros Hcfg. unfold run_peer_analysis. rewrite Hcfg. cbv zeta.
  assert (Hlen : length (peer_symbols coin symbol) = 7%nat).
  { pose proof (configured_cases _ _ _ Hcfg) as H. simpl in H.
    repeat (destruct H as [H|H]; [injection H as <- <- <-; reflexivity|]).
    contradiction. }
  split.
  - intros Hne.
    destruct (collect_all_done
                (fun s =>
                   match supply_used (peer_symbols coin symbol) s with
                   | Failed e => Failed e
                   | Done q =>
                       match peer_row sqrtQ (fetch s) q with
                       | Raise e => Failed (Indicator e)
                       | Ok row => Done (s, row)
                       end
                   end)
                (peer_symbols coin symbol)) as (table & E & Hl).
    + intros s Hs.
      destruct (supply_used_defined coin symbol supply s Hcfg Hs) as (q & ->).
      destruct (peer_row_nonempty sqrtQ (fetch s) q (Hne s Hs)) as (row & ->).
      eexists. reflexivity.
    + exists table. split; [exact E | rewrite Hl; exact Hlen].
  - intros (s & Hs & Hempty). apply collect_some_failed.
    + intros x Hx.
      destruct (supply_used_defined coin symbol supply x Hcfg Hx) as (q & ->).
      destruct (fetch x) as [|b r] eqn:Ef.
      * right. reflexivity.
      * left.
        destruct (peer_row_nonempty sqrtQ (b :: r) q) as (row & ->);
          [discriminate|].
        eexists. reflexivity.
    + exists s. split; [exact Hs|].
      destruct (supply_used_defined coin symbol supply s Hcfg Hs) as (q & ->).
      rewrite Hempty. reflexivity.
Qed.

Lemma run_peer_analysis_all_or_nothing_witness :
  (exists table,
     run_peer_analysis (fun _ => [bar_of_close 3]) sqrt_approx "ETH"%string
     = Done table /\ length table = 7%nat) /\
  run_peer_analysis
    (fun s => if String.eqb s "SOLUSDT"%string then [] else [bar_of_close 3])
    sqrt_approx "ETH"%string
  = Failed (Indicator IndexError).
Proof.
  split.
  - apply (run_peer_analysis_all_or_nothing
             (fun _ => [bar_of_close 3]) sqrt_approx
             "ETH"%string "ETHUSDT"%string 120000000 eq_refl).
    intros s _. discriminate.
  - apply (run_peer_analysis_all_or_nothing
             (fun s => if String.eqb s "SOLUSDT"%string then []
                       else [bar_of_close 3])
             sqrt_approx "ETH"%string "ETHUSDT"%string 120000000 eq_refl).
    exists "SOLUSDT"%string. split; [|reflexivity].
    vm_compute. do 2 right. left. reflexivity.
Defined.

(* ================================================================== *)
(** ** Binary64 rounding *)

Lemma round_half_even_close n d :
  (0 < d)%Z ->
  (2 * Z.abs (round_half_even n d * d - n) <= d)%Z.
Proof.
  intros Hd. unfold round_half_even.
  pose proof (Z.div_mod n d ltac:(lia)) as E.
  pose proof (Z.mod_pos_bound n d Hd) as Hr.
  destruct (2 * (n mod d) <? d)%Z eqn:E1.
  - apply Z.ltb_lt in E1. nia.
  - apply Z.ltb_ge in E1.
    destruct (d <? 2 * (n mod d))%Z eqn:E2.
    + apply Z.ltb_lt in E2. nia.
    + apply Z.ltb_ge in E2. destruct (Z.even (n / d)); nia.
Qed.

Lemma two_pow_pos z : 0 < 2 ^ z.
Proof. apply Qpower_0_lt. reflexivity. Qed.

Lemma inject_two_pow z : (0 <= z)%Z -> inject_Z (2 ^ z) == 2 ^ z.
Proof. intros H. exact (Zpower_Qpower 2 z H). Qed.

Lemma two_pow_add a b : 2 ^ (a + b) == 2 ^ a * 2 ^ b.
Proof. apply Qpower_plus. discriminate. Qed.

Lemma two_pow_opp a : 2 ^ (- a) == / 2 ^ a.
Proof. apply Qpower_opp. Qed.

(** The exponent chosen by [b64_pos] is not above the value. *)
Lemma b64_exponent a b :
  (0 < a)%Z -> (0 < b)%Z ->
  let e0 := (Z.log2 a - Z.log2 b)%Z in
  let below :=
    if (0 <=? e0)%Z then (a <? b * 2 ^ e0)%Z else (a * 2 ^ (- e0) <? b)%Z in
  let e := if below then (e0 - 1)%Z else e0 in
  2 ^ e * inject_Z b <= inject_Z a.
Proof.
  intros Ha Hb e0 below e.
  pose proof (Z.log2_spec a Ha) as [La _].
  pose proof (Z.log2_spec b Hb) as [_ Lb].
  pose proof (Z.log2_nonneg a). pose proof (Z.log2_nonneg b).
  assert (Hlow : 2 ^ (e0 - 1) * inject_Z b <= inject_Z a).
  { unfold e0.
    replace (Z.log2 a - Z.log2 b - 1)%Z
      with (Z.log2 a + - Z.succ (Z.log2 b))%Z by lia.
    rewrite two_pow_add, two_pow_opp.
    rewrite <- !inject_two_pow by lia.
    assert (Hb1 : inject_Z b <= inject_Z (2 ^ Z.succ (Z.log2 b)))
      by (rewrite <- Zle_Qle; lia).
    assert (Ha1 : inject_Z (2 ^ Z.log2 a) <= inject_Z a)
      by (rewrite <- Zle_Qle; lia).
    assert (Hp : 0 < inject_Z (2 ^ Z.succ (Z.log2 b))).
    { rewrite inject_two_pow by lia. apply two_pow_pos. }
    assert (Hq : 0 < inject_Z (2 ^ Z.log2 a)).
    { rewrite inject_two_pow by lia. apply two_pow_pos. }
    assert (Hb0 : 0 < inject_Z b) by (change 0 with (inject_Z 0); rewrite <- Zlt_Qlt; lia).
    set (x := inject_Z (2 ^ Z.log2 a)) in *.
    set (y := inject_Z (2 ^ Z.succ (Z.log2 b))) in *.
    assert (E : x * / y * inject_Z b == x * (inject_Z b / y)) by (field; lra).
    rewrite E.
    assert (inject_Z b / y <= 1) by (apply Qle_shift_div_r; lra).
    nra. }
  unfold e. destruct below eqn:Eb; [exact Hlow|].
  unfold below in Eb.
  destruct (0 <=? e0)%Z eqn:E0.
  - apply Z.leb_le in E0. apply Z.ltb_ge in Eb.
    rewrite <- inject_two_pow by lia.
    rewrite <- inject_Z_mult, <- Zle_Qle. lia.
  - apply Z.leb_gt in E0. apply Z.ltb_ge in Eb.
    replace e0 with (- (- e0))%Z by lia.
    rewrite two_pow_opp. rewrite <- inject_two_pow by lia.
    assert (Hp : 0 < inject_Z (2 ^ (- e0))).
    { rewrite inject_two_pow by lia. apply two_pow_pos. }
    assert (Hm : inject_Z b <= inject_Z a * inject_Z (2 ^ (- e0)))
      by (rewrite <- inject_Z_mult, <- Zle_Qle; exact Eb).
    set (y := inject_Z (2 ^ (- e0))) in *.
    assert (E : / y * inject_Z b == inject_Z b / y) by (field; lra).
    rewrite E. apply Qle_shift_div_r; lra.
Qed.

Lemma round_bound (a b k P x : Q) :
  0 < b -> 0 < P -> x == a / b ->
  - (b * P) <= 2 * (k * b * P - a) <= b * P ->
  P <= 2 * u64 * x ->
  x * (1 - u64) <= k * P <= x * (1 + u64).
Proof.
  intros Hb HP Hx [Hk1 Hk2] Hu. unfold u64 in *.
  assert (Exb : x * b == a) by (rewrite Hx; field; lra).
  assert (Hub : P * b <= 2 * (1 # 9007199254740992) * x * b)
    by (apply Qmult_le_compat_r; lra).
  split.
  - apply (Qmult_le_r _ _ b Hb).
    assert (E1 : x * (1 - (1 # 9007199254740992)) * b
                 == x * b * (1 - (1 # 9007199254740992))) by ring.
    assert (E2 : k * P * b == k * b * P) by ring.
    assert (E3 : 2 * (1 # 9007199254740992) * x * b
                 == 2 * (1 # 9007199254740992) * (x * b)) by ring.
    assert (E4 : b * P == P * b) by ring.
    rewrite E1, E2, Exb. rewrite E3, Exb in Hub. rewrite E4 in Hk1.
    clear Hx Exb E1 E2 E3 E4 Hu Hk2.
    set (X := P * b) in *. set (Y := k * b * P) in *. clearbody X Y. lra.
  - apply (Qmult_le_r _ _ b Hb).
    assert (E1 : x * (1 + (1 # 9007199254740992)) * b
                 == x * b * (1 + (1 # 9007199254740992))) by ring.
    assert (E2 : k * P * b == k * b * P) by ring.
    assert (E3 : 2 * (1 # 9007199254740992) * x * b
                 == 2 * (1 # 9007199254740992) * (x * b)) by ring.
    assert (E4 : b * P == P * b) by ring.
    rewrite E1, E2, Exb. rewrite E3, Exb in Hub. rewrite E4 in Hk2.
    clear Hx Exb E1 E2 E3 E4 Hu Hk1.
    set (X := P * b) in *. set (Y := k * b * P) in *. clearbody X Y. lra.
Qed.

Lemma b64_pos_bound a b :
  (0 < a)%Z -> (0 < b)%Z ->
  let x := inject_Z a / inject_Z b in
  x * (1 - u64) <= b64_pos a b <= x * (1 + u64).
Proof.
  intros Ha Hb x. unfold b64_pos.
  pose proof (b64_exponent a b Ha Hb) as He. cbv zeta in He.
  set (e := if (if (0 <=? Z.log2 a - Z.log2 b)%Z
                then (a <? b * 2 ^ (Z.log2 a - Z.log2 b))%Z
                else (a * 2 ^ (- (Z.log2 a - Z.log2 b)) <? b)%Z)
            then (Z.log2 a - Z.log2 b - 1)%Z
            else (Z.log2 a - Z.log2 b)%Z) in *.
  assert (Hb0 : 0 < inject_Z b)
    by (change 0 with (inject_Z 0); rewrite <- Zlt_Qlt; lia).
  assert (Hex : 2 ^ e <= x).
  { unfold x. apply Qle_shift_div_l; [exact Hb0 | exact He]. }
  assert (Hs : 2 ^ (e - 52) <= 2 * u64 * x).
  { replace (e - 52)%Z with (e + - 52)%Z by lia.
    rewrite two_pow_add.
    assert (E : 2 ^ (- 52) == 2 * u64) by reflexivity.
    rewrite E. pose proof (two_pow_pos e). nra. }
  destruct (e - 52 <? 0)%Z eqn:Es.
  - apply Z.ltb_lt in Es.
    set (M := (2 ^ (- (e - 52)))%Z).
    assert (HM : (0 < M)%Z) by (apply Z.pow_pos_nonneg; lia).
    assert (HMq : inject_Z M == 2 ^ (- (e - 52)))
      by (apply inject_two_pow; lia).
    assert (HMq0 : 0 < inject_Z M)
      by (change 0 with (inject_Z 0); rewrite <- Zlt_Qlt; lia).
    pose proof (round_half_even_close (a * M) b Hb) as Hr.
    set (k := round_half_even (a * M) b) in *.
    assert (E : inject_Z k / inject_Z M == inject_Z k * / inject_Z M)
      by reflexivity.
    rewrite E.
    apply (round_bound (inject_Z a) (inject_Z b)); try assumption.
    + apply Qinv_lt_0_compat, HMq0.
    + reflexivity.
    + assert (Hz : (- b <= 2 * (k * b - a * M) <= b)%Z) by lia.
      destruct Hz as [Hz1 Hz2].
      rewrite Zle_Qle in Hz1, Hz2. unfold Z.sub in Hz1, Hz2.
      repeat rewrite ?inject_Z_plus, ?inject_Z_mult, ?inject_Z_opp in Hz1.
      repeat rewrite ?inject_Z_plus, ?inject_Z_mult, ?inject_Z_opp in Hz2.
      change (inject_Z 2) with 2 in *.
      set (kq := inject_Z k) in *. set (aq := inject_Z a) in *.
      set (bq := inject_Z b) in *. set (Mq := inject_Z M) in *.
      assert (E1 : 2 * (kq * bq * / Mq - aq)
                   == 2 * (kq * bq - aq * Mq) / Mq) by (field; lra).
      assert (E2 : bq * / Mq == bq / Mq) by reflexivity.
      rewrite E1, E2. split.
      * assert (E3 : - (bq / Mq) == (- bq) / Mq) by (field; lra).
        rewrite E3. apply Qle_shift_div_l; [exact HMq0|].
        assert (E4 : - bq / Mq * Mq == - bq) by (field; lra).
        rewrite E4. exact Hz1.
      * apply Qle_shift_div_r; [exact HMq0|].
        assert (E4 : bq / Mq * Mq == bq) by (field; lra).
        rewrite E4. exact Hz2.
    + rewrite HMq, <- two_pow_opp.
      replace (- - (e - 52))%Z with (e - 52)%Z by lia. exact Hs.
  - apply Z.ltb_ge in Es.
    set (M := (2 ^ (e - 52))%Z).
    assert (HM : (0 < M)%Z) by (apply Z.pow_pos_nonneg; lia).
    assert (HMq : inject_Z M == 2 ^ (e - 52))
      by (apply inject_two_pow; lia).
    assert (HMq0 : 0 < inject_Z M)
      by (change 0 with (inject_Z 0); rewrite <- Zlt_Qlt; lia).
    pose proof (round_half_even_close a (b * M) ltac:(lia)) as Hr.
    set (k := round_half_even a (b * M)) in *.
    apply (round_bound (inject_Z a) (inject_Z b)); try assumption.
    + reflexivity.
    + assert (Hz : (- (b * M) <= 2 * (k * (b * M) - a) <= b * M)%Z) by lia.
      destruct Hz as [Hz1 Hz2].
      rewrite Zle_Qle in Hz1, Hz2. unfold Z.sub in Hz1, Hz2.
      repeat rewrite ?inject_Z_plus, ?inject_Z_mult, ?inject_Z_opp in Hz1.
      repeat rewrite ?inject_Z_plus, ?inject_Z_mult, ?inject_Z_opp in Hz2.
      change (inject_Z 2) with 2 in *.
      split; lra.
    + rewrite HMq. exact Hs.
Qed.

Lemma b64_bound x :
  0 < x -> x * (1 - u64) <= b64 x <= x * (1 + u64).
Proof.
  intros Hx. unfold b64. destruct x as [n d]. simpl Qnum. simpl Qden.
  destruct n as [|a|a].
  - unfold Qlt in Hx. simpl in Hx. lia.
  - pose proof (b64_pos_bound (Zpos a) (Zpos d) ltac:(lia) ltac:(lia)) as H.
    cbv zeta in H.
    assert (E : Zpos a # d == inject_Z (Zpos a) / inject_Z (Zpos d))
      by (apply Qmake_Qdiv).
    rewrite E. exact H.
  - unfold Qlt in Hx. simpl in Hx. lia.
Qed.

Lemma b64_faithful : faithful b64.
Proof.
  intros x. destruct (Qlt_le_dec 0 x) as [Hx|Hx].
  - destruct (b64_bound x Hx) as [H1 H2].
    rewrite (Qabs_pos x) by lra.
    apply Qabs_Qle_condition. split; lra.
  - destruct (Qle_lt_or_eq _ _ Hx) as [Hn|Hz].
    + assert (Hm : 0 < - x) by lra.
      pose proof (b64_bound (- x) Hm) as [H1 H2].
      assert (E : b64 (- x) == - b64 x).
      { unfold b64. destruct x as [[|p|p] d]; simpl in *.
        - reflexivity.
        - exfalso. revert Hn. unfold Qlt. simpl. lia.
        - ring. }
      rewrite E in H1, H2.
      rewrite (Qabs_neg x) by lra.
      apply Qabs_Qle_condition. split; lra.
    + assert (E : b64 x = 0).
      { unfold b64. destruct x as [[|p|p] d]; simpl in *.
        - reflexivity.
        - exfalso. revert Hz. unfold Qeq. simpl. lia.
        - exfalso. revert Hz. unfold Qeq. simpl. lia. }
      rewrite E. rewrite Hz. vm_compute. discriminate.
Qed.

Lemma pow64_faithful : faithful_pow pow64.
Proof.
  intros x t Hx. unfold pow64.
  assert (Hp : 0 < x ^ Z.of_nat t) by (apply Qpower_0_lt; exact Hx).
  pose proof (b64_faithful (x ^ Z.of_nat t)) as H.
  rewrite (Qabs_pos (x ^ Z.of_nat t)) in H by lra.
  eapply Qle_trans; [exact H|].
  assert (Hu : 0 < u64) by reflexivity.
  nra.
Qed.

(* ================================================================== *)
(** ** Agreement up to roundings *)

Local Abbreviation spow k := ((1 - u64) ^ Z.of_nat k).

Lemma u64_pos : 0 < u64.
Proof. reflexivity. Qed.

Lemma spow_pos k : 0 < spow k.
Proof. apply Qpower_0_lt. reflexivity. Qed.

Lemma spow_S k : spow (S k) == (1 - u64) * spow k.
Proof.
  rewrite Nat2Z.inj_succ. unfold Z.succ.
  rewrite Qpower_plus by discriminate. simpl (_ ^ 1). ring.
Qed.

Lemma spow_add j k : spow (j + k) == spow j * spow k.
Proof. rewrite Nat2Z.inj_add. apply Qpower_plus. discriminate. Qed.

Lemma spow_le1 k : spow k <= 1.
Proof.
  induction k as [|k IH]; [discriminate|].
  rewrite spow_S. pose proof (spow_pos k). pose proof u64_pos. nra.
Qed.

Lemma spow_mono j k : (j <= k)%nat -> spow k <= spow j.
Proof.
  intros H. replace k with ((k - j) + j)%nat by lia.
  rewrite spow_add. pose proof (spow_le1 (k - j)). pose proof (spow_pos j).
  nra.
Qed.

Lemma spow_bernoulli k : 1 - inject_Z (Z.of_nat k) * u64 <= spow k.
Proof.
  induction k as [|k IH]; [discriminate|].
  rewrite spow_S, Nat2Z.inj_succ. unfold Z.succ. rewrite inject_Z_plus.
  change (inject_Z 1) with 1.
  assert (Hk : 0 <= inject_Z (Z.of_nat k))
    by (change 0 with (inject_Z 0); rewrite <- Zle_Qle; lia).
  pose proof u64_pos as Hu.
  set (n := inject_Z (Z.of_nat k)) in *. set (p := spow k) in *.
  assert (H1 : 0 <= (1 - u64) * (p - (1 - n * u64))).
  { apply Qmult_le_0_compat; [|lra]. vm_compute; discriminate. }
  assert (H2 : 0 <= n * (u64 * u64)).
  { apply Qmult_le_0_compat; [exact Hk|]. vm_compute; discriminate. }
  lra.
Qed.

#[global] Instance near_Proper k : Proper (Qeq ==> Qeq ==> iff) (near k).
Proof.
  intros x x' Ex y y' Ey. unfold near. rewrite Ex, Ey. reflexivity.
Qed.

Lemma near_refl k x : 0 <= x -> near k x x.
Proof.
  intros H. pose proof (spow_le1 k). pose proof (spow_pos k).
  unfold near. repeat split; try assumption; nra.
Qed.

Lemma near_mono j k x y : (j <= k)%nat -> near j x y -> near k x y.
Proof.
  intros Hjk (Hx & Hy & H1 & H2). pose proof (spow_mono j k Hjk).
  pose proof (spow_pos k). unfold near. repeat split; try assumption; nra.
Qed.

Lemma near_pos k x y : near k x y -> 0 < y -> 0 < x.
Proof.
  intros (Hx & Hy & H1 & H2) Hp. pose proof (spow_pos k). nra.
Qed.

Lemma near_zero k x : near k x 0 -> x == 0.
Proof.
  intros (Hx & Hy & H1 & H2). pose proof (spow_pos k). nra.
Qed.

Lemma near_trans j k a b c : near j a b -> near k b c -> near (j + k) a c.
Proof.
  intros (Ha & Hb & H1 & H2) (_ & Hc & H3 & H4).
  pose proof (spow_pos j). pose proof (spow_pos k).
  unfold near. rewrite spow_add. repeat split; try assumption.
  - apply Qle_trans with (b * spow j); [|exact H1].
    setoid_replace (c * (spow j * spow k)) with ((c * spow k) * spow j) by ring.
    apply Qmult_le_compat_r; [exact H3 | lra].
  - apply Qle_trans with (b * spow k); [|exact H4].
    setoid_replace (a * (spow j * spow k)) with ((a * spow j) * spow k) by ring.
    apply Qmult_le_compat_r; [exact H2 | lra].
Qed.

Lemma near_add k a A b B : near k a A -> near k b B -> near k (a + b) (A + B).
Proof.
  intros (Ha & HA & H1 & H2) (Hb & HB & H3 & H4).
  unfold near. repeat split; lra.
Qed.

Lemma near_mul j k a A b B :
  near j a A -> near k b B -> near (j + k) (a * b) (A * B).
Proof.
  intros (Ha & HA & H1 & H2) (Hb & HB & H3 & H4).
  pose proof (spow_pos j). pose proof (spow_pos k).
  unfold near. rewrite spow_add. repeat split.
  - apply Qmult_le_0_compat; assumption.
  - apply Qmult_le_0_compat; assumption.
  - setoid_replace (A * B * (spow j * spow k))
      with ((A * spow j) * (B * spow k)) by ring.
    apply Qle_trans with (a * (B * spow k)).
    + apply Qmult_le_compat_r; [exact H1|]. apply Qmult_le_0_compat; lra.
    + rewrite !(Qmult_comm a). apply Qmult_le_compat_r; assumption.
  - setoid_replace (a * b * (spow j * spow k))
      with ((a * spow j) * (b * spow k)) by ring.
    apply Qle_trans with (A * (b * spow k)).
    + apply Qmult_le_compat_r; [exact H2|]. apply Qmult_le_0_compat; lra.
    + rewrite !(Qmult_comm A). apply Qmult_le_compat_r; assumption.
Qed.

Lemma near_inv k b B : near k b B -> 0 < B -> near k (/ b) (/ B).
Proof.
  intros Hn HB. pose proof (near_pos _ _ _ Hn HB) as Hb.
  destruct Hn as (_ & _ & H1 & H2).
  unfold near. repeat split.
  - apply Qlt_le_weak, Qinv_lt_0_compat, Hb.
  - apply Qlt_le_weak, Qinv_lt_0_compat, HB.
  - setoid_replace (/ b) with (1 / b) by (unfold Qdiv; ring).
    apply Qle_shift_div_l; [exact Hb|].
    setoid_replace (/ B * spow k * b) with ((b * spow k) / B)
      by (unfold Qdiv; ring).
    apply Qle_shift_div_r; [exact HB|]. lra.
  - setoid_replace (/ B) with (1 / B) by (unfold Qdiv; ring).
    apply Qle_shift_div_l; [exact HB|].
    setoid_replace (/ b * spow k * B) with ((B * spow k) / b)
      by (unfold Qdiv; ring).
    apply Qle_shift_div_r; [exact Hb|]. lra.
Qed.

Lemma near_div j k a A b B :
  near j a A -> near k b B -> 0 < B -> near (j + k) (a / b) (A / B).
Proof.
  intros Ha Hb HB. unfold Qdiv. apply near_mul; [exact Ha|].
  apply near_inv; assumption.
Qed.

Lemma near_pow k x X t :
  near k x X -> near (t * k) (x ^ Z.of_nat t) (X ^ Z.of_nat t).
Proof.
  intros H. induction t as [|t IH].
  - simpl. apply near_refl. discriminate.
  - assert (E : forall y, y ^ Z.of_nat (S t) == y * y ^ Z.of_nat t).
    { intros y. rewrite Nat2Z.inj_succ. unfold Z.succ.
      rewrite Qpower_plus' by lia. simpl (_ ^ 1). ring. }
    rewrite !E. simpl Nat.mul. apply near_mul; assumption.
Qed.

(** The relative distance of two numbers that agree up to [k] roundings. *)
Lemma near_rel k x y :
  near k x y -> inject_Z (Z.of_nat k) * u64 <= 1 # 2 ->
  Qabs (x - y) <= 2 * inject_Z (Z.of_nat k) * u64 * y.
Proof.
  intros (Hx & Hy & H1 & H2) Hk.
  pose proof (spow_bernoulli k) as Hb. pose proof (spow_pos k) as Hs.
  pose proof u64_pos as Hu.
  assert (Hk0 : 0 <= inject_Z (Z.of_nat k))
    by (change 0 with (inject_Z 0); rewrite <- Zle_Qle; lia).
  set (e := inject_Z (Z.of_nat k) * u64) in *.
  assert (He : 0 <= e) by (unfold e; nra).
  assert (H3 : y * (1 - e) <= x) by nra.
  assert (H4 : x * (1 - e) <= y) by nra.
  apply Qabs_Qle_condition. split.
  - setoid_replace (2 * inject_Z (Z.of_nat k) * u64 * y) with (2 * e * y)
      by (unfold e; ring). nra.
  - setoid_replace (2 * inject_Z (Z.of_nat k) * u64 * y) with (2 * e * y)
      by (unfold e; ring). nra.
Qed.

(** A result with relative error at most [2 u] agrees up to three
    roundings. *)
Lemma near_of_rel2 x y :
  0 <= y -> Qabs (x - y) <= 2 * u64 * y -> near 3 x y.
Proof.
  intros Hy H. apply Qabs_Qle_condition in H. destruct H as [H1 H2].
  assert (C1 : spow 3 <= 1 - 2 * u64) by (vm_compute; discriminate).
  assert (C2 : (1 + 2 * u64) * spow 3 <= 1) by (vm_compute; discriminate).
  pose proof (spow_pos 3) as Hs. pose proof u64_pos as Hu.
  unfold near. set (s := spow 3) in *. clearbody s.
  assert (P1 : 0 <= y * (1 - 2 * u64 - s))
    by (apply Qmult_le_0_compat; lra).
  assert (P0 : 0 <= y * (1 - 2 * u64)).
  { apply Qmult_le_0_compat; [exact Hy|]. vm_compute; discriminate. }
  assert (Hx : 0 <= x) by lra.
  assert (P2 : 0 <= (y * (1 + 2 * u64) - x) * s)
    by (apply Qmult_le_0_compat; lra).
  assert (P3 : 0 <= y * (1 - (1 + 2 * u64) * s))
    by (apply Qmult_le_0_compat; lra).
  repeat split; lra.
Qed.

(* ------------------------------------------------------------------ *)
(** *** Signs *)

#[global] Instance sg_Proper n : Proper (Qeq ==> Qeq) (sg n).
Proof. intros x y E. destruct n; simpl; rewrite E; reflexivity. Qed.

Lemma sg_mul n a b : sg n (a * b) == sg n a * b.
Proof. destruct n; simpl; ring. Qed.

Lemma sg_xorb_mul m n p q : sg (xorb m n) (p * q) == sg m p * sg n q.
Proof. destruct m, n; simpl; ring. Qed.

Lemma sg_div n a b : sg n (a / b) == sg n a / b.
Proof. destruct n; simpl; unfold Qdiv; ring. Qed.

Lemma sg_add n a b : sg n (a + b) == sg n a + sg n b.
Proof. destruct n; simpl; ring. Qed.

Lemma sg_sg n a : sg n (sg n a) == a.
Proof. destruct n; simpl; ring. Qed.

Lemma sg_ratio n a b : ~ b == 0 -> a / b == sg n a / sg n b.
Proof. intros Hb. destruct n; simpl; [field; lra | reflexivity]. Qed.

Lemma sg_abs n x : 0 <= sg n x -> Qabs x == sg n x.
Proof.
  destruct n; simpl; intros H.
  - apply Qabs_neg. lra.
  - apply Qabs_pos. exact H.
Qed.

Lemma sg_of_nonzero c : ~ c == 0 -> exists n, 0 < sg n c.
Proof.
  intros Hc. destruct (Qlt_le_dec 0 c) as [H|H].
  - exists false. exact H.
  - exists true. simpl. destruct (Qle_lt_or_eq _ _ H) as [H1|H1]; [lra|].
    exfalso. apply Hc. exact H1.
Qed.

Lemma sg_of_any c : exists n, 0 <= sg n c.
Proof.
  destruct (Qlt_le_dec 0 c) as [H|H].
  - exists false. simpl. lra.
  - exists true. simpl. lra.
Qed.

Section Faithful.

Variable rnd : Q -> Q.
Hypothesis rnd_faithful : faithful rnd.

Lemma faithful_sg n x :
  0 <= sg n x ->
  sg n x * (1 - u64) <= sg n (rnd x) <= sg n x * (1 + u64).
Proof.
  intros H. pose proof (rnd_faithful x) as Hr.
  rewrite (sg_abs n x H) in Hr.
  apply Qabs_Qle_condition in Hr. destruct Hr as [H1 H2].
  destruct n; simpl in *; split; lra.
Qed.

Lemma rnd_zero x : x == 0 -> rnd x == 0.
Proof.
  intros Hx. pose proof (rnd_faithful x) as Hr.
  assert (E : u64 * Qabs x == 0) by (rewrite Hx; reflexivity).
  apply Qabs_Qle_condition in Hr. lra.
Qed.

Lemma near_rnd n k x y :
  near k (sg n x) y -> near (S k) (sg n (rnd x)) y.
Proof.
  intros (Hx & Hy & H1 & H2).
  destruct (faithful_sg n x Hx) as [F1 F2].
  pose proof (spow_pos k) as Hs. pose proof u64_pos as Hu.
  unfold near. rewrite spow_S.
  set (s := spow k) in *. clearbody s.
  set (a := sg n x) in *. set (r := sg n (rnd x)) in *. clearbody a r.
  assert (Hu1 : u64 <= 1) by (vm_compute; discriminate).
  assert (P1 : 0 <= (a - y * s) * (1 - u64))
    by (apply Qmult_le_0_compat; lra).
  assert (Hr : 0 <= r).
  { assert (0 <= a * (1 - u64)) by (apply Qmult_le_0_compat; lra). lra. }
  assert (P2 : 0 <= (a * (1 + u64) - r) * ((1 - u64) * s)).
  { apply Qmult_le_0_compat; [lra|]. apply Qmult_le_0_compat; lra. }
  assert (P3 : 0 <= a * s * (u64 * u64)).
  { apply Qmult_le_0_compat; [apply Qmult_le_0_compat; lra|].
    vm_compute; discriminate. }
  repeat split; lra.
Qed.

(* ------------------------------------------------------------------ *)
(** *** Rounded operations on values that agree *)

Lemma fnear_fin n k q y : near k (sg n q) y -> fnear n k (Fin q) y.
Proof. intros H. exists q. split; [reflexivity | exact H]. Qed.

Lemma fnear_mono n j k x y : (j <= k)%nat -> fnear n j x y -> fnear n k x y.
Proof.
  intros Hjk (q & E & H). exists q. split; [exact E|].
  eapply near_mono; eassumption.
Qed.

Lemma fnear_eq n k x y y' : y == y' -> fnear n k x y -> fnear n k x y'.
Proof.
  intros Ey (q & E & H). exists q. split; [exact E|]. rewrite <- Ey. exact H.
Qed.

#[global] Instance fnear_Proper n k x : Proper (Qeq ==> iff) (fnear n k x).
Proof.
  intros y y' E. split; apply fnear_eq; [exact E | symmetry; exact E].
Qed.

Lemma fnear_mul_r n j k x X p P :
  fnear n j x X -> near k p P ->
  fnear n (S (j + k)) (fmul_r rnd x (Fin p)) (X * P).
Proof.
  intros (q & E & H) Hp. subst x. exists (rnd (q * p)).
  split; [reflexivity|]. apply near_rnd. rewrite sg_mul.
  apply near_mul; assumption.
Qed.

Lemma near_nonzero k p P : near k p P -> 0 < P -> Qeq_bool p 0 = false.
Proof.
  intros H HP. pose proof (near_pos _ _ _ H HP).
  apply Qeq_bool_false. lra.
Qed.

Lemma fnear_div_r n j k x X p P :
  fnear n j x X -> near k p P -> 0 < P ->
  fnear n (S (j + k)) (fdiv_r rnd x (Fin p)) (X / P).
Proof.
  intros (q & E & H) Hp HP. subst x. exists (rnd (q / p)). split.
  - unfold fdiv_r. cbn [fdiv]. rewrite (near_nonzero _ _ _ Hp HP).
    reflexivity.
  - apply near_rnd. rewrite sg_div. apply near_div; assumption.
Qed.

Lemma fnear_add_r n k x X y Y :
  fnear n k x X -> fnear n k y Y ->
  fnear n (S k) (fadd_r rnd x y) (X + Y).
Proof.
  intros (a & Ea & Ha) (b & Eb & Hb). subst x y. exists (rnd (a + b)).
  split; [reflexivity|]. apply near_rnd. rewrite sg_add.
  apply near_add; assumption.
Qed.

Lemma fnear_ratio n j k x X c C :
  fnear n j x X -> fnear n k c C -> 0 < C ->
  fnear false (S (j + k)) (fdiv_r rnd x c) (X / C).
Proof.
  intros (a & Ea & Ha) (b & Eb & Hb) HC. subst x c.
  pose proof (near_pos _ _ _ Hb HC) as Hpos.
  assert (Hb0 : ~ b == 0) by (destruct n; simpl in Hpos; lra).
  exists (rnd (a / b)). split.
  - unfold fdiv_r. cbn [fdiv]. rewrite (Qeq_bool_false _ _ Hb0). reflexivity.
  - apply (near_rnd false). simpl. rewrite (sg_ratio n a b Hb0).
    apply near_div; assumption.
Qed.

Lemma fnear_mul_l m n j p x X :
  0 <= sg m p -> fnear n j x X ->
  fnear (xorb m n) (S j) (fmul_r rnd (Fin p) x) (sg m p * X).
Proof.
  intros Hp (q & E & H). subst x. exists (rnd (p * q)).
  split; [reflexivity|]. apply near_rnd.
  rewrite sg_xorb_mul. apply (near_mul 0 j); [apply near_refl, Hp | exact H].
Qed.

Lemma fsub_r_near n x y :
  0 <= sg n (x - y) ->
  fnear n 1 (fsub_r rnd (Fin x) (Fin y)) (sg n (x - y)).
Proof.
  intros H. exists (rnd (x + - y)). split; [reflexivity|].
  apply near_rnd. apply near_refl. exact H.
Qed.

Lemma near_sym k x y : near k x y -> near k y x.
Proof. intros (H1 & H2 & H3 & H4). repeat split; assumption. Qed.

(** A faithful rounding keeps zero and nothing else at zero. *)
Lemma rnd_zero_inv x : rnd x == 0 -> x == 0.
Proof.
  intros H. pose proof (rnd_faithful x) as Hr.
  apply Qabs_Qle_condition in Hr. destruct Hr as [H1 H2].
  destruct (Qlt_le_dec x 0) as [Hx|Hx].
  - rewrite (Qabs_neg x) in H1, H2 by lra. unfold u64 in *. lra.
  - rewrite (Qabs_pos x) in H1, H2 by lra. unfold u64 in *. lra.
Qed.

Lemma rnd_nonneg x : 0 <= x -> 0 <= rnd x.
Proof.
  intros H. destruct (faithful_sg false x H) as [H1 _]. cbn [sg] in H1.
  unfold u64 in *. lra.
Qed.

Lemma fnear_zero n k : fnear n k (Fin 0) 0.
Proof.
  apply fnear_fin. destruct n; simpl.
  - setoid_replace (- 0) with 0 by ring. apply near_refl. discriminate.
  - apply near_refl. discriminate.
Qed.

(** The left-to-right rounded sum of values that agree with [ys] up to
    [k] roundings agrees with their sum up to [k + length] roundings. *)
Lemma fold_fadd_r_near n k (xs : Series) (ys : list Q) :
  Forall2 (fnear n k) xs ys ->
  forall m acc A, (k <= m)%nat -> fnear n m acc A ->
  fnear n (m + length xs) (fold_left (fadd_r rnd) xs acc)
        (fold_left Qplus ys A).
Proof.
  induction 1 as [|x y xs ys Hxy Hrest IH]; intros m acc A Hkm Hacc.
  - simpl. rewrite Nat.add_0_r. exact Hacc.
  - simpl. replace (m + S (length xs))%nat with (S m + length xs)%nat by lia.
    apply IH; [lia|]. apply fnear_add_r; [exact Hacc|].
    eapply fnear_mono; eassumption.
Qed.

Lemma fsum_r_near n k (xs : Series) (ys : list Q) :
  Forall2 (fnear n k) xs ys ->
  fnear n (k + length xs) (fsum_r rnd xs) (fold_left Qplus ys 0).
Proof.
  intros H. unfold fsum_r.
  apply (fold_fadd_r_near n k xs ys H k (Fin 0) 0); [lia|].
  apply fnear_zero.
Qed.

End Faithful.
(* ------------------------------------------------------------------ *)
(** *** Without rounding *)

Lemma round_id x : round (fun q => q) x = x.
Proof. destruct x; reflexivity. Qed.

Lemma fsum_r_id s : fsum_r (fun q => q) s = fsum s.
Proof.
  unfold fsum_r, fsum. generalize (Fin 0).
  induction s as [|x r IH]; intros acc; simpl; [reflexivity|].
  unfold fadd_r at 2. rewrite round_id. apply IH.
Qed.

(** [calculate_price_dcf] is [calculate_price_dcf_r] without rounding. *)
Lemma calculate_price_dcf_unrounded df d g years :
  calculate_price_dcf_r (fun q => q) (fun x t => x ^ Z.of_nat t) df d g years
  = calculate_price_dcf df d g years.
Proof.
  unfold calculate_price_dcf_r, calculate_price_dcf.
  destruct (iloc (column close df) (-1)) as [c|e]; cbn [bind]; [|reflexivity].
  rewrite fsum_r_id.
  rewrite (map_ext
             (fun t => fmul_r (fun q => q) c (Fin ((1 + g) ^ Z.of_nat t)))
             (fun t => fmul c (Fin ((1 + g) ^ Z.of_nat t))))
    by (intros t; unfold fmul_r; apply round_id).
  rewrite (map_ext
             (fun tp : nat * fval =>
                fdiv_r (fun q => q) (snd tp)
                       (Fin ((1 + d) ^ Z.of_nat (fst tp))))
             (fun tp => fdiv (snd tp) (Fin ((1 + d) ^ Z.of_nat (fst tp)))))
    by (intros t; unfold fdiv_r; apply round_id).
  unfold fdiv_r. rewrite round_id. reflexivity.
Qed.

Lemma zip_with_ext (f g : fval -> fval -> fval) (s t : Series) :
  (forall x y, f x y = g x y) -> zip_with f s t = zip_with g s t.
Proof.
  intros H. revert t. induction s as [|x r IH]; intros [|y t];
    simpl; try reflexivity.
  rewrite H, IH. reflexivity.
Qed.

Lemma fadd_r_id x y : fadd_r (fun q => q) x y = fadd x y.
Proof. apply round_id. Qed.

Lemma fsub_r_id x y : fsub_r (fun q => q) x y = fsub x y.
Proof. apply round_id. Qed.

Lemma fmul_r_id x y : fmul_r (fun q => q) x y = fmul x y.
Proof. apply round_id. Qed.

Lemma fdiv_r_id x y : fdiv_r (fun q => q) x y = fdiv x y.
Proof. apply round_id. Qed.

Lemma rolling_ext w (f g : Series -> fval) s :
  (forall v, f v = g v) -> rolling w f s = rolling w g s.
Proof.
  intros H. unfold rolling. apply map_ext. intros i. rewrite H. reflexivity.
Qed.

Lemma diff_from_r_id s : forall p, diff_from_r (fun q => q) p s = diff_from p s.
Proof.
  induction s as [|x r IH]; intros p; simpl; [reflexivity|].
  rewrite fsub_r_id, IH. reflexivity.
Qed.

Lemma cumsum_from_r_id s : forall acc,
  cumsum_from_r (fun q => q) acc s = cumsum_from acc s.
Proof.
  induction s as [|x r IH]; intros acc; simpl; [reflexivity|].
  rewrite fadd_r_id, !IH. reflexivity.
Qed.

Lemma win_mean_r_id v : win_mean_r (fun q => q) v = win_mean v.
Proof. unfold win_mean_r, win_mean. rewrite fsum_r_id. apply fdiv_r_id. Qed.

Lemma win_sum_r_id v : win_sum_r (fun q => q) v = win_sum v.
Proof. apply fsum_r_id. Qed.

Lemma mean_r_id s : mean_r (fun q => q) s = mean s.
Proof. unfold mean_r, mean. rewrite fsum_r_id. apply fdiv_r_id. Qed.

Ltac unround :=
  repeat first
    [ rewrite (zip_with_ext (fadd_r (fun q => q)) fadd) by apply fadd_r_id
    | rewrite (zip_with_ext (fsub_r (fun q => q)) fsub) by apply fsub_r_id
    | rewrite (zip_with_ext (fmul_r (fun q => q)) fmul) by apply fmul_r_id
    | rewrite (zip_with_ext (fdiv_r (fun q => q)) fdiv) by apply fdiv_r_id
    | rewrite (rolling_ext _ (win_mean_r (fun q => q)) win_mean)
        by apply win_mean_r_id
    | rewrite (rolling_ext _ (win_sum_r (fun q => q)) win_sum)
        by apply win_sum_r_id
    | rewrite fadd_r_id | rewrite fsub_r_id | rewrite fmul_r_id
    | rewrite fdiv_r_id | rewrite mean_r_id | rewrite fsum_r_id
    | rewrite cumsum_from_r_id | rewrite diff_from_r_id ].

(** Each rounded function is the function of the same name when nothing
    is rounded. *)
Lemma calculate_sma_50_unrounded df :
  calculate_sma_50_r (fun q => q) df = calculate_sma_50 df.
Proof. unfold calculate_sma_50_r, calculate_sma_50. unround. reflexivity. Qed.

Lemma calculate_vwap_unrounded df :
  calculate_vwap_r (fun q => q) df = calculate_vwap df.
Proof.
  unfold calculate_vwap_r, calculate_vwap, cumsum_r, cumsum.
  rewrite (map_ext (fun x => fdiv_r (fun q => q) x (Fin 3))
                   (fun x => fdiv x (Fin 3)))
    by (intros x; apply fdiv_r_id).
  unround. reflexivity.
Qed.

Lemma calculate_stochastic_k_unrounded df w :
  calculate_stochastic_k_r (fun q => q) df w = calculate_stochastic_k df w.
Proof.
  unfold calculate_stochastic_k_r, calculate_stochastic_k.
  rewrite (map_ext (fun x => fmul_r (fun q => q) (Fin 100) x)
                   (fun x => fmul (Fin 100) x))
    by (intros x; apply fmul_r_id).
  unround. reflexivity.
Qed.

Lemma calculate_williams_r_unrounded df w :
  calculate_williams_r_r (fun q => q) df w = calculate_williams_r df w.
Proof.
  unfold calculate_williams_r_r, calculate_williams_r.
  rewrite (map_ext (fun x => fmul_r (fun q => q) (Fin (-100)) x)
                   (fun x => fmul (Fin (-100)) x))
    by (intros x; apply fmul_r_id).
  unround. reflexivity.
Qed.

Lemma calculate_cmo_unrounded df w :
  calculate_cmo_r (fun q => q) df w = calculate_cmo df w.
Proof.
  unfold calculate_cmo_r, calculate_cmo, cmo_series_r, cmo_series,
    diff_r, diff.
  rewrite (map_ext (fun x => fmul_r (fun q => q) (Fin 100) x)
                   (fun x => fmul (Fin 100) x))
    by (intros x; apply fmul_r_id).
  unround. reflexivity.
Qed.

Lemma calculate_cuv_unrounded df :
  calculate_cuv_r (fun q => q) df = calculate_cuv df.
Proof.
  unfold calculate_cuv_r, calculate_cuv.
  destruct (iloc (column close df) (-1)) as [c|e]; cbn [bind]; [|reflexivity].
  unround. reflexivity.
Qed.

Lemma calculate_deuv_unrounded df d g years :
  calculate_deuv_r (fun q => q) (fun x t => x ^ Z.of_nat t) df d g years
  = calculate_deuv df d g years.
Proof.
  unfold calculate_deuv_r, calculate_deuv.
  destruct (iloc (column close df) (-1)) as [c|e]; cbn [bind]; [|reflexivity].
  unround.
  set (v := mean (zip_with fmul (column volume df) (column close df))).
  rewrite (map_ext
             (fun t => fmul_r (fun q => q) v (Fin ((1 + g) ^ Z.of_nat t)))
             (fun t => fmul v (Fin ((1 + g) ^ Z.of_nat t))))
    by (intros t; apply fmul_r_id).
  rewrite (map_ext
             (fun tp : nat * fval =>
                fdiv_r (fun q => q) (snd tp)
                       (Fin ((1 + d) ^ Z.of_nat (fst tp))))
             (fun tp => fdiv (snd tp) (Fin ((1 + d) ^ Z.of_nat (fst tp)))))
    by (intros t; apply fdiv_r_id).
  reflexivity.
Qed.

Lemma calculate_market_cap_growth_unrounded df :
  calculate_market_cap_growth_r (fun q => q) df
  = calculate_market_cap_growth df.
Proof.
  unfold calculate_market_cap_growth_r, calculate_market_cap_growth.
  destruct (iloc (column close df) 0) as [c|e]; cbn [bind]; [|reflexivity].
  destruct (iloc (column close df) (-1)) as [l|e]; cbn [bind]; [|reflexivity].
  unround. reflexivity.
Qed.

Lemma calculate_price_momentum_unrounded df :
  calculate_price_momentum_r (fun q => q) df = calculate_price_momentum df.
Proof.
  unfold calculate_price_momentum_r, calculate_price_momentum.
  destruct (iloc (column close df) (-1)) as [l|e]; cbn [bind]; [|reflexivity].
  destruct (iloc (column close df) 0) as [c|e]; cbn [bind]; [|reflexivity].
  unround. reflexivity.
Qed.


Lemma near_rel_sg n k v c K :
  0 <= sg n c ->
  near k (sg n v) (sg n c * K) ->
  inject_Z (Z.of_nat k) * u64 <= 1 # 2 ->
  Qabs (v - c * K) <= 2 * inject_Z (Z.of_nat k) * u64 * (Qabs c * K).
Proof.
  intros Hc H Hk. pose proof (near_rel _ _ _ H Hk) as Hr.
  rewrite (sg_abs n c Hc).
  destruct n; cbn [sg] in *; [|exact Hr].
  setoid_replace (v - c * K) with (- (- v - - c * K)) by ring.
  rewrite Qabs_opp. exact Hr.
Qed.

(* ================================================================== *)
(** ** The discounted cash flow in rounded arithmetic *)

Section DcfRounded.

Variable rnd : Q -> Q.
Variable pow_r : Q -> nat -> Q.
Hypothesis rnd_faithful : faithful rnd.
Hypothesis pow_faithful : faithful_pow pow_r.

(** The base [1 + e] of a power, [e] a float literal. *)
Lemma base_near e : 0 <= e -> near 2 (rnd (1 + rnd e)) (1 + e).
Proof.
  intros He. apply (near_rnd rnd rnd_faithful false). simpl.
  apply near_add; [apply near_refl; discriminate|].
  apply (near_rnd rnd rnd_faithful false). simpl. apply near_refl, He.
Qed.

Lemma pow_near e t :
  0 <= e -> (t <= 5)%nat ->
  near 13 (pow_r (rnd (1 + rnd e)) t) ((1 + e) ^ Z.of_nat t).
Proof.
  intros He Ht. pose proof (base_near e He) as Hb.
  assert (Hpos : 0 < rnd (1 + rnd e)) by (apply (near_pos _ _ _ Hb); lra).
  apply near_mono with (3 + t * 2)%nat; [lia|].
  apply near_trans with (rnd (1 + rnd e) ^ Z.of_nat t).
  - apply near_of_rel2; [|apply pow_faithful, Hpos].
    apply Qlt_le_weak, Qpower_0_lt, Hpos.
  - apply near_pow, Hb.
Qed.

(** One discounted future price. *)
Lemma dcf_term_near n c d g t :
  0 <= sg n c -> 0 <= d -> 0 <= g -> (t <= 5)%nat ->
  fnear n 28
    (fdiv_r rnd
       (fmul_r rnd (Fin c) (Fin (pow_r (rnd (1 + rnd g)) t)))
       (Fin (pow_r (rnd (1 + rnd d)) t)))
    (sg n c * (1 + g) ^ Z.of_nat t / (1 + d) ^ Z.of_nat t).
Proof.
  intros Hc Hd Hg Ht.
  apply (fnear_div_r rnd rnd_faithful n 14 13).
  - apply (fnear_mul_r rnd rnd_faithful n 0 13).
    + apply fnear_fin, near_refl, Hc.
    + apply pow_near; assumption.
  - apply pow_near; assumption.
  - apply Qpower_0_lt. lra.
Qed.

(** The discounted sum over five years: the base amount times the
    constant, up to 33 roundings. *)
Lemma dcf_sum_near n c d g :
  0 <= sg n c -> 0 <= d -> 0 <= g ->
  fnear n 33
    (fsum_r rnd
       (map (fun tp : nat * fval =>
               fdiv_r rnd (snd tp) (Fin (pow_r (rnd (1 + rnd d)) (fst tp))))
            (combine
               (seq 1 (length
                         (map (fun t =>
                                 fmul_r rnd (Fin c)
                                   (Fin (pow_r (rnd (1 + rnd g)) t)))
                              (seq 1 5))))
               (map (fun t =>
                       fmul_r rnd (Fin c) (Fin (pow_r (rnd (1 + rnd g)) t)))
                    (seq 1 5)))))
    (sg n c * dcf_constant d g 5).
Proof.
  intros Hc Hd Hg.
  cbn [seq map length combine fst snd].
  set (C := sg n c) in *.
  set (ys := map (fun t => C * (1 + g) ^ Z.of_nat t / (1 + d) ^ Z.of_nat t)
                 [1; 2; 3; 4; 5]%nat).
  match goal with
  | |- fnear n 33 (fsum_r rnd ?xs) _ =>
      assert (HF : Forall2 (fnear n 28) xs ys)
  end.
  { unfold ys. cbn [map].
    repeat (apply Forall2_cons;
            [apply dcf_term_near; [exact Hc | exact Hd | exact Hg | lia]|]).
    apply Forall2_nil. }
  pose proof (fsum_r_near rnd rnd_faithful n 28 _ ys HF) as Hs.
  cbn [length Nat.add] in Hs.
  eapply fnear_eq; [|exact Hs].
  unfold ys. cbn [map fold_left].
  unfold dcf_constant. cbn [seq fold_right].
  set (G := 1 + g). set (D := 1 + d).
  assert (E : forall t, G ^ Z.of_nat t / D ^ Z.of_nat t
                        == (G / D) ^ Z.of_nat t).
  { intros t. rewrite Qdiv_power. reflexivity. }
  rewrite <- !E. unfold Qdiv. ring.
Qed.

(** The intrinsic value with the default parameters. *)
Lemma dcf_discounted_near n (df : DataFrame) (b : Bar) :
  0 <= sg n (close b) ->
  exists r,
    calculate_price_dcf_r rnd pow_r (df ++ [b]) (rnd (15 # 100))
                          (rnd (10 # 100)) 5 = Ok r /\
    fnear n 33 (intrinsic_value r)
          (sg n (close b) * dcf_constant (15 # 100) (10 # 100) 5) /\
    valuation_ratio r =
    (if fneb (Fin (close b)) (Fin 0)
     then fdiv_r rnd (intrinsic_value r) (Fin (close b)) else PInf).
Proof.
  intros Hc. unfold calculate_price_dcf_r. rewrite column_last. cbn [bind].
  eexists. split; [reflexivity|]. cbn [intrinsic_value valuation_ratio].
  split; [|reflexivity].
  apply dcf_sum_near; [exact Hc | discriminate | discriminate].
Qed.

End DcfRounded.

(** C10 (as amended).  With the default parameters (the floats 0.15 and
    0.10, five years) and a non-zero last close, the valuation ratio of
    [calculate_price_dcf], evaluated with any rounding of relative error
    at most [2^-53] and any power of relative error at most [2^-52], is a
    finite number within the relative distance [68 * 2^-53] (below
    [10^-14]) of the constant [sum_(t=1..5) (1.10/1.15)^t], whatever the
    prices and volumes of the series. *)
Theorem price_dcf_ratio_rounded (rnd : Q -> Q) (pow_r : Q -> nat -> Q)
    (df : DataFrame) (b : Bar) :
  faithful rnd -> faithful_pow pow_r -> ~ close b == 0 ->
  exists (r : price_dcf) (q : Q),
    calculate_price_dcf_r rnd pow_r (df ++ [b]) (rnd (15 # 100))
                          (rnd (10 # 100)) 5 = Ok r /\
    valuation_ratio r = Fin q /\
    Qabs (q - dcf_constant (15 # 100) (10 # 100) 5)
    <= 68 * u64 * dcf_constant (15 # 100) (10 # 100) 5 /\
    dcf_constant (15 # 100) (10 # 100) 5 ==
    (110 # 115) + (110 # 115) ^ 2 + (110 # 115) ^ 3
    + (110 # 115) ^ 4 + (110 # 115) ^ 5.
Proof.
  intros Hr Hp Hc. destruct (sg_of_nonzero _ Hc) as [n Hn].
  destruct (dcf_discounted_near rnd pow_r Hr Hp n df b) as (r & E & Hv & Eq);
    [lra|].
  rewrite (fneb_nonzero (Fin (close b)) (close b)) in Eq
    by (assumption || apply is_fin_refl).
  assert (Hq : fnear false 34 (valuation_ratio r)
                     (sg n (close b) * dcf_constant (15 # 100) (10 # 100) 5
                      / sg n (close b))).
  { rewrite Eq. apply (fnear_ratio rnd Hr n 33 0); [exact Hv | | exact Hn].
    apply fnear_fin, near_refl. lra. }
  destruct Hq as (q & Eq' & Hq). exists r, q.
  split; [exact E|]. split; [exact Eq'|]. split; [|vm_compute; reflexivity].
  cbn [sg] in Hq.
  assert (Hq' : near 34 q (dcf_constant (15 # 100) (10 # 100) 5)).
  { setoid_replace (dcf_constant (15 # 100) (10 # 100) 5)
      with (sg n (close b) * dcf_constant (15 # 100) (10 # 100) 5
            / sg n (close b)) by (field; lra).
    exact Hq. }
  pose proof (near_rel _ _ _ Hq') as Hrel.
  setoid_replace (68 * u64 * dcf_constant (15 # 100) (10 # 100) 5)
    with (2 * inject_Z (Z.of_nat 34) * u64
          * dcf_constant (15 # 100) (10 # 100) 5)
    by (change (inject_Z (Z.of_nat 34)) with 34; ring).
  apply Hrel. vm_compute. discriminate.
Qed.

(** C10, witness: the binary64 evaluation on a one-bar series. *)
Lemma price_dcf_ratio_rounded_witness :
  exists (r : price_dcf) (q : Q),
    calculate_price_dcf_r b64 pow64 ([] ++ [mkBar 7 8 6 7 3 1])
                          (b64 (15 # 100)) (b64 (10 # 100)) 5 = Ok r /\
    valuation_ratio r = Fin q /\
    Qabs (q - dcf_constant (15 # 100) (10 # 100) 5)
    <= 68 * u64 * dcf_constant (15 # 100) (10 # 100) 5.
Proof.
  destruct (price_dcf_ratio_rounded b64 pow64 [] (mkBar 7 8 6 7 3 1)
              b64_faithful pow64_faithful)
    as (r & q & E & Eq & H & _); [vm_compute; discriminate|].
  exists r, q. repeat split; assumption.
Defined.

(** C10, counterexample: in binary64 the ratio depends on the series.  A
    series closing at 7 gives 4.384421712764533, one closing at 23 gives
    4.384421712764532; the two differ in the last place, so they are not
    both the constant. *)
Lemma price_dcf_ratio_depends_on_close :
  exists r7 r23 : price_dcf,
    calculate_price_dcf_r b64 pow64 [mkBar 7 8 6 7 3 1]
                          (b64 (15 # 100)) (b64 (10 # 100)) 5 = Ok r7 /\
    calculate_price_dcf_r b64 pow64 ramp_10_23
                          (b64 (15 # 100)) (b64 (10 # 100)) 5 = Ok r23 /\
    valuation_ratio r7 =~ 2468209998980183 # 562949953421312 /\
    valuation_ratio r23 =~ 4936419997960365 # 1125899906842624 /\
    ~ (2468209998980183 # 562949953421312)
      == (4936419997960365 # 1125899906842624).
Proof.
  eexists. eexists.
  split; [vm_compute; reflexivity|]. split; [vm_compute; reflexivity|].
  split; [vm_compute; reflexivity|]. split; [vm_compute; reflexivity|].
  vm_compute. discriminate.
Qed.

(** X6.  With the default parameters the intrinsic value of
    [calculate_price_dcf], evaluated with any faithful rounding and power,
    is within the relative distance [66 * 2^-53] of the last close times
    [sum_(t=1..5) (1.10/1.15)^t]; on a zero last close it is 0 and the
    valuation ratio is [+inf]. *)
Theorem price_dcf_intrinsic_value (rnd : Q -> Q) (pow_r : Q -> nat -> Q)
    (df : DataFrame) (b : Bar) :
  faithful rnd -> faithful_pow pow_r ->
  exists (r : price_dcf) (v : Q),
    calculate_price_dcf_r rnd pow_r (df ++ [b]) (rnd (15 # 100))
                          (rnd (10 # 100)) 5 = Ok r /\
    intrinsic_value r = Fin v /\
    Qabs (v - close b * dcf_constant (15 # 100) (10 # 100) 5)
    <= 66 * u64 * (Qabs (close b) * dcf_constant (15 # 100) (10 # 100) 5) /\
    (close b == 0 -> v == 0 /\ valuation_ratio r = PInf).
Proof.
  intros Hr Hp. destruct (sg_of_any (close b)) as [n Hn].
  destruct (dcf_discounted_near rnd pow_r Hr Hp n df b Hn)
    as (r & E & (v & Ev & Hv) & Eq).
  exists r, v. split; [exact E|]. split; [exact Ev|]. split.
  - setoid_replace (66 * u64 * (Qabs (close b)
                                * dcf_constant (15 # 100) (10 # 100) 5))
      with (2 * inject_Z (Z.of_nat 33) * u64
            * (Qabs (close b) * dcf_constant (15 # 100) (10 # 100) 5))
      by (change (inject_Z (Z.of_nat 33)) with 33; ring).
    apply (near_rel_sg n); [exact Hn | exact Hv |]. vm_compute. discriminate.
  - intros Hz. split.
    + assert (H0 : sg n (close b) * dcf_constant (15 # 100) (10 # 100) 5 == 0).
      { destruct n; cbn [sg]; rewrite Hz; ring. }
      rewrite H0 in Hv. apply near_zero in Hv.
      destruct n; cbn [sg] in Hv; lra.
    + rewrite Eq. cbn [fneb]. rewrite (Qeq_bool_true _ _ Hz). reflexivity.
Qed.

(** X6, witness: binary64 on a one-bar series closing at 7 and on one
    closing at 0. *)
Lemma price_dcf_intrinsic_value_witness :
  (exists (r : price_dcf) (v : Q),
     calculate_price_dcf_r b64 pow64 ([] ++ [mkBar 7 8 6 7 3 1])
                           (b64 (15 # 100)) (b64 (10 # 100)) 5 = Ok r /\
     intrinsic_value r = Fin v /\
     Qabs (v - 7 * dcf_constant (15 # 100) (10 # 100) 5)
     <= 66 * u64 * (Qabs 7 * dcf_constant (15 # 100) (10 # 100) 5)) /\
  (exists (r : price_dcf),
     calculate_price_dcf_r b64 pow64 ([] ++ [mkBar 0 0 0 0 1 0])
                           (b64 (15 # 100)) (b64 (10 # 100)) 5 = Ok r /\
     intrinsic_value r =~ 0 /\ valuation_ratio r = PInf).
Proof.
  split.
  - destruct (price_dcf_intrinsic_value b64 pow64 [] (mkBar 7 8 6 7 3 1)
                b64_faithful pow64_faithful)
      as (r & v & E & Ev & H & _).
    exists r, v. repeat split; assumption.
  - destruct (price_dcf_intrinsic_value b64 pow64 [] (mkBar 0 0 0 0 1 0)
                b64_faithful pow64_faithful)
      as (r & v & E & Ev & _ & H).
    destruct H as [Hv Hinf]; [reflexivity|].
    exists r. split; [exact E|]. split; [|exact Hinf].
    rewrite Ev. exact Hv.
Defined.

(* ================================================================== *)
(** ** Moving average and VWAP in rounded arithmetic *)

Lemma fold_Qplus_acc (ys : list Q) : forall a,
  fold_left Qplus ys a == a + fold_left Qplus ys 0.
Proof.
  induction ys as [|y r IH]; intros a; simpl; [ring|].
  rewrite (IH (a + y)), (IH (0 + y)). ring.
Qed.

Lemma fold_Qplus_total (f : Bar -> Q) (l : list Bar) :
  fold_left Qplus (map f l) 0 == total_of f l.
Proof.
  induction l as [|b r IH]; simpl; [reflexivity|].
  rewrite fold_Qplus_acc, IH. ring.
Qed.

Lemma total_of_ext (f g : Bar -> Q) (l : list Bar) :
  Forall (fun b => f b == g b) l -> total_of f l == total_of g l.
Proof.
  induction 1 as [|b r Hb Hr IH]; simpl; [reflexivity|].
  rewrite Hb, IH. reflexivity.
Qed.

Lemma total_of_mul_l (c : Q) (f : Bar -> Q) (l : list Bar) :
  total_of (fun b => c * f b) l == c * total_of f l.
Proof.
  induction l as [|b r IH]; simpl; [ring|]. rewrite IH. ring.
Qed.


Lemma inject_nat_nonneg n : 0 <= inject_Z (Z.of_nat n).
Proof. change 0 with (inject_Z 0). rewrite <- Zle_Qle. lia. Qed.

(** [2 k u <= 1] for every count [k] of roundings met in practice. *)
Lemma roundings_small k :
  (Z.of_nat k <= 1000000000)%Z -> inject_Z (Z.of_nat k) * u64 <= 1 # 2.
Proof.
  intros H. rewrite Zle_Qle in H. unfold u64.
  change (inject_Z 1000000000) with 1000000000 in H. lra.
Qed.

Section Aggregates.

Variable rnd : Q -> Q.
Hypothesis rnd_faithful : faithful rnd.

Lemma column_near n (f : Bar -> Q) (c : Q) (l : list Bar) :
  0 <= sg n c -> Forall (fun b => f b == c) l ->
  Forall2 (fnear n 0) (column f l) (map (fun _ => sg n c) l).
Proof.
  intros Hc. induction 1 as [|b r Hb Hr IH]; simpl; constructor.
  - apply fnear_fin. rewrite Hb. apply near_refl, Hc.
  - exact IH.
Qed.

(** The rounded mean of a window whose entries all equal [c]. *)
Lemma win_mean_r_constant n (f : Bar -> Q) (c : Q) (l : list Bar) :
  l <> [] -> 0 <= sg n c -> Forall (fun b => f b == c) l ->
  fnear n (S (length l)) (win_mean_r rnd (column f l)) (sg n c).
Proof.
  intros Hne Hc Hl. unfold win_mean_r, of_nat.
  pose proof (fsum_r_near rnd rnd_faithful n 0 _ _ (column_near n f c l Hc Hl))
    as Hs.
  rewrite length_column in *. cbn [Nat.add] in Hs.
  assert (Hlen : (1 <= length l)%nat)
    by (destruct l; [congruence | simpl; lia]).
  pose proof (inject_nat_pos _ Hlen) as Hpos.
  eapply fnear_eq;
    [|eapply fnear_mono;
      [|apply (fnear_div_r rnd rnd_faithful n (length l) 0 _ _ _ _ Hs
                 (near_refl 0 _ (Qlt_le_weak _ _ Hpos)) Hpos)]; lia].
  rewrite fold_Qplus_total, (total_of_constant (fun _ => sg n c) (sg n c))
    by (apply Forall_forall; reflexivity).
  field. lra.
Qed.

Lemma calculate_sma_50_r_constant (df : DataFrame) (c : Q) :
  constant_close c df -> (50 <= length df)%nat ->
  exists q, calculate_sma_50_r rnd df = Ok (Fin q) /\
            Qabs (q - c) <= 102 * u64 * Qabs c.
Proof.
  intros Hc Hn. unfold calculate_sma_50_r.
  rewrite rolling_window_last by lia.
  destruct (sg_of_any c) as [n Hs].
  destruct (win_mean_r_constant n close c (lastn 50 df)) as (q & E & H).
  - apply lastn_nonempty. lia.
  - exact Hs.
  - apply Forall_lastn, Hc.
  - rewrite length_lastn in H by lia.
    exists q. split; [rewrite E; reflexivity|].
    setoid_replace c with (c * 1) at 1 by ring.
    setoid_replace (102 * u64 * Qabs c)
      with (2 * inject_Z (Z.of_nat 51) * u64 * (Qabs c * 1))
      by (change (inject_Z (Z.of_nat 51)) with 51; ring).
    apply (near_rel_sg n); [exact Hs | | vm_compute; discriminate].
    rewrite Qmult_1_r. exact H.
Qed.

(* ------------------------------------------------------------------ *)
(** *** Cumulative sums *)

Lemma length_cumsum_from_r s : forall acc,
  length (cumsum_from_r rnd acc s) = length s.
Proof.
  induction s as [|x r IH]; intros acc; simpl; [reflexivity|].
  destruct (isna x); simpl; rewrite IH; reflexivity.
Qed.

Lemma cumsum_from_r_last (s : Series) : forall acc,
  s <> [] -> Forall (fun x => isna x = false) s ->
  iloc (cumsum_from_r rnd acc s) (-1)
  = Ok (fold_left (fadd_r rnd) s acc).
Proof.
  induction s as [|x r IH]; intros acc Hne Hfin; [congruence|].
  apply Forall_cons_iff in Hfin. destruct Hfin as [Hx Hr].
  cbn [cumsum_from_r]. rewrite Hx. cbn [fold_left].
  destruct r as [|y r'].
  - reflexivity.
  - specialize (IH (fadd_r rnd acc x) ltac:(discriminate) Hr).
    apply iloc_last_nth.
    assert (Hl : iloc (cumsum_from_r rnd (fadd_r rnd acc x) (y :: r')) (-1)
                 = Ok (fold_left (fadd_r rnd) (y :: r') (fadd_r rnd acc x)))
      by exact IH.
    pose proof (length_cumsum_from_r (y :: r') (fadd_r rnd acc x)) as Hlen.
    cbn [length]. rewrite Hlen. cbn [length].
    replace (S (S (length r')) - 1)%nat with (S (length r')) by lia.
    cbn [nth_error].
    unfold iloc in Hl. rewrite Hlen in Hl. cbn [length] in Hl.
    destruct (-1 <? 0)%Z eqn:E1; [|discriminate].
    replace (Z.of_nat (S (length r')) + -1)%Z
      with (Z.of_nat (length r')) in Hl by lia.
    destruct ((Z.of_nat (length r') <? 0)
              || (Z.of_nat (S (length r')) <=? Z.of_nat (length r')))%Z;
      [discriminate|].
    rewrite Nat2Z.id in Hl.
    destruct (nth_error (cumsum_from_r rnd (fadd_r rnd acc x) (y :: r'))
                        (length r')) as [v|]; [|discriminate].
    congruence.
Qed.

Lemma fnear_notna n k x y : fnear n k x y -> isna x = false.
Proof. intros (q & E & _). subst x. reflexivity. Qed.

Lemma Forall2_notna n k xs ys :
  Forall2 (fnear n k) xs ys -> Forall (fun x => isna x = false) xs.
Proof.
  induction 1; constructor; [eapply fnear_notna; eassumption | assumption].
Qed.

(** The volume-weighted typical prices of a constant-price series. *)
Lemma vwap_numerators_near n (c : Q) (df : DataFrame) :
  0 <= sg n c -> constant_price c df ->
  Forall (fun b => 0 <= volume b) df ->
  Forall2 (fnear n 4)
    (zip_with (fmul_r rnd)
       (map (fun x => fdiv_r rnd x (Fin 3))
            (zip_with (fadd_r rnd)
               (zip_with (fadd_r rnd) (column high df) (column low df))
               (column close df)))
       (column volume df))
    (map (fun b => sg n c * volume b) df).
Proof.
  intros Hc Hp Hv. induction Hp as [|b r (Hh & Hl & Hcl) Hr IH].
  - constructor.
  - apply Forall_cons_iff in Hv. destruct Hv as [Hvb Hvr].
    cbn [column map zip_with]. constructor; [|apply IH, Hvr].
    assert (F : forall x, x == c -> fnear n 0 (Fin x) (sg n c)).
    { intros x Hx. apply fnear_fin. rewrite Hx. apply near_refl, Hc. }
    pose proof (fnear_add_r rnd rnd_faithful n 0 _ _ _ _ (F _ Hh) (F _ Hl))
      as A1.
    pose proof (fnear_add_r rnd rnd_faithful n 1 _ _ _ _ A1
                  (fnear_mono n 0 1 _ _ ltac:(lia) (F _ Hcl))) as A2.
    pose proof (fnear_div_r rnd rnd_faithful n 2 0 _ _ 3 3 A2
                  (near_refl 0 3 ltac:(discriminate)) ltac:(reflexivity))
      as A3.
    pose proof (fnear_mul_r rnd rnd_faithful n 3 0 _ _ _ _ A3
                  (near_refl 0 _ Hvb)) as A4.
    eapply fnear_eq; [|exact A4]. field.
Qed.

Lemma volumes_near (df : DataFrame) :
  Forall (fun b => 0 <= volume b) df ->
  Forall2 (fnear false 0) (column volume df) (map volume df).
Proof.
  induction 1 as [|b r Hb Hr IH]; simpl; constructor; [|exact IH].
  apply fnear_fin, near_refl, Hb.
Qed.

Lemma calculate_vwap_r_constant (df : DataFrame) (c : Q) :
  constant_price c df -> Forall (fun b => 0 <= volume b) df ->
  0 < total_of volume df ->
  (Z.of_nat (length df) <= 100000000)%Z ->
  exists q, calculate_vwap_r rnd df = Ok (Fin q) /\
            Qabs (q - c)
            <= inject_Z (Z.of_nat (4 * length df + 10)) * u64 * Qabs c.
Proof.
  intros Hp Hv Ht Hlen.
  assert (Hne : df <> []) by (intros ->; revert Ht; compute; discriminate).
  destruct (sg_of_any c) as [n Hs].
  pose proof (vwap_numerators_near n c df Hs Hp Hv) as Hnum.
  pose proof (volumes_near df Hv) as Hden.
  set (nums := zip_with (fmul_r rnd)
                 (map (fun x => fdiv_r rnd x (Fin 3))
                      (zip_with (fadd_r rnd)
                         (zip_with (fadd_r rnd) (column high df)
                                   (column low df))
                         (column close df)))
                 (column volume df)) in *.
  assert (Ln : length nums = length df)
    by (rewrite (Forall2_length Hnum), length_map; reflexivity).
  pose proof (fold_fadd_r_near rnd rnd_faithful n 4 _ _ Hnum 4 (Fin 0) 0
                ltac:(lia) (fnear_zero n 4)) as Sn.
  pose proof (fold_fadd_r_near rnd rnd_faithful false 0 _ _ Hden 0 (Fin 0) 0
                ltac:(lia) (fnear_zero false 0)) as Sd.
  rewrite Ln in Sn. rewrite length_column in Sd.
  rewrite fold_Qplus_total in Sn, Sd. rewrite total_of_mul_l in Sn.
  destruct Sd as (d & Ed & Hd). cbn [sg] in Hd.
  assert (Hq : fnear n (S (4 + length df + (0 + length df)))
                     (fdiv_r rnd (fold_left (fadd_r rnd) nums (Fin 0)) (Fin d))
                     (sg n c * total_of volume df / total_of volume df))
    by (apply (fnear_div_r rnd rnd_faithful); assumption).
  destruct Hq as (q & Eq & Hq). exists q. split.
  - unfold calculate_vwap_r. fold nums. unfold cumsum_r.
    rewrite (zip_with_last (fdiv_r rnd) _ _
               (fold_left (fadd_r rnd) nums (Fin 0)) (Fin d)).
    + rewrite Eq. reflexivity.
    + rewrite !length_cumsum_from_r, Ln, length_column. reflexivity.
    + apply cumsum_from_r_last.
      * intros E. rewrite E in Ln. destruct df; [congruence|discriminate].
      * eapply Forall2_notna, Hnum.
    + rewrite <- Ed. apply cumsum_from_r_last.
      * destruct df; [congruence|discriminate].
      * eapply Forall2_notna, Hden.
  - assert (Hq' : near (2 * length df + 5) (sg n q) (sg n c * 1)).
    { apply near_mono with (S (4 + length df + (0 + length df))); [lia|].
      setoid_replace (sg n c * 1)
        with (sg n c * total_of volume df / total_of volume df)
        by (field; lra).
      exact Hq. }
    setoid_replace c with (c * 1) at 1 by ring.
    setoid_replace (inject_Z (Z.of_nat (4 * length df + 10)) * u64 * Qabs c)
      with (2 * inject_Z (Z.of_nat (2 * length df + 5)) * u64 * (Qabs c * 1)).
    + apply (near_rel_sg n); [exact Hs | exact Hq' |].
      apply roundings_small. lia.
    + replace (4 * length df + 10)%nat with (2 * (2 * length df + 5))%nat
        by lia.
      rewrite (Nat2Z.inj_mul 2), inject_Z_mult.
      change (inject_Z (Z.of_nat 2)) with 2. ring.
Qed.

End Aggregates.

(* ================================================================== *)
(** ** Stochastic %K and Williams %R in rounded arithmetic *)

Section Oscillators.

Variable rnd : Q -> Q.
Hypothesis rnd_faithful : faithful rnd.

(** [p * (x - y) / (hi - lo)] with [|p| = 100] and [0 <= x - y <= hi - lo]:
    the rounded value has the sign of [p] and exceeds 100 in absolute value
    by at most [800 u]. *)
Lemma scaled_ratio_bound m p x y hi lo :
  sg m p == 100 -> 0 <= x - y -> x - y <= hi - lo -> lo < hi ->
  exists q,
    fdiv_r rnd (fmul_r rnd (Fin p) (fsub_r rnd (Fin x) (Fin y)))
           (fsub_r rnd (Fin hi) (Fin lo)) = Fin q /\
    0 <= sg m q <= 100 + 800 * u64.
Proof.
  intros Hp H0 H1 Hlt.
  pose proof (fsub_r_near rnd rnd_faithful false x y H0) as A1. cbn [sg] in A1.
  assert (Hp0 : 0 <= sg m p) by (rewrite Hp; discriminate).
  pose proof (fnear_mul_l rnd rnd_faithful m false 1 p _ _ Hp0 A1) as A2.
  rewrite xorb_false_r in A2.
  destruct (fsub_r_near rnd rnd_faithful false hi lo) as (d & Ed & Hd); [cbn [sg]; lra|].
  cbn [sg] in Hd.
  pose proof (fnear_div_r rnd rnd_faithful m 2 1 _ _ d (hi - lo) A2 Hd
                ltac:(lra)) as (q & Eq & Hq).
  exists q. split; [rewrite Ed; exact Eq|].
  cbn [Nat.add] in Hq.
  set (E := sg m p * (x - y) / (hi - lo)) in *.
  assert (HE0 : 0 <= E) by (destruct Hq as (_ & H & _); exact H).
  assert (HE1 : E <= 100).
  { unfold E. apply Qle_shift_div_r; [lra|]. rewrite Hp.
    assert (0 <= 100 * ((hi - lo) - (x - y)))
      by (apply Qmult_le_0_compat; lra).
    lra. }
  pose proof (near_rel _ _ _ Hq ltac:(vm_compute; discriminate)) as Hrel.
  change (inject_Z (Z.of_nat 4)) with 4 in Hrel.
  apply Qabs_Qle_condition in Hrel. destruct Hrel as [_ Hrel].
  destruct Hq as (Hq0 & _). split; [exact Hq0|].
  unfold u64 in *. lra.
Qed.

Section Trailing.

Variable df : DataFrame.
Variable b : Bar.
Variable w : nat.
Hypothesis window_ok : (1 <= w <= length (df ++ [b]))%nat.
Hypothesis last_bar_ok : low b <= close b <= high b.
Hypothesis range_ok :
  exists x y, In x (lastn w (df ++ [b])) /\ In y (lastn w (df ++ [b])) /\
              low x < high y.

Lemma stochastic_k_r_range :
  exists q, calculate_stochastic_k_r rnd (df ++ [b]) w = Ok (Fin q) /\
            0 <= q <= 100 + 800 * u64.
Proof.
  destruct (trailing_extremes df b w window_ok last_bar_ok range_ok)
    as (ml & mh & El & Eh & Hc & Hlt).
  destruct (scaled_ratio_bound false 100 (close b) ml mh ml)
    as (q & Eq & Hq); [reflexivity | lra | lra | exact Hlt |].
  exists q. split; [|exact Hq].
  unfold calculate_stochastic_k_r.
  rewrite (zip_with_last (fdiv_r rnd) _ _
             (fmul_r rnd (Fin 100) (fsub_r rnd (Fin (close b)) (Fin ml)))
             (fsub_r rnd (Fin mh) (Fin ml))).
  - rewrite Eq. reflexivity.
  - rewrite length_map, !length_zip_with, !length_rolling, !length_column.
    lia.
  - apply map_last. apply zip_with_last; [|apply column_last | exact El].
    rewrite length_rolling, !length_column. reflexivity.
  - apply zip_with_last; [|exact Eh | exact El].
    rewrite !length_rolling, !length_column. reflexivity.
Qed.

Lemma williams_r_r_range :
  exists q, calculate_williams_r_r rnd (df ++ [b]) w = Ok (Fin q) /\
            -100 - 800 * u64 <= q <= 0.
Proof.
  destruct (trailing_extremes df b w window_ok last_bar_ok range_ok)
    as (ml & mh & El & Eh & Hc & Hlt).
  destruct (scaled_ratio_bound true (-100) mh (close b) mh ml)
    as (q & Eq & Hq); [reflexivity | lra | lra | exact Hlt |].
  exists q. split; [|cbn [sg] in Hq; lra].
  unfold calculate_williams_r_r.
  rewrite (zip_with_last (fdiv_r rnd) _ _
             (fmul_r rnd (Fin (-100)) (fsub_r rnd (Fin mh) (Fin (close b))))
             (fsub_r rnd (Fin mh) (Fin ml))).
  - rewrite Eq. reflexivity.
  - rewrite length_map, !length_zip_with, !length_rolling, !length_column.
    lia.
  - apply map_last. apply zip_with_last; [|exact Eh | apply column_last].
    rewrite length_rolling, !length_column. reflexivity.
  - apply zip_with_last; [|exact Eh | exact El].
    rewrite !length_rolling, !length_column. reflexivity.
Qed.

End Trailing.

End Oscillators.

(** In binary64 the bound 100 itself is exceeded: with the close on the
    trailing high 0.06 and the trailing low at 0.01, %K is
    100.00000000000001 and %R is -100.00000000000001 at a bar whose close
    sits on the trailing low. *)
Lemma stochastic_k_above_100 :
  let hi := b64 (6 # 100) in
  let lo := b64 (1 # 100) in
  exists k r,
    calculate_stochastic_k_r b64 (repeat (mkBar lo hi lo hi 1 0) 15) 14
    = Ok (Fin k) /\ 100 < k /\
    calculate_williams_r_r b64 (repeat (mkBar lo hi lo lo 1 0) 15) 14
    = Ok (Fin r) /\ r < -100.
Proof.
  eexists. eexists.
  split; [vm_compute; reflexivity|]. split; [vm_compute; reflexivity|].
  split; [vm_compute; reflexivity|]. vm_compute; reflexivity.
Qed.

(* ================================================================== *)
(** ** Growth rates and utility values in rounded arithmetic *)

(** X3.  Market-cap growth depends on the supply constant through
    rounding only.  With a positive first close and a non-negative last
    close, under any faithful rounding, it is within [8 u (1 + |m|)] of
    [m = (close_last - close_first) / close_first] and the price momentum
    is within [4 u |m|] of [m], so the two are within [12 u (1 + |m|)] of
    each other, [u = 2^-53]; when the first close is zero the guard
    returns infinity. *)
Theorem market_cap_growth_is_price_momentum
    (rnd : Q -> Q) (b0 : Bar) (rest : list Bar) :
  faithful rnd ->
  let df := b0 :: rest in
  let b := last df b0 in
  let m := (close b - close b0) / close b0 in
  (0 < close b0 -> 0 <= close b ->
   exists g p,
     calculate_market_cap_growth_r rnd df = Ok (Fin g) /\
     calculate_price_momentum_r rnd df = Ok (Fin p) /\
     Qabs (g - m) <= 8 * u64 * (1 + Qabs m) /\
     Qabs (p - m) <= 4 * u64 * Qabs m /\
     Qabs (g - p) <= 12 * u64 * (1 + Qabs m)) /\
  (close b0 == 0 -> calculate_market_cap_growth_r rnd df = Ok PInf).
Proof.
  intros Hr df b m.
  assert (Hlast : iloc (column close df) (-1) = Ok (Fin (close b)))
    by (apply column_last_nonempty; discriminate).
  assert (Hfirst : iloc (column close df) 0 = Ok (Fin (close b0)))
    by apply iloc_first.
  unfold calculate_market_cap_growth_r, calculate_price_momentum_r.
  rewrite Hlast, Hfirst. cbn [bind]. split.
  - intros Hf Hl.
    set (f := close b0) in *. set (l := close b) in *.
    assert (HS : 0 < circulating_supply) by reflexivity.
    (* market-cap growth *)
    assert (A : fnear false 1 (fmul_r rnd (Fin l) (Fin circulating_supply))
                      (l * circulating_supply)).
    { apply (fnear_mul_r rnd Hr false 0 0).
      - apply fnear_fin, near_refl, Hl.
      - apply near_refl. lra. }
    assert (B : near 1 (rnd (f * circulating_supply))
                     (f * circulating_supply)).
    { apply (near_rnd rnd Hr false). apply near_refl. cbn [sg].
      apply Qmult_le_0_compat; lra. }
    assert (HfS : 0 < f * circulating_supply)
      by (apply Qmult_lt_0_compat; assumption).
    pose proof (near_pos _ _ _ B HfS) as HB.
    pose proof (fnear_div_r rnd Hr false 1 1 _ _ _ _ A B HfS) as (R & ER & HR).
    cbn [sg Nat.add] in HR.
    change (fmul_r rnd (Fin f) (Fin circulating_supply))
      with (Fin (rnd (f * circulating_supply))).
    rewrite (fneb_nonzero (Fin (rnd (f * circulating_supply)))
                          (rnd (f * circulating_supply)))
      by (apply is_fin_refl || lra).
    rewrite ER.
    change (fsub_r rnd (Fin R) (Fin 1)) with (Fin (rnd (R + - (1)))).
    (* price momentum *)
    destruct (sg_of_any (l - f)) as [n Hn].
    pose proof (fsub_r_near rnd Hr n l f Hn) as N1.
    pose proof (fnear_div_r rnd Hr n 1 0 _ _ f f N1
                  (near_refl 0 f (Qlt_le_weak _ _ Hf)) Hf) as (p & Ep & Hp).
    cbn [Nat.add] in Hp. rewrite Ep.
    exists (rnd (R + - (1))), p.
    split; [reflexivity|]. split; [reflexivity|].
    (* the bounds *)
    set (L := l * circulating_supply / (f * circulating_supply)) in *.
    assert (EL : L == m + 1) by (unfold L, m; field; lra).
    assert (HL0 : 0 <= L) by (destruct HR as (_ & H & _); exact H).
    pose proof (near_rel _ _ _ HR ltac:(vm_compute; discriminate)) as HRL.
    change (inject_Z (Z.of_nat 3)) with 3 in HRL.
    pose proof (Hr (R + - (1))) as Hg.
    set (g := rnd (R + - (1))) in *.
    assert (Hpm : Qabs (p - m) <= 4 * u64 * Qabs m).
    { assert (Hsm : 0 <= sg n m).
      { unfold m. rewrite sg_div. apply Qle_shift_div_l; lra. }
      setoid_replace m with (m * 1) at 1 by ring.
      setoid_replace (4 * u64 * Qabs m)
        with (2 * inject_Z (Z.of_nat 2) * u64 * (Qabs m * 1))
        by (change (inject_Z (Z.of_nat 2)) with 2; ring).
      apply (near_rel_sg n); [exact Hsm | | vm_compute; discriminate].
      revert Hp. unfold m. rewrite Qmult_1_r, sg_div. exact (fun H => H). }
    assert (Hgm : Qabs (g - m) <= 8 * u64 * (1 + Qabs m)).
    { pose proof (Qabs_triangle m (R - L)) as T.
      assert (ET : m + (R - L) == R + - (1)) by (rewrite EL; ring).
      rewrite ET in T.
      pose proof (Qle_Qabs m) as Hm1. pose proof (Qabs_nonneg m) as Hm0.
      apply Qabs_Qle_condition in HRL. apply Qabs_Qle_condition in Hg.
      set (ax := Qabs (R + - (1))) in *. set (am := Qabs m) in *.
      set (ar := Qabs (R - L)) in *.
      assert (Har : ar <= 6 * u64 * L).
      { unfold ar. apply Qabs_Qle_condition.
        split; [|setoid_replace (6 * u64 * L) with (2 * 3 * u64 * L) by ring];
          [setoid_replace (6 * u64 * L) with (2 * 3 * u64 * L) by ring|];
          tauto. }
      apply Qabs_Qle_condition. unfold u64 in *. split; lra. }
    split; [exact Hgm|]. split; [exact Hpm|].
    setoid_replace (g - p) with ((g - m) + - (p - m)) by ring.
    eapply Qle_trans; [apply Qabs_triangle|]. rewrite Qabs_opp.
    pose proof (Qabs_nonneg m). unfold u64 in *. lra.
  - intros H0.
    change (fmul_r rnd (Fin (close b0)) (Fin circulating_supply))
      with (Fin (rnd (close b0 * circulating_supply))).
    rewrite (fneb_zero (Fin (rnd (close b0 * circulating_supply))));
      [reflexivity|].
    simpl. apply (rnd_zero rnd Hr). rewrite H0. ring.
Qed.

(** X3, witness: binary64 on the ramp 10, ..., 23 and on a series that
    opens at zero. *)
Lemma market_cap_growth_is_price_momentum_witness :
  (exists g p,
     calculate_market_cap_growth_r b64 ramp_10_23 = Ok (Fin g) /\
     calculate_price_momentum_r b64 ramp_10_23 = Ok (Fin p) /\
     Qabs (g - p) <= 12 * u64 * (1 + Qabs ((23 - 10) / 10))) /\
  calculate_market_cap_growth_r b64 [mkBar 0 0 0 0 1 0; bar_of_close 2]
  = Ok PInf.
Proof.
  split.
  - destruct (market_cap_growth_is_price_momentum
                b64 (bar_of_close 10) (tl ramp_10_23) b64_faithful) as [H _].
    destruct H as (g & p & Eg & Ep & _ & _ & H);
      [reflexivity | vm_compute; discriminate|].
    exists g, p. split; [exact Eg|]. split; [exact Ep | exact H].
  - apply (market_cap_growth_is_price_momentum
             b64 (mkBar 0 0 0 0 1 0) [bar_of_close 2] b64_faithful).
    reflexivity.
Defined.

(** In binary64 the two are not the same number: on the ramp the growth
    is 1.2999999999999998 and the momentum 1.3. *)
Lemma market_cap_growth_differs_in_binary64 :
  exists g p,
    calculate_market_cap_growth_r b64 ramp_10_23 = Ok (Fin g) /\
    calculate_price_momentum_r b64 ramp_10_23 = Ok (Fin p) /\
    g < p /\ p == b64 (13 # 10).
Proof.
  eexists. eexists.
  split; [vm_compute; reflexivity|]. split; [vm_compute; reflexivity|].
  split; vm_compute; reflexivity.
Qed.

Section Utility.

Variable rnd : Q -> Q.
Variable pow_r : Q -> nat -> Q.
Hypothesis rnd_faithful : faithful rnd.
Hypothesis pow_faithful : faithful_pow pow_r.

Lemma quote_volumes_near (l : list Bar) :
  Forall (fun x => 0 <= volume x /\ 0 <= close x) l ->
  Forall2 (fnear false 1)
          (zip_with (fmul_r rnd) (column volume l) (column close l))
          (map quote_volume l).
Proof.
  induction 1 as [|x r (Hv & Hc) Hr IH]; cbn [column map zip_with];
    constructor; [|exact IH].
  apply (fnear_mul_r rnd rnd_faithful false 0 0).
  - apply fnear_fin, near_refl, Hv.
  - apply near_refl, Hc.
Qed.

Lemma dropna_notna (s : Series) :
  Forall (fun x => isna x = false) s -> dropna s = s.
Proof.
  induction 1 as [|x r Hx Hr IH]; [reflexivity|].
  unfold dropna in *. cbn [filter]. rewrite Hx. cbn [negb]. rewrite IH.
  reflexivity.
Qed.

(** The rounded mean quote volume of non-negative data. *)
Lemma mean_quote_volume_near (l : list Bar) :
  l <> [] -> Forall (fun x => 0 <= volume x /\ 0 <= close x) l ->
  fnear false (S (S (length l)))
        (mean_r rnd (zip_with (fmul_r rnd) (column volume l)
                              (column close l)))
        (total_of quote_volume l / inject_Z (Z.of_nat (length l))).
Proof.
  intros Hne Hl. pose proof (quote_volumes_near l Hl) as HF.
  unfold mean_r. rewrite (dropna_notna _ (Forall2_notna _ _ _ _ HF)).
  pose proof (fsum_r_near rnd rnd_faithful false 1 _ _ HF) as Hs.
  rewrite fold_Qplus_total in Hs.
  rewrite (Forall2_length HF), length_map in *.
  assert (Hlen : (1 <= length l)%nat)
    by (destruct l; [congruence | simpl; lia]).
  pose proof (inject_nat_pos _ Hlen) as Hpos.
  eapply fnear_mono;
    [|apply (fnear_div_r rnd rnd_faithful false (1 + length l) 0 _ _ _ _ Hs
               (near_refl 0 _ (Qlt_le_weak _ _ Hpos)) Hpos)].
  lia.
Qed.

End Utility.

(** X5.  With the default parameters (the floats 0.12 and 0.08, five
    years), non-negative volumes and closes, and any faithful rounding and
    power: when the total quote volume is positive the discounted expected
    utility value is within the relative distance [70 * 2^-53] of the
    current utility value divided by the constant
    [sum_(t=1..5) (1.08/1.12)^t]; when the total quote volume is zero both
    metrics are the infinity sentinel. *)
Theorem deuv_is_scaled_cuv (rnd : Q -> Q) (pow_r : Q -> nat -> Q)
    (df : DataFrame) (b : Bar) :
  faithful rnd -> faithful_pow pow_r ->
  let s := df ++ [b] in
  let total := total_of quote_volume s in
  let K := dcf_constant (12 # 100) (8 # 100) 5 in
  Forall (fun x => 0 <= volume x /\ 0 <= close x) s ->
  (0 < total ->
   exists u v,
     calculate_cuv_r rnd s = Ok (Fin u) /\
     calculate_deuv_r rnd pow_r s (rnd (12 # 100)) (rnd (8 # 100)) 5
     = Ok (Fin v) /\
     Qabs (v - u / K) <= 70 * u64 * (u / K)) /\
  (total == 0 ->
   calculate_cuv_r rnd s = Ok PInf /\
   calculate_deuv_r rnd pow_r s (rnd (12 # 100)) (rnd (8 # 100)) 5
   = Ok PInf).
Proof.
  intros Hr Hp s total K Hs. subst s. set (s := df ++ [b]) in Hs, total.
  assert (Hne : s <> []) by (unfold s; destruct df; discriminate).
  destruct (mean_quote_volume_near rnd Hr s Hne Hs) as (a & Ea & Ha).
  cbn [sg] in Ha. fold total in Ha.
  assert (Hn : 0 < inject_Z (Z.of_nat (length s))).
  { apply inject_nat_pos. destruct s; [congruence | simpl; lia]. }
  assert (Hcb : 0 <= close b).
  { unfold s in Hs. rewrite Forall_app in Hs. destruct Hs as [_ Hb].
    apply Forall_cons_iff in Hb. tauto. }
  assert (HK : 0 < K) by reflexivity.
  pose proof (fun H0 => dcf_sum_near rnd pow_r Hr Hp false a (12 # 100)
                          (8 # 100) H0 ltac:(discriminate)
                          ltac:(discriminate)) as HD.
  cbn [sg] in HD. fold K in HD.
  unfold calculate_cuv_r, calculate_deuv_r.
  rewrite !column_last. cbn [bind]. fold s. rewrite Ea.
  change (fmul_r rnd (Fin (close b)) (Fin circulating_supply))
    with (Fin (rnd (close b * circulating_supply))).
  set (M := rnd (close b * circulating_supply)) in *.
  assert (HM : 0 <= M).
  { unfold M. apply (rnd_nonneg rnd Hr).
    apply Qmult_le_0_compat; [exact Hcb | discriminate]. }
  split.
  - intros Ht.
    assert (Hta : 0 < total / inject_Z (Z.of_nat (length s)))
      by (apply Qlt_shift_div_l; lra).
    pose proof (near_pos _ _ _ Ha Hta) as Ha0.
    destruct (HD ltac:(lra)) as (dq & Ed & Hd). cbn [sg] in Hd.
    rewrite Ed.
    assert (HaK : 0 < a * K) by (apply Qmult_lt_0_compat; assumption).
    pose proof (near_pos _ _ _ Hd HaK) as Hd0.
    rewrite (fneb_nonzero (Fin a) a) by (apply is_fin_refl || lra).
    rewrite (fneb_nonzero (Fin dq) dq) by (apply is_fin_refl || lra).
    unfold fdiv_r. cbn [fdiv].
    rewrite !Qeq_bool_false by lra. cbn [round].
    exists (rnd (M / a)), (rnd (M / dq)).
    split; [reflexivity|]. split; [reflexivity|].
    assert (Hu : near 1 (rnd (M / a)) (M / a)).
    { apply (near_rnd rnd Hr false). cbn [sg]. apply near_refl.
      apply Qle_shift_div_l; lra. }
    assert (Hv : near 34 (rnd (M / dq)) (M / (a * K))).
    { apply (near_rnd rnd Hr false). cbn [sg].
      apply (near_div 0 33); [apply near_refl, HM | exact Hd | exact HaK]. }
    assert (HuK : near 1 (rnd (M / a) / K) (M / (a * K))).
    { setoid_replace (M / (a * K)) with (M / a / K) by (field; lra).
      apply (near_div 1 0); [exact Hu | apply near_refl; lra | exact HK]. }
    pose proof (near_trans _ _ _ _ _ Hv (near_sym _ _ _ HuK)) as Hfin.
    pose proof (near_rel _ _ _ Hfin ltac:(vm_compute; discriminate)) as Hrel.
    setoid_replace (70 * u64 * (rnd (M / a) / K))
      with (2 * inject_Z (Z.of_nat (34 + 1)) * u64 * (rnd (M / a) / K))
      by (change (inject_Z (Z.of_nat (34 + 1))) with 35; ring).
    exact Hrel.
  - intros Ht.
    assert (Ez : total / inject_Z (Z.of_nat (length s)) == 0)
      by (rewrite Ht; field; lra).
    rewrite Ez in Ha. apply near_zero in Ha.
    destruct (HD ltac:(lra)) as (dq & Ed & Hd). cbn [sg] in Hd.
    rewrite Ed.
    assert (Edq : dq == 0).
    { apply (near_zero 33). setoid_replace 0 with (a * K) by (rewrite Ha; ring).
      exact Hd. }
    rewrite (fneb_zero (Fin a)) by exact Ha.
    rewrite (fneb_zero (Fin dq)) by exact Edq.
    split; reflexivity.
Qed.

(** X5, witness: binary64 on a one-bar series with quote volume 6 and on
    one on which nothing was traded. *)
Lemma deuv_is_scaled_cuv_witness :
  (exists u v,
     calculate_cuv_r b64 ([] ++ [mkBar 2 2 2 2 3 3]) = Ok (Fin u) /\
     calculate_deuv_r b64 pow64 ([] ++ [mkBar 2 2 2 2 3 3])
                      (b64 (12 # 100)) (b64 (8 # 100)) 5 = Ok (Fin v) /\
     Qabs (v - u / dcf_constant (12 # 100) (8 # 100) 5)
     <= 70 * u64 * (u / dcf_constant (12 # 100) (8 # 100) 5)) /\
  calculate_deuv_r b64 pow64 ([] ++ [mkBar 1 1 1 1 0 0])
                   (b64 (12 # 100)) (b64 (8 # 100)) 5 = Ok PInf.
Proof.
  split.
  - apply (deuv_is_scaled_cuv b64 pow64 [] (mkBar 2 2 2 2 3 3)
             b64_faithful pow64_faithful).
    + repeat constructor; vm_compute; discriminate.
    + reflexivity.
  - apply (deuv_is_scaled_cuv b64 pow64 [] (mkBar 1 1 1 1 0 0)
             b64_faithful pow64_faithful).
    + repeat constructor; vm_compute; discriminate.
    + reflexivity.
Defined.

(** In binary64 the quotient of the two is not one constant: the frames
    (close 2, volume 3) and (close 7, volume 3) have the same current
    utility value and different discounted values. *)
Lemma deuv_not_constant_multiple_in_binary64 :
  exists u2 v2 u7 v7,
    calculate_cuv_r b64 [mkBar 2 2 2 2 3 3] = Ok (Fin u2) /\
    calculate_cuv_r b64 [mkBar 7 7 7 7 3 3] = Ok (Fin u7) /\
    calculate_deuv_r b64 pow64 [mkBar 2 2 2 2 3 3]
                     (b64 (12 # 100)) (b64 (8 # 100)) 5 = Ok (Fin v2) /\
    calculate_deuv_r b64 pow64 [mkBar 7 7 7 7 3 3]
                     (b64 (12 # 100)) (b64 (8 # 100)) 5 = Ok (Fin v7) /\
    u2 == u7 /\ ~ v2 == v7.
Proof.
  do 4 eexists.
  split; [vm_compute; reflexivity|]. split; [vm_compute; reflexivity|].
  split; [vm_compute; reflexivity|]. split; [vm_compute; reflexivity|].
  split; [vm_compute; reflexivity | vm_compute; discriminate].
Qed.

(* ================================================================== *)
(** ** Chande momentum oscillator in rounded arithmetic *)

Section CmoRounded.

Variable rnd : Q -> Q.
Hypothesis rnd_faithful : faithful rnd.

Lemma length_diff_from_r s : forall p,
  length (diff_from_r rnd p s) = length s.
Proof. induction s as [|x r IH]; intros p; simpl; auto. Qed.

Lemma length_gains_from_r p bars :
  length (gains_from_r rnd p bars) = length bars.
Proof.
  unfold gains_from_r, where_.
  rewrite length_map, length_diff_from_r. apply length_column.
Qed.

Lemma length_losses_from_r p bars :
  length (losses_from_r rnd p bars) = length bars.
Proof.
  unfold losses_from_r, where_.
  rewrite !length_map, length_diff_from_r. apply length_column.
Qed.

Lemma diff_from_r_app s : forall p x t,
  diff_from_r rnd p (s ++ x :: t)
  = diff_from_r rnd p (s ++ [x]) ++ diff_from_r rnd x t.
Proof.
  induction s as [|y r IH]; intros p x t; simpl; [reflexivity|].
  rewrite IH. reflexivity.
Qed.

Lemma gains_r_lastn pre b0 w p :
  lastn (length w) (gains_from_r rnd p (pre ++ b0 :: w)) =
  gains_from_r rnd (Fin (close b0)) w.
Proof.
  unfold gains_from_r, where_, column.
  rewrite map_app. cbn [map]. rewrite diff_from_r_app, map_app.
  apply lastn_app_exact.
  rewrite length_map, length_diff_from_r, length_map. reflexivity.
Qed.

Lemma losses_r_lastn pre b0 w p :
  lastn (length w) (losses_from_r rnd p (pre ++ b0 :: w)) =
  losses_from_r rnd (Fin (close b0)) w.
Proof.
  unfold losses_from_r, where_, column.
  rewrite map_app. cbn [map]. rewrite diff_from_r_app, !map_app.
  apply lastn_app_exact.
  rewrite !length_map, length_diff_from_r, length_map. reflexivity.
Qed.

Lemma gains_from_r_cons p b r :
  gains_from_r rnd (Fin p) (b :: r) =
  (if fgtb (Fin (rnd (close b + - p))) (Fin 0)
   then Fin (rnd (close b + - p)) else Fin 0)
  :: gains_from_r rnd (Fin (close b)) r.
Proof. reflexivity. Qed.

Lemma losses_from_r_cons p b r :
  losses_from_r rnd (Fin p) (b :: r) =
  fneg (if fgtb (Fin 0) (Fin (rnd (close b + - p)))
        then Fin (rnd (close b + - p)) else Fin 0)
  :: losses_from_r rnd (Fin (close b)) r.
Proof. reflexivity. Qed.

Lemma gains_from_r_nonneg w : forall p,
  Forall nonneg (gains_from_r rnd (Fin p) w).
Proof.
  induction w as [|b r IH]; intros p; [constructor|].
  rewrite gains_from_r_cons. constructor; [|apply IH].
  destruct (fgtb (Fin (rnd (close b + - p))) (Fin 0)) eqn:E.
  - apply fgtb_fin in E. eexists; split; [reflexivity | lra].
  - exists 0. split; [reflexivity | lra].
Qed.

Lemma losses_from_r_nonneg w : forall p,
  Forall nonneg (losses_from_r rnd (Fin p) w).
Proof.
  induction w as [|b r IH]; intros p; [constructor|].
  rewrite losses_from_r_cons. constructor; [|apply IH].
  destruct (fgtb (Fin 0) (Fin (rnd (close b + - p)))) eqn:E.
  - apply fgtb_fin in E. eexists; split; [reflexivity | lra].
  - eexists. split; [reflexivity | lra].
Qed.

Lemma flat_if_no_moves_r w : forall p,
  all_fin 0 (gains_from_r rnd (Fin p) w) ->
  all_fin 0 (losses_from_r rnd (Fin p) w) ->
  constant_close p w.
Proof.
  induction w as [|b r IH]; intros p Hg Hl; [constructor|].
  rewrite gains_from_r_cons in Hg. rewrite losses_from_r_cons in Hl.
  apply Forall_cons_iff in Hg. destruct Hg as [Hg1 Hg2].
  apply Forall_cons_iff in Hl. destruct Hl as [Hl1 Hl2].
  assert (Hz : rnd (close b + - p) == 0).
  { destruct (fgtb (Fin (rnd (close b + - p))) (Fin 0)) eqn:E1.
    - apply fgtb_fin in E1. simpl in Hg1. lra.
    - apply fgtb_fin_false in E1.
      destruct (fgtb (Fin 0) (Fin (rnd (close b + - p)))) eqn:E2.
      + apply fgtb_fin in E2. simpl in Hl1. lra.
      + apply fgtb_fin_false in E2. lra. }
  assert (Hb : close b == p).
  { pose proof (rnd_zero_inv rnd rnd_faithful _ Hz). lra. }
  constructor; [exact Hb|].
  eapply Forall_impl; [|apply (IH (close b) Hg2 Hl2)].
  simpl. intros a Ha. rewrite Ha. exact Hb.
Qed.

(** A rounded sum of non-negative numbers is a non-negative number, and
    zero only if every term is. *)
Lemma fold_r_nonneg s : forall a,
  0 <= a -> Forall nonneg s ->
  exists q, fold_left (fadd_r rnd) s (Fin a) = Fin q /\ 0 <= q /\
            (q == 0 -> all_fin 0 s).
Proof.
  induction s as [|x r IH]; intros a Ha H.
  - exists a. split; [reflexivity|]. split; [exact Ha | constructor].
  - apply Forall_cons_iff in H. destruct H as [(t & -> & Ht) Hr].
    cbn [fold_left]. change (fadd_r rnd (Fin a) (Fin t))
      with (Fin (rnd (a + t))).
    assert (Hat : 0 <= rnd (a + t))
      by (apply (rnd_nonneg rnd rnd_faithful); lra).
    destruct (IH (rnd (a + t)) Hat Hr) as (q & E & Hq & Hz).
    exists q. split; [exact E|]. split; [exact Hq|].
    intros Hq0. specialize (Hz Hq0). constructor; [|exact Hz].
    (* the accumulator only grows, so it was zero *)
    clear IH. simpl.
    assert (Hacc : forall l b, 0 <= b -> Forall nonneg l ->
              forall q', fold_left (fadd_r rnd) l (Fin b) = Fin q' ->
              q' == 0 -> b == 0).
    { induction l as [|y l IHl]; intros b Hb Hl q' Eq' Hq'.
      - simpl in Eq'. injection Eq' as <-. exact Hq'.
      - apply Forall_cons_iff in Hl. destruct Hl as [(v & -> & Hv) Hl].
        cbn [fold_left] in Eq'.
        change (fadd_r rnd (Fin b) (Fin v)) with (Fin (rnd (b + v))) in Eq'.
        assert (H0 : rnd (b + v) == 0).
        { apply (IHl (rnd (b + v))) with (q' := q');
            [apply (rnd_nonneg rnd rnd_faithful); lra | exact Hl
            | exact Eq' | exact Hq']. }
        pose proof (rnd_zero_inv rnd rnd_faithful _ H0). lra. }
    pose proof (Hacc r (rnd (a + t)) Hat Hr q E Hq0) as H0.
    pose proof (rnd_zero_inv rnd rnd_faithful _ H0). lra.
Qed.

Lemma win_sum_r_nonneg s :
  Forall nonneg s ->
  exists q, win_sum_r rnd s = Fin q /\ 0 <= q /\ (q == 0 -> all_fin 0 s).
Proof. intros H. apply fold_r_nonneg; [discriminate | exact H]. Qed.

Lemma cmo_series_r_last (df : DataFrame) (w : nat) :
  (1 <= w <= length df)%nat ->
  iloc (cmo_series_r rnd df w) (-1) =
  Ok (cmo_of_r rnd (win_sum_r rnd (lastn w (gains_from_r rnd NaN df)))
               (win_sum_r rnd (lastn w (losses_from_r rnd NaN df)))).
Proof.
  intros Hw.
  assert (Hup : iloc (rolling w (win_sum_r rnd) (gains_from_r rnd NaN df))
                     (-1) =
                Ok (win_sum_r rnd (lastn w (gains_from_r rnd NaN df)))).
  { rewrite rolling_last.
    - rewrite length_gains_from_r.
      destruct (Nat.ltb_spec (length df) w); [lia | reflexivity].
    - apply (nonempty_of_length _ (length df));
        [apply length_gains_from_r | lia]. }
  assert (Hdn : iloc (rolling w (win_sum_r rnd) (losses_from_r rnd NaN df))
                     (-1) =
                Ok (win_sum_r rnd (lastn w (losses_from_r rnd NaN df)))).
  { rewrite rolling_last.
    - rewrite length_losses_from_r.
      destruct (Nat.ltb_spec (length df) w); [lia | reflexivity].
    - apply (nonempty_of_length _ (length df));
        [apply length_losses_from_r | lia]. }
  change (cmo_series_r rnd df w)
    with (zip_with (fdiv_r rnd)
            (map (fun x => fmul_r rnd (Fin 100) x)
                 (zip_with (fsub_r rnd)
                    (rolling w (win_sum_r rnd) (gains_from_r rnd NaN df))
                    (rolling w (win_sum_r rnd) (losses_from_r rnd NaN df))))
            (zip_with (fadd_r rnd)
               (rolling w (win_sum_r rnd) (gains_from_r rnd NaN df))
               (rolling w (win_sum_r rnd) (losses_from_r rnd NaN df)))).
  unfold cmo_of_r. apply zip_with_last.
  - rewrite length_map, !length_zip_with, !length_rolling. reflexivity.
  - apply (map_last (fun x => fmul_r rnd (Fin 100) x)).
    apply zip_with_last; [|exact Hup | exact Hdn].
    rewrite !length_rolling, length_gains_from_r, length_losses_from_r.
    reflexivity.
  - apply zip_with_last; [|exact Hup | exact Hdn].
    rewrite !length_rolling, length_gains_from_r, length_losses_from_r.
    reflexivity.
Qed.

(** The oscillator of two non-negative sums, not both zero. *)
Lemma cmo_of_r_bound u d :
  0 <= u -> 0 <= d -> 0 < u + d ->
  exists q, cmo_of_r rnd (Fin u) (Fin d) = Fin q /\
            -100 - 800 * u64 <= q <= 100 + 800 * u64.
Proof.
  intros Hu Hd Hud. unfold cmo_of_r.
  destruct (sg_of_any (u - d)) as [n Hn].
  pose proof (fsub_r_near rnd rnd_faithful n u d Hn) as A1.
  pose proof (fnear_mul_l rnd rnd_faithful false n 1 100 _ _
                ltac:(discriminate) A1) as A2.
  cbn [xorb sg] in A2.
  assert (D : near 1 (rnd (u + d)) (u + d)).
  { apply (near_rnd rnd rnd_faithful false). cbn [sg]. apply near_refl. lra. }
  pose proof (fnear_div_r rnd rnd_faithful n 2 1 _ _ _ _ A2 D Hud)
    as (q & Eq & Hq).
  cbn [Nat.add] in Hq. exists q. split; [exact Eq|].
  set (E := 100 * sg n (u - d) / (u + d)) in *.
  assert (HE1 : E <= 100).
  { unfold E. apply Qle_shift_div_r; [lra|].
    destruct n; cbn [sg] in *; lra. }
  pose proof (near_rel _ _ _ Hq ltac:(vm_compute; discriminate)) as Hrel.
  change (inject_Z (Z.of_nat 4)) with 4 in Hrel.
  apply Qabs_Qle_condition in Hrel. destruct Hrel as [_ Hrel].
  destruct Hq as (Hq0 & HE0 & _).
  unfold u64 in *. destruct n; cbn [sg] in *; split; lra.
Qed.

End CmoRounded.

(** X17.  With at least [w + 1] bars whose last [w + 1] closes are not
    all equal, the Chande momentum oscillator of period [w], evaluated
    with any faithful rounding, is a number between [-100 - 800 u] and
    [100 + 800 u], [u = 2^-53]. *)
Theorem cmo_range (rnd : Q -> Q) (df : DataFrame) (w : nat) :
  faithful rnd ->
  (1 <= w)%nat -> (S w <= length df)%nat ->
  ~ (exists c, constant_close c (lastn (S w) df)) ->
  exists c,
    calculate_cmo_r rnd df w = Ok (Fin c) /\
    -100 - 800 * u64 <= c <= 100 + 800 * u64.
Proof.
  intros Hr Hw Hlen Hvar.
  destruct (lastn_split df w Hlen) as (pre & b0 & win & Hdf & Hwin & H15 & _).
  pose proof (cmo_series_r_last rnd df w ltac:(lia)) as Hcmo.
  subst df. subst w.
  rewrite gains_r_lastn, losses_r_lastn in Hcmo.
  destruct (win_sum_r_nonneg rnd Hr _
              (gains_from_r_nonneg rnd win (close b0)))
    as (u & Eu & Hu & Hzu).
  destruct (win_sum_r_nonneg rnd Hr _
              (losses_from_r_nonneg rnd win (close b0)))
    as (d & Ed & Hd & Hzd).
  assert (Hud : 0 < u + d).
  { destruct (Qlt_le_dec 0 (u + d)) as [H|H]; [exact H|].
    exfalso. apply Hvar. exists (close b0). rewrite H15.
    constructor; [reflexivity|].
    apply (flat_if_no_moves_r rnd Hr); [apply Hzu | apply Hzd]; lra. }
  rewrite Eu, Ed in Hcmo.
  destruct (cmo_of_r_bound rnd Hr u d Hu Hd Hud) as (q & Eq & Hq).
  rewrite Eq in Hcmo. exists q. split; [|exact Hq].
  unfold calculate_cmo_r.
  rewrite (forallb_isna_last _ _ Hcmo) by reflexivity. exact Hcmo.
Qed.

(** X17, witness: binary64 on the ramp followed by a fall to 20. *)
Lemma cmo_range_witness :
  exists c,
    calculate_cmo_r b64 (ramp_10_23 ++ [bar_of_close 20]) 14 = Ok (Fin c) /\
    -100 - 800 * u64 <= c <= 100 + 800 * u64.
Proof.
  apply (cmo_range b64 (ramp_10_23 ++ [bar_of_close 20]) 14 b64_faithful).
  - lia.
  - simpl. lia.
  - intros [c H]. unfold constant_close in H. rewrite Forall_forall in H.
    assert (H1 : close (bar_of_close 10) == c)
      by (apply H; vm_compute; left; reflexivity).
    assert (H2 : close (bar_of_close 11) == c)
      by (apply H; vm_compute; right; left; reflexivity).
    cbn in H1, H2. lra.
Defined.

(** In binary64 the bound 100 itself is exceeded: fourteen closes at 0.01
    and then 0.06 give 100.00000000000001. *)
Lemma cmo_above_100 :
  exists c,
    calculate_cmo_r b64
      (repeat (bar_of_close (b64 (1 # 100))) 14
       ++ [bar_of_close (b64 (6 # 100))]) 14 = Ok (Fin c) /\
    100 < c.
Proof.
  eexists. split; vm_compute; reflexivity.
Qed.

(** C8 (as amended).  On a series whose closes all equal [c], under any
    faithful rounding: [calculate_sma_50] is within the relative distance
    [102 * 2^-53] of [c] once there are at least 50 bars, and NaN on a
    shorter non-empty series; [calculate_vwap] is within the relative
    distance [(4 N + 10) * 2^-53] of [c] when the highs and lows also
    equal [c] (the typical price is what it averages), no volume is
    negative and the total volume is positive. *)
Theorem constant_series_sma_vwap (rnd : Q -> Q) (df : DataFrame) (c : Q) :
  faithful rnd -> constant_close c df ->
  ((50 <= length df)%nat ->
   exists q, calculate_sma_50_r rnd df = Ok (Fin q) /\
             Qabs (q - c) <= 102 * u64 * Qabs c) /\
  ((1 <= length df < 50)%nat -> calculate_sma_50_r rnd df = Ok NaN) /\
  (constant_price c df -> Forall (fun b => 0 <= volume b) df ->
   0 < total_of volume df ->
   (Z.of_nat (length df) <= 100000000)%Z ->
   exists q, calculate_vwap_r rnd df = Ok (Fin q) /\
             Qabs (q - c)
             <= inject_Z (Z.of_nat (4 * length df + 10)) * u64 * Qabs c).
Proof.
  intros Hr Hc. split; [|split].
  - intros Hn. apply calculate_sma_50_r_constant; assumption.
  - intros Hn. apply rolling_short_last;
      [destruct df; simpl in *; [lia|discriminate] | lia].
  - intros Hp Hv Ht Hlen. apply calculate_vwap_r_constant; assumption.
Qed.

(** C8, witness: binary64 on sixty bars on which every price is 5/2. *)
Lemma constant_series_sma_vwap_witness :
  (exists q, calculate_sma_50_r b64 (repeat (bar_of_close (5 # 2)) 60)
             = Ok (Fin q) /\
             Qabs (q - (5 # 2)) <= 102 * u64 * Qabs (5 # 2)) /\
  calculate_sma_50_r b64 (repeat (bar_of_close (5 # 2)) 3) = Ok NaN /\
  (exists q, calculate_vwap_r b64 (repeat (bar_of_close (5 # 2)) 60)
             = Ok (Fin q) /\
             Qabs (q - (5 # 2)) <= 250 * u64 * Qabs (5 # 2)).
Proof.
  split; [|split].
  - apply (constant_series_sma_vwap b64 (repeat (bar_of_close (5 # 2)) 60)
             (5 # 2) b64_faithful).
    + apply repeat_Forall. reflexivity.
    + simpl. lia.
  - apply (constant_series_sma_vwap b64 (repeat (bar_of_close (5 # 2)) 3)
             (5 # 2) b64_faithful).
    + apply repeat_Forall. reflexivity.
    + simpl. lia.
  - apply (constant_series_sma_vwap b64 (repeat (bar_of_close (5 # 2)) 60)
             (5 # 2) b64_faithful).
    + apply repeat_Forall. reflexivity.
    + apply repeat_Forall. repeat split; reflexivity.
    + apply repeat_Forall. vm_compute. discriminate.
    + vm_compute. reflexivity.
    + simpl. lia.
Defined.

(** In binary64 the VWAP of a constant-price series is not always the
    price: when every price of the only bar is the float 0.1 the typical
    price [(0.1 + 0.1 + 0.1) / 3] is 0.10000000000000002. *)
Lemma vwap_inexact_in_binary64 :
  exists q,
    constant_price (b64 (1 # 10)) [bar_of_close (b64 (1 # 10))] /\
    calculate_vwap_r b64 [bar_of_close (b64 (1 # 10))] = Ok (Fin q) /\
    b64 (1 # 10) < q.
Proof.
  eexists. split; [repeat constructor; reflexivity|].
  split; vm_compute; reflexivity.
Qed.

(** C6 (as amended).  On every series with at least 15 bars:
    [calculate_rsi] lies in [0, 100] when the closes of the last 15 bars
    are not all equal; when the last bar has [low <= close <= high] and,
    over the last 14 bars, some high is above some low (the trailing range
    is not zero), [calculate_stochastic_k] under any faithful rounding
    lies in [0, 100 + 800 * 2^-53] and [calculate_williams_r] in
    [-100 - 800 * 2^-53, 0]. *)
Theorem oscillator_ranges (rnd : Q -> Q) (df : DataFrame) (b : Bar) :
  faithful rnd ->
  (15 <= length (df ++ [b]))%nat ->
  (~ (exists c, constant_close c (lastn 15 (df ++ [b]))) ->
   exists q, calculate_rsi (df ++ [b]) 14 = Ok (Fin q) /\ 0 <= q <= 100) /\
  (low b <= close b <= high b ->
   (exists x y, In x (lastn 14 (df ++ [b])) /\ In y (lastn 14 (df ++ [b])) /\
                low x < high y) ->
   (exists q, calculate_stochastic_k_r rnd (df ++ [b]) 14 = Ok (Fin q) /\
              0 <= q <= 100 + 800 * u64) /\
   (exists q, calculate_williams_r_r rnd (df ++ [b]) 14 = Ok (Fin q) /\
              -100 - 800 * u64 <= q <= 0)).
Proof.
  intros Hr Hlen. split.
  - intros Hvar. apply calculate_rsi_range; [lia | exact Hlen | exact Hvar].
  - intros Hbar Hrange. split.
    + apply stochastic_k_r_range; [exact Hr | lia | exact Hbar | exact Hrange].
    + apply williams_r_r_range; [exact Hr | lia | exact Hbar | exact Hrange].
Qed.

(** C6, witness: binary64 on the 15-bar ramp of closes 10, 11, ..., 24. *)
Lemma oscillator_ranges_witness :
  (exists q, calculate_rsi (ramp_10_23 ++ [bar_of_close 24]) 14 = Ok (Fin q) /\
             0 <= q <= 100) /\
  (exists q, calculate_stochastic_k_r b64 (ramp_10_23 ++ [bar_of_close 24]) 14
             = Ok (Fin q) /\ 0 <= q <= 100 + 800 * u64) /\
  (exists q, calculate_williams_r_r b64 (ramp_10_23 ++ [bar_of_close 24]) 14
             = Ok (Fin q) /\ -100 - 800 * u64 <= q <= 0).
Proof.
  destruct (oscillator_ranges b64 ramp_10_23 (bar_of_close 24) b64_faithful)
    as [Hrsi Hosc]; [simpl; lia|].
  split.
  - apply Hrsi. intros [c H]. unfold constant_close in H.
    rewrite Forall_forall in H.
    assert (H1 : close (bar_of_close 10) == c)
      by (apply H; vm_compute; left; reflexivity).
    assert (H2 : close (bar_of_close 11) == c)
      by (apply H; vm_compute; right; left; reflexivity).
    cbn in H1, H2. lra.
  - apply Hosc.
    + cbn. lra.
    + exists (bar_of_close 11), (bar_of_close 24).
      split; [vm_compute; left; reflexivity|].
      split; [vm_compute; do 13 right; left; reflexivity|].
      cbn. lra.
Defined.
